(** * vue-use-a11y: a shallow embedding of [src/use-a11y.ts]

    The composable [useAccessibility] schedules axe-core scans of a target
    element, diffs the violations of consecutive scans, resolves reported
    nodes through shadow roots and draws a highlight overlay.  This file
    embeds the scan queue, the differ, the locator, the readiness gate and
    the overlay, and proves what the code does. *)

From Stdlib Require Import String Ascii List Bool Arith ZArith Lia Permutation.
From stdpp Require Import base option list strings gmap.


(** ** JavaScript string and array primitives used by the source *)

Module Js.

(** [Array.prototype.join] *)
Definition join (sep : string) (l : list string) : string :=
  String.concat sep l.

(** [s.slice(0, n)] *)
Definition slice0 (n : nat) (s : string) : string :=
  String.substring 0 n s.

(** [s.includes(needle)] *)
Fixpoint includes (needle s : string) : bool :=
  String.prefix needle s ||
  match s with
  | EmptyString => false
  | String _ s' => includes needle s'
  end.

(** A [string] stands for the sequence of UTF-16 code units of a
    JavaScript string, for code units below 256: an [ascii] value is a
    code unit, not a byte of an encoding, and [String.length] is
    [s.length].  Text with a code unit of 256 or more is outside the
    embedding. *)

(** White space in the sense of [String.prototype.trim], among the code
    units below 256: TAB to CR, SPACE and NO-BREAK SPACE. *)
Definition is_space (c : ascii) : bool :=
  let n := nat_of_ascii c in
  (Nat.eqb n 32) || ((Nat.leb 9 n) && (Nat.leb n 13)) || (Nat.eqb n 160).

Fixpoint trimStart (s : string) : string :=
  match s with
  | EmptyString => EmptyString
  | String c s' => if is_space c then trimStart s' else s
  end.

Definition rev_string (s : string) : string :=
  string_of_list_ascii (rev (list_ascii_of_string s)).

Definition trimEnd (s : string) : string :=
  rev_string (trimStart (rev_string s)).

(** [s.trim()] *)
Definition trim (s : string) : string := trimEnd (trimStart s).

(** [s.split(sep)] for a one-character separator: never empty, the
    pieces between consecutive separators, empty pieces included. *)
Fixpoint split (sep : ascii) (s : string) : list string :=
  match s with
  | EmptyString => [EmptyString]
  | String c s' =>
      if Ascii.eqb c sep then EmptyString :: split sep s'
      else match split sep s' with
           | [] => [String c EmptyString]
           | w :: ws => String c w :: ws
           end
  end.

Definition dquote : ascii := "034"%char.

(** The longest prefix of [s] free of [stop], and what follows it. *)
Fixpoint span_not (stop : ascii) (s : string) : string * string :=
  match s with
  | EmptyString => (EmptyString, EmptyString)
  | String c s' =>
      if Ascii.eqb c stop then (EmptyString, s)
      else let (run, rest) := span_not stop s' in (String c run, rest)
  end.

Fixpoint drop_chars (n : nat) (s : string) : string :=
  match n, s with
  | S n', String _ s' => drop_chars n' s'
  | _, _ => s
  end.

(** The regular expression [pre([^stop]+)stop] anchored at the start of
    [s]: the greedy run of non-[stop] characters must be non-empty and be
    followed by [stop]. *)
Definition match_here (pre : string) (stop : ascii) (s : string)
  : option string :=
  if String.prefix pre s then
    match span_not stop (drop_chars (String.length pre) s) with
    | (String c run, String _ _) => Some (String c run)
    | _ => None
    end
  else None.

(** [s.match(/pre([^stop]+)stop/)]: capture group 1 of the leftmost
    match, [None] for a [null] result. *)
Fixpoint capture (pre : string) (stop : ascii) (s : string)
  : option string :=
  match match_here pre stop s with
  | Some r => Some r
  | None =>
      match s with
      | EmptyString => None
      | String _ s' => capture pre stop s'
      end
  end.

(** [s.match(re)] for the attribute patterns of the source: [name=]
    followed by a non-empty double-quoted value. *)
Definition attr_match (name : string) (s : string) : option string :=
  capture (name +:+ "=" +:+ String dquote EmptyString) dquote s.

End Js.

(** ** Violation differ: [createViolationKey] and [logViolations] *)

Module Differ.

(** axe-core's [Result.impact?: ImpactValue], where [ImpactValue] is one
    of four strings or [null]. *)
Inductive impact_value :=
| ImpUndefined
| ImpNull
| ImpStr (s : string).

(** A node of axe-core's [Result.nodes]: [{html, target}]. *)
Record NodeResult := mkNodeResult {
  html : string;
  target : list string
}.

(** axe-core's [Result], the fields the composable reads. *)
Record Result := mkResult {
  id : string;
  impact : impact_value;
  description : string;
  help : string;
  helpUrl : string;
  nodes : list NodeResult
}.

(** Template-literal conversion [`${impact}`]. *)
Definition impact_to_string (i : impact_value) : string :=
  match i with
  | ImpUndefined => "undefined"
  | ImpNull => "null"
  | ImpStr s => s
  end.

(** [impact || 'unknown']: [undefined], [null] and the empty string are
    falsy. *)
Definition impact_or_unknown (i : impact_value) : string :=
  match i with
  | ImpStr (String c s) => String c s
  | _ => "unknown"
  end.

(** [n.target.join(',').slice(0, 50)] *)
Definition target_segment (n : NodeResult) : string :=
  Js.slice0 50 (Js.join "," (target n)).

(** [violation.nodes.map((n) => n.target.join(',').slice(0, 50)).join('|')] *)
Definition target_component (v : Result) : string :=
  Js.join "|" (map target_segment (nodes v)).

(** [createViolationKey] *)
Definition createViolationKey (v : Result) : string :=
  id v +:+ ":" +:+ impact_to_string (impact v) +:+ ":" +:+ target_component v.

(** The impact is a non-empty string, as it is for the four impact
    levels. *)
Definition impact_present (v : Result) : bool :=
  match impact v with
  | ImpStr (String _ _) => true
  | _ => false
  end.

Section WithLocator.

(** The element type of the page and [findElementInShadowDOM] applied
    to the current document: [node.target[0]] is [undefined] for an
    empty target.  This locator returns for every node; the calls in
    which it raises are those of [RaisingDiffer]. *)
Context {Element : Type}.
Variable findElementInShadowDOM : option string -> string -> option Element.

Record LogNode := mkLogNode {
  ln_html : string;
  ln_target : list string;
  ln_element : option Element
}.

(** [interface ViolationLogEntry] *)
Record ViolationLogEntry := mkEntry {
  e_id : string;
  e_impact : string;
  e_description : string;
  e_help : string;
  e_helpUrl : string;
  e_nodes : list LogNode
}.

(** The cast [v as Result] of an entry: the same fields, read at the
    other type. *)
Definition as_Result (v : ViolationLogEntry) : Result :=
  {| id := e_id v;
     impact := ImpStr (e_impact v);
     description := e_description v;
     help := e_help v;
     helpUrl := e_helpUrl v;
     nodes := map (fun n => mkNodeResult (ln_html n) (ln_target n))
                  (e_nodes v) |}.

(** The object literal built for each violation at the top of
    [logViolations]. *)
Definition to_entry (violation : Result) : ViolationLogEntry :=
  {| e_id := id violation;
     e_impact := impact_or_unknown (impact violation);
     e_description := description violation;
     e_help := help violation;
     e_helpUrl := helpUrl violation;
     e_nodes :=
       map (fun node =>
              {| ln_html := html node;
                 ln_target := target node;
                 ln_element :=
                   findElementInShadowDOM (head (target node)) (html node) |})
           (nodes violation) |}.

(** The instance variables [logViolations] reads and writes. *)
Record differ_state := mkDiffer {
  violations : list ViolationLogEntry;
  previousViolations : list ViolationLogEntry
}.

Definition differ_init : differ_state := mkDiffer [] [].

(** What one call reports on the console: either every current
    violation in detail (first branch), or the violations that are new
    and those that are resolved (second branch). *)
Inductive report :=
| ReportAll (shown : list Result)
| ReportUpdate (newViolations : list Result)
               (resolvedViolations : list ViolationLogEntry).

(** [keys.has(k)] for the [Set] built from the list [keys]. *)
Definition has_key (keys : list string) (k : string) : bool :=
  existsb (String.eqb k) keys.

(** [logViolations(results, isInitialScan)], on [results.violations]. *)
Definition logViolations (results : list Result) (isInitialScan : bool)
           (st : differ_state) : differ_state * report :=
  let violations' := map to_entry results in
  let rep :=
    if isInitialScan || Nat.eqb (length (previousViolations st)) 0 then
      ReportAll results
    else
      let previousKeys :=
        map (fun v => createViolationKey (as_Result v)) (previousViolations st) in
      let currentKeys := map createViolationKey results in
      let newViolations :=
        List.filter (fun v => negb (has_key previousKeys (createViolationKey v)))
                    results in
      let resolvedViolations :=
        List.filter
          (fun v => negb (has_key currentKeys (createViolationKey (as_Result v))))
          (previousViolations st) in
      ReportUpdate newViolations resolvedViolations in
  ({| violations := violations'; previousViolations := violations' |}, rep).

(** The violations reported as newly appearing: all of them in the
    first branch, [newViolations] in the second. *)
Definition added (r : report) : list Result :=
  match r with
  | ReportAll shown => shown
  | ReportUpdate n _ => n
  end.

(** The violations reported as resolved: the first branch computes
    none. *)
Definition removed (r : report) : list ViolationLogEntry :=
  match r with
  | ReportAll _ => []
  | ReportUpdate _ r => r
  end.

End WithLocator.

End Differ.

(** ** The document tree *)

Module Dom.

(** An element carries its tag, its attributes, its open shadow root
    when it hosts one, and its child nodes; the only other nodes are
    texts.  A [Document] is a node without attributes or shadow root. *)
#[warnings="-register-all"]
Inductive node :=
| Element (tagName : string) (attributes : list (string * string))
          (shadow : option (list node)) (kids : list node)
| Text (data : string).

Definition is_element (n : node) : bool :=
  match n with Element _ _ _ _ => true | Text _ => false end.

Definition tagName (n : node) : string :=
  match n with Element t _ _ _ => t | Text _ => "#text" end.

Definition childNodes (n : node) : list node :=
  match n with Element _ _ _ cs => cs | Text _ => [] end.

(** [el.shadowRoot] *)
Definition shadowRoot (n : node) : option (list node) :=
  match n with Element _ _ sr _ => sr | Text _ => None end.

(** [parent.children] of a list of child nodes: the elements among
    them. *)
Definition children (cs : list node) : list node :=
  List.filter is_element cs.

Definition hasAttribute (name : string) (n : node) : bool :=
  match n with
  | Element _ attrs _ _ => existsb (fun kv => String.eqb (fst kv) name) attrs
  | Text _ => false
  end.

(** An element followed by its element descendants, in document order;
    shadow trees are not entered. *)
Fixpoint subtree (n : node) : list node :=
  match n with
  | Element _ _ _ cs => n :: flat_map subtree cs
  | Text _ => []
  end.

(** [root.querySelectorAll('*')], for a root given by its child nodes. *)
Definition descendants (scope : list node) : list node :=
  flat_map subtree scope.

(** [node.textContent] *)
Fixpoint textContent (n : node) : string :=
  match n with
  | Text d => d
  | Element _ _ _ cs => String.concat "" (map textContent cs)
  end.

(** Nesting depth, shadow trees included. *)
Fixpoint height (n : node) : nat :=
  match n with
  | Text _ => 0
  | Element _ _ sr cs =>
      S (Nat.max (match sr with
                  | Some l => list_max (map height l)
                  | None => 0
                  end)
                 (list_max (map height cs)))
  end.

End Dom.

(** ** Shadow-boundary locator: [findByHtmlContent] and
       [findByHtmlContentInAllShadowRoots] *)

Module Locator.
Import Dom.

Definition q : string := String Js.dquote EmptyString.

(** Early return on a hit: [if (element) return element;] followed by
    the rest of the function. *)
Definition or_else {A} (found : option A) (rest : option A) : option A :=
  match found with
  | Some e => Some e
  | None => rest
  end.

Section WithEngine.

(** The browser's selector engine, [root.querySelector(selector)] for
    a root given by its child nodes.  Selector strings are built below
    as the source builds them; what they select is the engine's
    matter.  This engine answers every selector it is given; the
    engine that raises a [SyntaxError] for some of them, and the
    locator over it, are those of [Raising]. *)
Variable querySelector : list node -> string -> option node.

(** The six lookups of [findByHtmlContent], each on one root. *)

Definition by_id (htmlContent : string) (root : list node) : option node :=
  match Js.attr_match "id" htmlContent with
  | Some i => querySelector root ("#" +:+ i)
  | None => None
  end.

Definition by_aria_label (htmlContent : string) (root : list node)
  : option node :=
  match Js.attr_match "aria-label" htmlContent with
  | Some l => querySelector root ("[aria-label=" +:+ q +:+ l +:+ q +:+ "]")
  | None => None
  end.

Definition by_role_and_class (htmlContent : string) (root : list node)
  : option node :=
  match Js.attr_match "role" htmlContent, Js.attr_match "class" htmlContent with
  | Some r, Some c =>
      querySelector root
        ("[role=" +:+ q +:+ r +:+ q +:+ "]." +:+ Js.join "." (Js.split " " c))
  | _, _ => None
  end.

Definition by_role (htmlContent : string) (root : list node) : option node :=
  match Js.attr_match "role" htmlContent with
  | Some r => querySelector root ("[role=" +:+ q +:+ r +:+ q +:+ "]")
  | None => None
  end.

Definition by_class (htmlContent : string) (root : list node) : option node :=
  match Js.attr_match "class" htmlContent with
  | Some c =>
      let classes :=
        List.filter (fun c => Nat.ltb 0 (String.length c)) (Js.split " " c) in
      if Nat.ltb 0 (length classes)
      then querySelector root ("." +:+ Js.join "." classes)
      else None
  | None => None
  end.

Definition by_text (htmlContent : string) (root : list node) : option node :=
  match Js.capture ">" "<" htmlContent with
  | Some m =>
      let text := Js.trim m in
      if Nat.ltb 3 (String.length text)
      then List.find (fun element => String.eqb (Js.trim (textContent element)) text)
                     (descendants root)
      else None
  | None => None
  end.

(** [findByHtmlContent] *)
Definition findByHtmlContent (htmlContent : string) (root : list node)
  : option node :=
  or_else (by_id htmlContent root)
 (or_else (by_aria_label htmlContent root)
 (or_else (by_role_and_class htmlContent root)
 (or_else (by_role htmlContent root)
 (or_else (by_class htmlContent root)
          (by_text htmlContent root))))).

(** A [for] loop that returns the first non-null result of a recursive
    call; [None] when a call ran out of fuel. *)
Fixpoint first_result {A} (f : A -> option (option node)) (l : list A)
  : option (option node) :=
  match l with
  | [] => Some None
  | x :: l' =>
      match f x with
      | None => None
      | Some (Some e) => Some (Some e)
      | Some None => first_result f l'
      end
  end.

(** The inner [searchAllShadowRoots].  The recursion follows the
    document, so it is bounded by the nesting depth; [fuel] makes that
    bound explicit and [None] reports that it was too small. *)
Fixpoint searchAllShadowRoots (fuel : nat) (htmlContent : string) (n : node)
  : option (option node) :=
  match fuel with
  | 0 => None
  | S fuel' =>
      let in_shadow :=
        match shadowRoot n with
        | Some sr =>
            match findByHtmlContent htmlContent sr with
            | Some found => Some (Some found)
            | None =>
                first_result (searchAllShadowRoots fuel' htmlContent)
                             (descendants sr)
            end
        | None => Some None
        end in
      match in_shadow with
      | None => None
      | Some (Some e) => Some (Some e)
      | Some None =>
          first_result (searchAllShadowRoots fuel' htmlContent)
                       (children (childNodes n))
      end
  end.

(** [findByHtmlContentInAllShadowRoots] *)
Definition findByHtmlContentInAllShadowRoots (fuel : nat)
           (htmlContent : string) (root : node) : option (option node) :=
  match findByHtmlContent htmlContent (childNodes root) with
  | Some mainDocElement => Some (Some mainDocElement)
  | None => searchAllShadowRoots fuel htmlContent root
  end.

(** The inner [searchInShadow] of [findElementInShadowDOM]: the same
    descent, with the selector looked up in each shadow root. *)
Fixpoint searchInShadow (fuel : nat) (selector : string) (n : node)
  : option (option node) :=
  match fuel with
  | 0 => None
  | S fuel' =>
      let in_shadow :=
        match shadowRoot n with
        | Some sr =>
            match querySelector sr selector with
            | Some found => Some (Some found)
            | None =>
                first_result (searchInShadow fuel' selector) (descendants sr)
            end
        | None => Some None
        end in
      match in_shadow with
      | None => None
      | Some (Some e) => Some (Some e)
      | Some None =>
          first_result (searchInShadow fuel' selector)
                       (children (childNodes n))
      end
  end.

(** [findElementInShadowDOM(selector, htmlContent, rootElement)]:
    [htmlContent] is [None] when the argument is left out, and the
    empty string is falsy. *)
Definition findElementInShadowDOM (fuel : nat) (selector : string)
           (htmlContent : option string) (root : node)
  : option (option node) :=
  let by_content :=
    match htmlContent with
    | Some (String c h) =>
        findByHtmlContentInAllShadowRoots fuel (String c h) root
    | _ => Some None
    end in
  match by_content with
  | None => None
  | Some (Some element) => Some (Some element)
  | Some None =>
      match querySelector (childNodes root) selector with
      | Some element => Some (Some element)
      | None => searchInShadow fuel selector root
      end
  end.

(** The call in [logViolations]:
    [findElementInShadowDOM(node.target[0], node.html) || undefined],
    on the document [doc]; an [undefined] selector reads as the string
    of that name. *)
Definition resolve (doc : node) (selector : option string) (html : string)
  : option node :=
  match findElementInShadowDOM (S (height doc))
          (match selector with Some s => s | None => "undefined" end)
          (Some html) doc with
  | Some found => found
  | None => None
  end.

(** The roots [searchAllShadowRoots] queries, in the order in which it
    queries them. *)
Fixpoint visited (fuel : nat) (n : node) : list (list node) :=
  match fuel with
  | 0 => []
  | S fuel' =>
      match shadowRoot n with
      | Some sr => sr :: flat_map (visited fuel') (descendants sr)
      | None => []
      end ++ flat_map (visited fuel') (children (childNodes n))
  end.

(** All roots of a search from [root]: the root itself, then every
    nested shadow root, depth first. *)
Definition boundaries (root : node) : list (list node) :=
  childNodes root :: visited (S (height root)) root.

(** The first hit of [lookup] over a list of arguments. *)
Fixpoint first_hit {A} (lookup : A -> option node) (l : list A) : option node :=
  match l with
  | [] => None
  | x :: l' => or_else (lookup x) (first_hit lookup l')
  end.

Definition lookups : list (string -> list node -> option node) :=
  [by_id; by_aria_label; by_role_and_class; by_role; by_class; by_text].

(** The search order as the specification words it: each lookup, in
    priority order, is tried on the given root and on every nested
    boundary before the next lookup is considered. *)
Definition locate_lookup_major (htmlContent : string) (root : node)
  : option node :=
  first_hit (fun lookup => first_hit (lookup htmlContent) (boundaries root))
            lookups.

(** The search order of the code: each boundary in turn, all lookups
    in priority order on it. *)
Definition locate_boundary_major (htmlContent : string) (root : node)
  : option node :=
  first_hit (fun scope => first_hit (fun lookup => lookup htmlContent scope) lookups)
            (boundaries root).

End WithEngine.

End Locator.

(** ** Readiness gate: [hasContentReady] and [waitForContentReadiness] *)

Module Gate.
Import Dom.

(** The allow-list of [hasContentReady]'s first query:
    [button, input, a, img, canvas, video, audio, [role], [aria-label],
    [tabindex]]. *)
Definition meaningful_tags : list string :=
  ["button"; "input"; "a"; "img"; "canvas"; "video"; "audio"].

Definition meaningful_attributes : list string :=
  ["role"; "aria-label"; "tabindex"].

Definition is_meaningful (n : node) : bool :=
  existsb (String.eqb (tagName n)) meaningful_tags ||
  existsb (fun a => hasAttribute a n) meaningful_attributes.

(** [el.shadowRoot && el.shadowRoot.children.length > 0] *)
Definition has_shadow_content (el : node) : bool :=
  match shadowRoot el with
  | Some sr => Nat.ltb 0 (length (children sr))
  | None => false
  end.

(** [hasContentReady] *)
Definition hasContentReady (waitForContent : bool) (targetElement : node) : bool :=
  if negb waitForContent then true
  else
    let meaningfulElements :=
      List.filter is_meaningful (descendants (childNodes targetElement)) in
    if Nat.ltb 0 (length meaningfulElements) then true
    else
      let textContent := Js.trim (textContent targetElement) in
      if Nat.ltb 0 (String.length textContent) && Nat.ltb 10 (String.length textContent)
      then true
      else existsb has_shadow_content (descendants (childNodes targetElement)).


(** The delay of [setTimeout(checkContent, 100)]. *)
Definition pollInterval : Z := 100.

(** How the promise of [waitForContentReadiness] settles, with what was
    written to the console and the delays of the timers armed on the
    way. *)
Record settled := mkSettled {
  value : bool;
  warnings : list string;
  armed : list Z
}.

Definition timeoutWarning : string :=
  "Accessibility scan started without full content readiness (timeout reached)".

(** [formatMessage]; a missing or empty [loggerPrefix] is falsy. *)
Definition formatMessage (loggerPrefix : option string) (message : string)
  : string :=
  match loggerPrefix with
  | Some (String c p) => String c p +:+ ": " +:+ message
  | _ => message
  end.

Section Polling.

(** The options [loggerPrefix] and [waitForContent]. *)
Variable loggerPrefix : option string.
Variable waitForContent : bool.

(** What the [k]-th run of [checkContent] observes: the target as it
    is then, and the reading of [Date.now()]. *)
Variable targetAt : nat -> node.
Variable nowAt : nat -> Z.

(** [checkContent], run for the [k]-th time; [fuel] bounds the number
    of further runs. *)
Fixpoint checkContent (fuel : nat) (startTime maxWaitTime : Z) (k : nat)
  : option settled :=
  match fuel with
  | 0 => None
  | S fuel' =>
      if hasContentReady waitForContent (targetAt k) then
        Some (mkSettled true [] [])
      else
        let elapsed := (nowAt k - startTime)%Z in
        if (maxWaitTime <=? elapsed)%Z then
          Some (mkSettled false [formatMessage loggerPrefix timeoutWarning] [])
        else
          match checkContent fuel' startTime maxWaitTime (S k) with
          | Some r => Some (mkSettled (value r) (warnings r) (pollInterval :: armed r))
          | None => None
          end
  end.

(** [waitForContentReadiness(targetElement, maxWaitTime)], called when
    the clock reads [startTime]. *)
Definition waitForContentReadiness (fuel : nat) (startTime maxWaitTime : Z)
  : option settled :=
  if negb waitForContent then Some (mkSettled true [] [])
  else checkContent fuel startTime maxWaitTime 0.

End Polling.

End Gate.

(** ** Highlight overlay: [highlightElement] and [removeHighlight] *)

Module Overlay.

(** [element.getBoundingClientRect()], in pixels. *)
Record DOMRect := mkRect {
  top : Z;
  left : Z;
  width : Z;
  height : Z
}.

(** The declarations of the overlay's [style.cssText]. *)
Record style := mkStyle {
  position : string;
  s_top : Z;
  s_left : Z;
  s_width : Z;
  s_height : Z;
  border : string;
  background : string;
  pointer_events : string;
  z_index : Z;
  box_sizing : string
}.

(** A child of [document.body]: its identity, its [id] attribute and,
    for a node the composable made, its style. *)
Record body_child := mkChild {
  handle : nat;
  child_id : string;
  child_style : option style
}.

(** [document.body]'s children and the module variable
    [highlightedElement]; [fresh] numbers the nodes created. *)
Record page := mkPage {
  body : list body_child;
  highlightedElement : option nat;
  fresh : nat
}.

Definition overlay_id : string := "axe-highlight-overlay".

Definition overlay_style (rect : DOMRect) : style :=
  {| position := "fixed";
     s_top := top rect;
     s_left := left rect;
     s_width := width rect;
     s_height := height rect;
     border := "3px solid #ff4444";
     background := "rgba(255, 68, 68, 0.1)";
     pointer_events := "none";
     z_index := 10000;
     box_sizing := "border-box" |}.

(** [removeHighlight] *)
Definition removeHighlight (p : page) : page :=
  match highlightedElement p with
  | Some h =>
      {| body := List.filter (fun c => negb (Nat.eqb (handle c) h)) (body p);
         highlightedElement := None;
         fresh := fresh p |}
  | None => p
  end.

(** [highlightElement(element)], where [rect] is the bounding box of
    [element] at the time of the call. *)
Definition highlightElement (enableHighlighting : bool) (rect : DOMRect)
           (p : page) : page :=
  if negb enableHighlighting then p
  else
    let p1 := removeHighlight p in
    let highlight := mkChild (fresh p1) overlay_id (Some (overlay_style rect)) in
    {| body := body p1 ++ [highlight];
       highlightedElement := Some (handle highlight);
       fresh := S (fresh p1) |}.

(** The overlay nodes present in the page. *)
Definition overlays (p : page) : list body_child :=
  List.filter (fun c => String.eqb (child_id c) overlay_id) (body p).

(** The variable and the page agree: the variable is empty and the
    page has no overlay, or it names the one overlay of the page. *)
Definition consistent (p : page) : Prop :=
  match highlightedElement p with
  | Some h => exists o, overlays p = [o] /\ handle o = h
  | None => overlays p = []
  end.

(** The calls the composable's instances can make. *)
Inductive call :=
| Highlight (enableHighlighting : bool) (rect : DOMRect)
| Remove.

Definition perform (c : call) (p : page) : page :=
  match c with
  | Highlight en rect => highlightElement en rect p
  | Remove => removeHighlight p
  end.

(** A page the application built: no overlay yet, distinct nodes. *)
Definition application_page (ids : list string) : page :=
  {| body := imap (fun i s => mkChild i s None)
                  (List.filter (fun s => negb (String.eqb s overlay_id)) ids);
     highlightedElement := None;
     fresh := length ids |}.

(** The pages the composable's calls lead to. *)
Inductive reachable : page -> Prop :=
| reachable_application ids : reachable (application_page ids)
| reachable_perform c p : reachable p -> reachable (perform c p).

End Overlay.

(** ** Scan scheduler: [processAxeQueue], [runAxe] and [cleanup]

    JavaScript runs one callback at a time; an [await] suspends the
    running async function and its continuation runs later, as a step of
    its own.  The module state, the suspended activations of
    [processAxeQueue] and the armed timers make up the state; one step is
    one call from outside or one continuation. *)

Module Scheduler.

(** A thrown value: whether it is an [Error] instance, and its
    [message]. *)
Record js_error := mkError {
  is_Error : bool;
  message : string
}.

(** [error instanceof Error && error.message.includes('Axe is already running')] *)
Definition is_already_running (error : js_error) : bool :=
  is_Error error && Js.includes "Axe is already running" (message error).

(** The closure variables of one call of [useAccessibility] that the
    scheduler touches. *)
Record instance := mkInstance {
  enabled : bool;
  hasRunInitialScan : bool;
  isRunning : bool
}.

(** A [queuedRun] closure: the instance it belongs to and its
    [isInitialScan]; [rid] numbers the closures in creation order. *)
Record thunk := mkThunk {
  rid : nat;
  owner : nat;
  isInitialScan : bool
}.

(** The three [await]s of [queuedRun]. *)
Inductive await_point :=
| AtImport
| AtReadiness
| AtScanner.

(** A [queuedRun] is suspended at an [await], or its promise has
    settled. *)
Inductive thunk_state :=
| Awaiting (a : await_point)
| Fulfilled
| Rejected (e : js_error).

(** An activation of [processAxeQueue], suspended at
    [await nextRun()]. *)
Record drain := mkDrain {
  current : thunk;
  at_point : thunk_state
}.

Inductive callback :=
| RetryInitialScan (i : nat)
| SetupWatchers (i : nat).

(** [setTimeout(callback, delay)] *)
Record timer := mkTimer {
  delay : nat;
  action : callback
}.

(** What happened, for the record: queue events and console output. *)
Inductive event :=
| Submitted (r : nat)
| Started (r : nat)
| Finished (r : nat)
| ScannerInvoked (r : nat) (i : nat) (initial : bool)
| ConsoleWarn (text : string)
| ConsoleError (text : string) (e : js_error).

Record state := mkState {
  isAxeRunning : bool;
  axeInstances : gset nat;
  axeQueue : list thunk;
  isProcessingQueue : bool;
  instances : nat -> instance;
  drains : list drain;
  timers : list timer;
  (** most recent first *)
  log : list event;
  next_rid : nat
}.

Definition set_isAxeRunning (b : bool) (st : state) : state :=
  mkState b (axeInstances st) (axeQueue st) (isProcessingQueue st)
          (instances st) (drains st) (timers st) (log st) (next_rid st).

Definition set_axeInstances (s : gset nat) (st : state) : state :=
  mkState (isAxeRunning st) s (axeQueue st) (isProcessingQueue st)
          (instances st) (drains st) (timers st) (log st) (next_rid st).

Definition set_axeQueue (q : list thunk) (st : state) : state :=
  mkState (isAxeRunning st) (axeInstances st) q (isProcessingQueue st)
          (instances st) (drains st) (timers st) (log st) (next_rid st).

Definition set_isProcessingQueue (b : bool) (st : state) : state :=
  mkState (isAxeRunning st) (axeInstances st) (axeQueue st) b
          (instances st) (drains st) (timers st) (log st) (next_rid st).

Definition set_instances (f : nat -> instance) (st : state) : state :=
  mkState (isAxeRunning st) (axeInstances st) (axeQueue st) (isProcessingQueue st)
          f (drains st) (timers st) (log st) (next_rid st).

Definition set_drains (d : list drain) (st : state) : state :=
  mkState (isAxeRunning st) (axeInstances st) (axeQueue st) (isProcessingQueue st)
          (instances st) d (timers st) (log st) (next_rid st).

Definition set_timers (t : list timer) (st : state) : state :=
  mkState (isAxeRunning st) (axeInstances st) (axeQueue st) (isProcessingQueue st)
          (instances st) (drains st) t (log st) (next_rid st).

Definition emit (e : event) (st : state) : state :=
  mkState (isAxeRunning st) (axeInstances st) (axeQueue st) (isProcessingQueue st)
          (instances st) (drains st) (timers st) (e :: log st) (next_rid st).

Definition set_next_rid (n : nat) (st : state) : state :=
  mkState (isAxeRunning st) (axeInstances st) (axeQueue st) (isProcessingQueue st)
          (instances st) (drains st) (timers st) (log st) n.

Definition update_instance (i : nat) (f : instance -> instance) (st : state)
  : state :=
  set_instances (fun j => if Nat.eqb j i then f (instances st j) else instances st j) st.

Definition set_isRunning (i : nat) (b : bool) : state -> state :=
  update_instance i (fun x => mkInstance (enabled x) (hasRunInitialScan x) b).

Definition set_hasRunInitialScan (i : nat) (b : bool) : state -> state :=
  update_instance i (fun x => mkInstance (enabled x) b (isRunning x)).

Definition setTimeout (a : callback) (ms : nat) (st : state) : state :=
  set_timers (timers st ++ [mkTimer ms a]) st.

(** *** Statements that may throw *)

Inductive completion (A : Type) :=
| Normal (a : A)
| Throw (e : js_error).
Arguments Normal {A} a.
Arguments Throw {A} e.

Definition M (A : Type) : Type := state -> completion A * state.

Definition ret {A} (a : A) : M A := fun st => (Normal a, st).

Definition throw {A} (e : js_error) : M A := fun st => (Throw e, st).

Definition bind {A B} (c : M A) (k : A -> M B) : M B :=
  fun st =>
    match c st with
    | (Normal a, st') => k a st'
    | (Throw e, st') => (Throw e, st')
    end.

(** An assignment or a console call: it changes the state and does not
    throw. *)
Definition exec (f : state -> state) : M unit := fun st => (Normal tt, f st).

Notation "c1 ;; c2" := (bind c1 (fun _ => c2))
  (at level 100, right associativity).

(** How a stretch of [queuedRun] between two suspension points ends. *)
Inductive control :=
| Suspend (a : await_point)
| Return.

(** The [catch] block of [queuedRun]. *)
Definition catch_block (t : thunk) (error : js_error) : M unit :=
  if is_already_running error then
    if isInitialScan t
    then exec (setTimeout (RetryInitialScan (owner t)) 1000)
    else ret tt
  else exec (emit (ConsoleError "Error running accessibility scan:" error)).

(** The [finally] block of [queuedRun]. *)
Definition finally_block (t : thunk) : M unit :=
  exec (set_isRunning (owner t) false) ;;
  exec (set_isAxeRunning false).

(** A stretch of the [try] block of [queuedRun], in its
    [try]/[catch]/[finally]: a suspension leaves the block pending; a
    [return] or the end of the block runs [finally]; a throw runs
    [catch], then [finally]. *)
Definition in_try (t : thunk) (body : M control) : M control :=
  fun st =>
    match body st with
    | (Normal (Suspend p), st1) => (Normal (Suspend p), st1)
    | (Normal Return, st1) =>
        (finally_block t ;; ret Return) st1
    | (Throw e, st1) =>
        match catch_block t e st1 with
        | (Normal _, st2) => (finally_block t ;; ret Return) st2
        | (Throw e', st2) => (finally_block t ;; throw e') st2
        end
    end.

(** [axe.default.run(...)] is called; its promise settles later. *)
Definition call_scanner (t : thunk) : M control :=
  exec (emit (ScannerInvoked (rid t) (owner t) (isInitialScan t))) ;;
  ret (Suspend AtScanner).

(** From the continuation of [await import('axe-core')] to the next
    suspension.  [failure] is the rejection of the import, if it was
    rejected; [targetPresent] tells whether [targetElement] is truthy. *)
Definition after_import (t : thunk) (failure : option js_error)
           (targetPresent : bool) : M control :=
  match failure with
  | Some e => throw e
  | None =>
      exec (set_isAxeRunning true) ;;
      exec (set_isRunning (owner t) true) ;;
      exec (fun st => set_axeInstances ({[owner t]} ∪ axeInstances st) st) ;;
      if negb targetPresent then
        exec (emit (ConsoleWarn "Target element for accessibility testing not found")) ;;
        ret Return
      else if isInitialScan t then ret (Suspend AtReadiness)
      else call_scanner t
  end.

(** From the continuation of [await waitForContentReadiness(...)]: the
    value of the gate is not used. *)
Definition after_readiness (t : thunk) (ready : bool) : M control :=
  call_scanner t.

(** How the scanner's promise settles, and whether [logViolations]
    then throws (what it does to the violation lists is [Differ]'s
    matter). *)
Inductive scan_outcome :=
| ScanRejected (e : js_error)
| ScanResolved (logViolationsThrows : option js_error).

(** From the continuation of [await axe.default.run(...)] to the end
    of the [try] block. *)
Definition after_scan (t : thunk) (o : scan_outcome) : M control :=
  match o with
  | ScanRejected e => throw e
  | ScanResolved (Some e) => throw e
  | ScanResolved None =>
      (if isInitialScan t then
         exec (set_hasRunInitialScan (owner t) true) ;;
         exec (setTimeout (SetupWatchers (owner t)) 500)
       else ret tt) ;;
      ret Return
  end.

(** The call [nextRun()]: [queuedRun] from its first statement to its
    first suspension. *)
Definition start_thunk (t : thunk) (st : state) : thunk_state * state :=
  if isAxeRunning st then (Fulfilled, emit (Finished (rid t)) st)
  else (Awaiting AtImport, st).

(** The [while] loop of [processAxeQueue] from its test to
    [await nextRun()], where the activation suspends, or to the end of
    the function. *)
Definition loop_head (st : state) : option drain * state :=
  match axeQueue st with
  | nextRun :: rest =>
      let st1 := emit (Started (rid nextRun)) (set_axeQueue rest st) in
      let (p, st2) := start_thunk nextRun st1 in
      (Some (mkDrain nextRun p), st2)
  | [] => (None, set_isProcessingQueue false st)
  end.

(** [processAxeQueue()], up to its first suspension. *)
Definition processAxeQueue (st : state) : state :=
  if isProcessingQueue st || Nat.eqb (length (axeQueue st)) 0 then st
  else
    match loop_head (set_isProcessingQueue true st) with
    | (Some d, st1) => set_drains (drains st1 ++ [d]) st1
    | (None, st1) => st1
    end.

(** [runAxe(isInitialScan)] on instance [i]: how the call completes
    and the state it leaves. *)
Definition runAxe (i : nat) (isInitialScan : bool) : M unit :=
  fun st =>
    if negb (enabled (instances st i)) then (Normal tt, st)
    else if isInitialScan && hasRunInitialScan (instances st i) then (Normal tt, st)
    else
      let queuedRun := mkThunk (next_rid st) i isInitialScan in
      let st1 := set_next_rid (S (next_rid st))
                   (emit (Submitted (rid queuedRun))
                      (set_axeQueue (axeQueue st ++ [queuedRun]) st)) in
      (Normal tt, processAxeQueue st1).

(** [cleanup()] on instance [i], as far as the scheduler's variables
    go. *)
Definition cleanup (i : nat) (st : state) : state :=
  let st1 := set_axeInstances (axeInstances st ∖ {[i]}) st in
  if Nat.eqb (size (axeInstances st1)) 0 then set_isAxeRunning false st1
  else st1.

(** *** Steps *)

Inductive label :=
| CallRunAxe (i : nat) (isInitialScan : bool)
| CallCleanup (i : nat)
| ImportSettles (k : nat) (failure : option js_error) (targetPresent : bool)
| ReadinessSettles (k : nat) (ready : bool)
| ScannerSettles (k : nat) (o : scan_outcome)
| ThunkSettled (k : nat)
| TimerFires (k : nat).

(** The [k]-th activation continues its thunk with [body]. *)
Definition continue_thunk (k : nat) (t : thunk) (body : M control)
           (st : state) : state :=
  match in_try t body st with
  | (Normal (Suspend p), st1) =>
      set_drains (<[k := mkDrain t (Awaiting p)]> (drains st1)) st1
  | (Normal Return, st1) =>
      set_drains (<[k := mkDrain t Fulfilled]> (drains st1))
                 (emit (Finished (rid t)) st1)
  | (Throw e, st1) =>
      set_drains (<[k := mkDrain t (Rejected e)]> (drains st1))
                 (emit (Finished (rid t)) st1)
  end.

(** The [k]-th activation continues after [await nextRun()]: the
    [catch] of [processAxeQueue] for a rejected promise, then the loop
    again. *)
Definition continue_drain (k : nat) (settled : thunk_state) (st : state)
  : state :=
  let st0 :=
    match settled with
    | Rejected e => emit (ConsoleError "Error in queued accessibility scan:" e) st
    | _ => st
    end in
  match loop_head st0 with
  | (Some d, st1) => set_drains (<[k := d]> (drains st1)) st1
  | (None, st1) => set_drains (delete k (drains st1)) st1
  end.

Definition step (l : label) (st : state) : option state :=
  match l with
  | CallRunAxe i b => Some (snd (runAxe i b st))
  | CallCleanup i => Some (cleanup i st)
  | ImportSettles k failure targetPresent =>
      match drains st !! k with
      | Some (mkDrain t (Awaiting AtImport)) =>
          Some (continue_thunk k t (after_import t failure targetPresent) st)
      | _ => None
      end
  | ReadinessSettles k ready =>
      match drains st !! k with
      | Some (mkDrain t (Awaiting AtReadiness)) =>
          Some (continue_thunk k t (after_readiness t ready) st)
      | _ => None
      end
  | ScannerSettles k o =>
      match drains st !! k with
      | Some (mkDrain t (Awaiting AtScanner)) =>
          Some (continue_thunk k t (after_scan t o) st)
      | _ => None
      end
  | ThunkSettled k =>
      match drains st !! k with
      | Some (mkDrain t Fulfilled) => Some (continue_drain k Fulfilled st)
      | Some (mkDrain t (Rejected e)) => Some (continue_drain k (Rejected e) st)
      | _ => None
      end
  | TimerFires k =>
      match timers st !! k with
      | Some (mkTimer _ (RetryInitialScan i)) =>
          Some (snd (runAxe i true (set_timers (delete k (timers st)) st)))
      | Some (mkTimer _ (SetupWatchers i)) =>
          Some (set_timers (delete k (timers st)) st)
      | None => None
      end
  end.

Fixpoint run (ls : list label) (st : state) : option state :=
  match ls with
  | [] => Some st
  | l :: ls' =>
      match step l st with
      | Some st' => run ls' st'
      | None => None
      end
  end.

(** The page is loaded: nothing runs, nothing is queued; [on i] is the
    [enabled] option of instance [i]. *)
Definition init (on : nat -> bool) : state :=
  {| isAxeRunning := false;
     axeInstances := ∅;
     axeQueue := [];
     isProcessingQueue := false;
     instances := fun i => mkInstance (on i) false false;
     drains := [];
     timers := [];
     log := [];
     next_rid := 0 |}.

Inductive reachable (on : nat -> bool) : state -> Prop :=
| reachable_init : reachable on (init on)
| reachable_step l st st' :
    reachable on st -> step l st = Some st' -> reachable on st'.

(** *** Reading the record *)

Fixpoint submitted (tr : list event) : list nat :=
  match tr with
  | Submitted r :: tr' => r :: submitted tr'
  | _ :: tr' => submitted tr'
  | [] => []
  end.

Fixpoint started (tr : list event) : list nat :=
  match tr with
  | Started r :: tr' => r :: started tr'
  | _ :: tr' => started tr'
  | [] => []
  end.

(** The thunks started and not yet finished. *)
Fixpoint in_flight (tr : list event) : list nat :=
  match tr with
  | Started r :: tr' => r :: in_flight tr'
  | Finished r :: tr' => List.filter (fun x => negb (Nat.eqb x r)) (in_flight tr')
  | _ :: tr' => in_flight tr'
  | [] => []
  end.

(** The scanner calls made for initial scans of instance [i]. *)
Definition initial_scans (i : nat) (tr : list event) : nat :=
  length (List.filter (fun e => match e with
                                | ScannerInvoked _ j true => Nat.eqb j i
                                | _ => false
                                end) tr).

(** At every moment of the recorded history at most one thunk was
    started and not finished. *)
Fixpoint serial (tr : list event) : Prop :=
  match tr with
  | [] => True
  | e :: tr' => length (in_flight (e :: tr')) <= 1 /\ serial tr'
  end.

(** Console output and scanner calls: events that say nothing about
    the queue. *)
Definition quiet (e : event) : Prop :=
  match e with
  | Submitted _ | Started _ | Finished _ => False
  | _ => True
  end.

(** The thunk an activation is waiting for, unless it has settled. *)
Definition pending (d : drain) : list nat :=
  match at_point d with
  | Awaiting _ => [rid (current d)]
  | Fulfilled | Rejected _ => []
  end.

(** What a stretch of [queuedRun] leaves alone: the queue, the
    activations, the draining flag and the numbering; it only adds quiet
    events to the record and never removes an instance handle. *)
Record frame (st st' : state) : Prop := mkFrame {
  frame_drains : drains st' = drains st;
  frame_queue : axeQueue st' = axeQueue st;
  frame_flag : isProcessingQueue st' = isProcessingQueue st;
  frame_next : next_rid st' = next_rid st;
  frame_log : exists evs, log st' = evs ++ log st /\ List.Forall quiet evs;
  frame_handles : axeInstances st ⊆ axeInstances st';
  frame_enabled : forall i, enabled (instances st' i) = enabled (instances st i);
  frame_initial :
    forall i, hasRunInitialScan (instances st i) = true ->
              hasRunInitialScan (instances st' i) = true
}.

(** A statement sequence that keeps the frame, whether it completes or
    throws. *)
Definition harmless {A} (c : M A) : Prop :=
  forall st, frame st (snd (c st)).

(** The queue discipline, as an invariant of the reachable states. *)
Record invariant (st : state) : Prop := mkInvariant {
  inv_idle : isProcessingQueue st = false -> drains st = [];
  inv_busy : isProcessingQueue st = true -> exists d, drains st = [d];
  inv_flight : in_flight (log st) = flat_map pending (drains st);
  inv_fifo :
    rev (submitted (log st))
    = rev (started (log st)) ++ map rid (axeQueue st);
  inv_serial : serial (log st);
  inv_fulfilled : forall d e, In d (drains st) -> at_point d <> Rejected e
}.

End Scheduler.

(** ** A small selector engine, for worked examples

    It reads the selector shapes [findByHtmlContent] builds ([#id], an
    attribute test with optional classes, classes alone) and selects the
    first matching element in document order; a selector it cannot read
    selects nothing. *)

Module Engine.
Import Dom.

Inductive simple_selector :=
| ById (i : string)
| ByAttribute (name value : string) (classes : list string)
| ByClasses (classes : list string).

Definition getAttribute (name : string) (n : node) : option string :=
  match n with
  | Element _ attrs _ _ =>
      option_map snd (List.find (fun kv => String.eqb (fst kv) name) attrs)
  | Text _ => None
  end.

Definition classList (n : node) : list string :=
  match getAttribute "class" n with
  | Some c => List.filter (fun c => Nat.ltb 0 (String.length c)) (Js.split " " c)
  | None => []
  end.

Definition all_nonempty (l : list string) : bool :=
  forallb (fun c => Nat.ltb 0 (String.length c)) l.

(** [.c1.c2], possibly empty, after the first dot was read. *)
Definition parse_classes (s : string) : option (list string) :=
  let cs := Js.split "." s in
  if all_nonempty cs then Some cs else None.

Definition parse (sel : string) : option simple_selector :=
  match sel with
  | String "#" i => Some (ById i)
  | String "." cs => option_map ByClasses (parse_classes cs)
  | String "[" rest =>
      match Js.span_not "=" rest with
      | (name, String _ (String d rest1)) =>
          if Ascii.eqb d Js.dquote then
            match Js.span_not Js.dquote rest1 with
            | (value, String _ (String "]" EmptyString)) =>
                Some (ByAttribute name value [])
            | (value, String _ (String "]" (String "." cs))) =>
                option_map (ByAttribute name value) (parse_classes cs)
            | _ => None
            end
          else None
      | _ => None
      end
  | _ => None
  end.

Definition has_classes (classes : list string) (n : node) : bool :=
  forallb (fun c => existsb (String.eqb c) (classList n)) classes.

Definition matches (s : simple_selector) (n : node) : bool :=
  match s with
  | ById i =>
      match getAttribute "id" n with
      | Some v => String.eqb v i
      | None => false
      end
  | ByAttribute name value classes =>
      match getAttribute name n with
      | Some v => String.eqb v value && has_classes classes n
      | None => false
      end
  | ByClasses classes => has_classes classes n
  end.

Definition querySelector (scope : list node) (sel : string) : option node :=
  match parse sel with
  | Some s => List.find (matches s) (descendants scope)
  | None => None
  end.

End Engine.

(** ** Worked inputs *)

Module Ex.
Import Differ.

(** A page without elements to resolve. *)
Definition no_locator : option string -> string -> option unit :=
  fun _ _ => None.

Definition viol_X : Result :=
  mkResult "image-alt" (ImpStr "critical") "Images must have alternate text"
           "help" "url" [mkNodeResult "<img src='a.png'>" ["img"]].

(** A violation without impact. *)
Definition viol_Y : Result :=
  mkResult "label" ImpUndefined "Form elements must have labels"
           "help" "url" [mkNodeResult "<input>" ["#name"]].

Definition viol_Z : Result :=
  mkResult "color-contrast" (ImpStr "serious") "Elements must meet contrast"
           "help" "url" [mkNodeResult "<p>" ["p"; "span"]].

Definition viol_Y_serious : Result :=
  mkResult "label" (ImpStr "serious") "Form elements must have labels"
           "help" "url" [mkNodeResult "<input>" ["#name"]].



(** A light-tree [span] with the role [button], and a custom element
    whose shadow tree holds the [div] with the id [save]. *)
Definition span_button : Dom.node :=
  Dom.Element "span" [("role", "button")] None [Dom.Text "Close"].

Definition div_save : Dom.node :=
  Dom.Element "div" [("id", "save"); ("role", "button")] None [Dom.Text "Save"].

Definition widget : Dom.node :=
  Dom.Element "my-widget" [] (Some [div_save]) [].

Definition page_body : Dom.node :=
  Dom.Element "body" [] None [span_button; widget].

(** The markup of [div_save] as axe-core reports it: the opening tag
    with its two attributes, double-quoted. *)
Definition div_save_html : string :=
  "<div id=" +:+ Locator.q +:+ "save" +:+ Locator.q +:+
  " role=" +:+ Locator.q +:+ "button" +:+ Locator.q +:+ ">Save</div>".

(** An element whose text is two letters between blanks, and its
    markup. *)
Definition b_padded : Dom.node :=
  Dom.Element "b" [] None [Dom.Text "  ok  "].

Definition b_padded_html : string := "<b>  ok  </b>".

(** A target with text only, and one with a button. *)
Definition loading : Dom.node :=
  Dom.Element "div" [] None [Dom.Text "  ...  "].

Definition loaded : Dom.node :=
  Dom.Element "div" [] None [Dom.Element "button" [] None [Dom.Text "OK"]].

(** The target gets its button before the fourth check; checks are
    100 ms apart, the first at 1000 ms. *)
Definition targetAt (k : nat) : Dom.node :=
  if Nat.ltb k 3 then loading else loaded.

Definition nowAt (k : nat) : Z := (1000 + 100 * Z.of_nat k)%Z.

(** Two calls of [runAxe(true)] on instance 0 before anything else
    happens, then each queued scan runs to its end. *)
Definition two_initial_requests : list Scheduler.label :=
  [Scheduler.CallRunAxe 0 true;
   Scheduler.CallRunAxe 0 true;
   Scheduler.ImportSettles 0 None true;
   Scheduler.ReadinessSettles 0 true;
   Scheduler.ScannerSettles 0 (Scheduler.ScanResolved None);
   Scheduler.ThunkSettled 0;
   Scheduler.ImportSettles 0 None true;
   Scheduler.ReadinessSettles 0 true;
   Scheduler.ScannerSettles 0 (Scheduler.ScanResolved None);
   Scheduler.ThunkSettled 0].

(** Two instances ask for a scan; the first scan is under way. *)
Definition two_instances_one_scanning : list Scheduler.label :=
  [Scheduler.CallRunAxe 0 false;
   Scheduler.CallRunAxe 1 false;
   Scheduler.ImportSettles 0 None true].

Definition all_enabled : nat -> bool := fun _ => true.

Definition busy_error : Scheduler.js_error :=
  Scheduler.mkError true "Axe is already running. Use `await axe.run()` to wait for the previous run to finish before starting a new run.".

Definition other_error : Scheduler.js_error :=
  Scheduler.mkError true "No elements found for include in page Context".

(** An initial and a later scan of instance 0, each waiting for the
    scanner. *)
Definition initial_at_scanner : list Scheduler.label :=
  [Scheduler.CallRunAxe 0 true;
   Scheduler.ImportSettles 0 None true;
   Scheduler.ReadinessSettles 0 true].

Definition rescan_at_scanner : list Scheduler.label :=
  [Scheduler.CallRunAxe 0 false;
   Scheduler.ImportSettles 0 None true].

Definition rect1 : Overlay.DOMRect := Overlay.mkRect 10 20 300 40.
Definition rect2 : Overlay.DOMRect := Overlay.mkRect 200 0 120 24.

End Ex.


(** ** Console summary of [logViolations] *)

Module Summary.
Import Differ.

(** The summary line or group [logViolations] writes, in the order of
    its branches. *)
Inductive summary :=
| NoViolationsFound
| ViolationsFound (count : nat)
| ScanUpdate (resolved new total : nat)
| AllResolved (count : nat)
| NoNewViolations
| Nothing.

(** The two messages of the last two branches of [logViolations]. *)
Definition celebrates (s : summary) : bool :=
  match s with
  | AllResolved _ | NoNewViolations => true
  | _ => false
  end.

Section WithLocator.

Context {Element : Type}.
Variable findElementInShadowDOM : option string -> string -> option Element.

(** The [if]/[else if] chain of [logViolations] around its console
    calls, on the lists [logViolations] computes. *)
Definition console_summary (results : list Result) (isInitialScan : bool)
           (st : differ_state) : summary :=
  match snd (logViolations findElementInShadowDOM results isInitialScan st) with
  | ReportAll _ =>
      if Nat.eqb (length results) 0 then NoViolationsFound
      else ViolationsFound (length results)
  | ReportUpdate newViolations resolvedViolations =>
      if Nat.ltb 0 (length newViolations) || Nat.ltb 0 (length resolvedViolations)
      then ScanUpdate (length resolvedViolations) (length newViolations)
                      (length results)
      else if Nat.eqb (length results) 0
              && Nat.ltb 0 (length (previousViolations st))
      then AllResolved (length (previousViolations st))
      else if Nat.eqb (length results) 0 then NoNewViolations
      else Nothing
  end.

End WithLocator.

End Summary.

(** ** Substrings *)

Module Sub.

(** The first position at which [p] occurs in [s]. *)
Fixpoint find_sub (p s : string) : option nat :=
  if String.prefix p s then Some 0
  else match s with
       | EmptyString => None
       | String _ s' => option_map S (find_sub p s')
       end.

Fixpoint has_char (c : ascii) (s : string) : bool :=
  match s with
  | EmptyString => false
  | String d s' => Ascii.eqb d c || has_char c s'
  end.

(** The pattern [name=] and an opening double quote, as the attribute
    expressions of [findByHtmlContent] start. *)
Definition opening (name : string) : string :=
  name +:+ "=" +:+ String Js.dquote EmptyString.

End Sub.

(** ** The composed tree *)

Module Tree.
Import Dom.

(** An element followed by the elements of its shadow tree and of its
    children, shadow trees entered. *)
Fixpoint composed (n : node) : list node :=
  match n with
  | Element _ _ sr cs =>
      n :: match sr with
           | Some l => flat_map composed l
           | None => []
           end ++ flat_map composed cs
  | Text _ => []
  end.

(** The shadow roots below a node, depth first: the shadow root of the
    node itself, then the shadow roots below the nodes of that shadow
    tree, then those below its children, each once. *)
Fixpoint depth_first (n : node) : list (list node) :=
  match n with
  | Element _ _ sr cs =>
      match sr with
      | Some l => l :: flat_map depth_first l
      | None => []
      end ++ flat_map depth_first cs
  | Text _ => []
  end.

(** Markup from which no lookup can be built. *)
Definition no_handle (htmlContent : string) : Prop :=
  Js.attr_match "id" htmlContent = None /\
  Js.attr_match "aria-label" htmlContent = None /\
  Js.attr_match "role" htmlContent = None /\
  Js.attr_match "class" htmlContent = None /\
  match Js.capture ">" "<" htmlContent with
  | Some m => String.length (Js.trim m) <= 3
  | None => True
  end.

(** A selector engine that returns elements of the root it is asked
    about. *)
Definition sound_engine (querySelector : list node -> string -> option node)
  : Prop :=
  forall (scope : list node) (selector : string) (e : node),
    querySelector scope selector = Some e -> In e (descendants scope).

End Tree.

(** ** The locator with a selector engine that may raise

    [querySelector] raises a [SyntaxError] for a string that is not a
    valid selector, and the selectors of [findByHtmlContent] are built
    from the markup without escaping.  No function of the locator catches
    it: the error ends the search and reaches the caller.  The
    definitions of [Locator] are the case of an engine that answers every
    selector it is given. *)

Module Raising.
Import Dom.

(** How a call that looks for an element ends. *)
Inductive lookup :=
| Hit (e : node)
| Null
| SyntaxError.

Definition of_option (r : option node) : lookup :=
  match r with
  | Some e => Hit e
  | None => Null
  end.

(** [if (element) return element;] followed by the rest of the
    function: the rest runs only after a call that returned [null]. *)
Definition or_else (found : lookup) (rest : lookup) : lookup :=
  match found with
  | Hit e => Hit e
  | Null => rest
  | SyntaxError => SyntaxError
  end.

(** An engine that never raises. *)
Definition lift (querySelector : list node -> string -> option node)
  : list node -> string -> lookup :=
  fun root selector => of_option (querySelector root selector).

Section WithEngine.

Variable querySelector : list node -> string -> lookup.

Definition by_id (htmlContent : string) (root : list node) : lookup :=
  match Js.attr_match "id" htmlContent with
  | Some i => querySelector root ("#" +:+ i)
  | None => Null
  end.

Definition by_aria_label (htmlContent : string) (root : list node) : lookup :=
  match Js.attr_match "aria-label" htmlContent with
  | Some l =>
      querySelector root
        ("[aria-label=" +:+ Locator.q +:+ l +:+ Locator.q +:+ "]")
  | None => Null
  end.

Definition by_role_and_class (htmlContent : string) (root : list node)
  : lookup :=
  match Js.attr_match "role" htmlContent, Js.attr_match "class" htmlContent with
  | Some r, Some c =>
      querySelector root
        ("[role=" +:+ Locator.q +:+ r +:+ Locator.q +:+ "]."
         +:+ Js.join "." (Js.split " " c))
  | _, _ => Null
  end.

Definition by_role (htmlContent : string) (root : list node) : lookup :=
  match Js.attr_match "role" htmlContent with
  | Some r => querySelector root ("[role=" +:+ Locator.q +:+ r +:+ Locator.q +:+ "]")
  | None => Null
  end.

Definition by_class (htmlContent : string) (root : list node) : lookup :=
  match Js.attr_match "class" htmlContent with
  | Some c =>
      let classes :=
        List.filter (fun c => Nat.ltb 0 (String.length c)) (Js.split " " c) in
      if Nat.ltb 0 (length classes)
      then querySelector root ("." +:+ Js.join "." classes)
      else Null
  | None => Null
  end.

(** The text lookup goes through [querySelectorAll('*')], which does
    not raise. *)
Definition by_text (htmlContent : string) (root : list node) : lookup :=
  match Js.capture ">" "<" htmlContent with
  | Some m =>
      let text := Js.trim m in
      if Nat.ltb 3 (String.length text)
      then of_option
             (List.find
                (fun element => String.eqb (Js.trim (textContent element)) text)
                (descendants root))
      else Null
  | None => Null
  end.

(** [findByHtmlContent] *)
Definition findByHtmlContent (htmlContent : string) (root : list node)
  : lookup :=
  or_else (by_id htmlContent root)
 (or_else (by_aria_label htmlContent root)
 (or_else (by_role_and_class htmlContent root)
 (or_else (by_role htmlContent root)
 (or_else (by_class htmlContent root)
          (by_text htmlContent root))))).

(** A [for] loop over recursive calls: it returns the first element
    found, raises with the first call that raises, and goes on after
    [null]; [None] when a call ran out of fuel. *)
Fixpoint first_result {A} (f : A -> option lookup) (l : list A)
  : option lookup :=
  match l with
  | [] => Some Null
  | x :: l' =>
      match f x with
      | None => None
      | Some (Hit e) => Some (Hit e)
      | Some Null => first_result f l'
      | Some SyntaxError => Some SyntaxError
      end
  end.

(** The inner [searchAllShadowRoots]. *)
Fixpoint searchAllShadowRoots (fuel : nat) (htmlContent : string) (n : node)
  : option lookup :=
  match fuel with
  | 0 => None
  | S fuel' =>
      let in_shadow :=
        match shadowRoot n with
        | Some sr =>
            match findByHtmlContent htmlContent sr with
            | Hit found => Some (Hit found)
            | Null =>
                first_result (searchAllShadowRoots fuel' htmlContent)
                             (descendants sr)
            | SyntaxError => Some SyntaxError
            end
        | None => Some Null
        end in
      match in_shadow with
      | None => None
      | Some (Hit e) => Some (Hit e)
      | Some Null =>
          first_result (searchAllShadowRoots fuel' htmlContent)
                       (children (childNodes n))
      | Some SyntaxError => Some SyntaxError
      end
  end.

(** [findByHtmlContentInAllShadowRoots] *)
Definition findByHtmlContentInAllShadowRoots (fuel : nat)
           (htmlContent : string) (root : node) : option lookup :=
  match findByHtmlContent htmlContent (childNodes root) with
  | Hit mainDocElement => Some (Hit mainDocElement)
  | Null => searchAllShadowRoots fuel htmlContent root
  | SyntaxError => Some SyntaxError
  end.

(** The inner [searchInShadow] of [findElementInShadowDOM]. *)
Fixpoint searchInShadow (fuel : nat) (selector : string) (n : node)
  : option lookup :=
  match fuel with
  | 0 => None
  | S fuel' =>
      let in_shadow :=
        match shadowRoot n with
        | Some sr =>
            match querySelector sr selector with
            | Hit found => Some (Hit found)
            | Null =>
                first_result (searchInShadow fuel' selector) (descendants sr)
            | SyntaxError => Some SyntaxError
            end
        | None => Some Null
        end in
      match in_shadow with
      | None => None
      | Some (Hit e) => Some (Hit e)
      | Some Null =>
          first_result (searchInShadow fuel' selector)
                       (children (childNodes n))
      | Some SyntaxError => Some SyntaxError
      end
  end.

(** [findElementInShadowDOM(selector, htmlContent, rootElement)] *)
Definition findElementInShadowDOM (fuel : nat) (selector : string)
           (htmlContent : option string) (root : node) : option lookup :=
  let by_content :=
    match htmlContent with
    | Some (String c h) =>
        findByHtmlContentInAllShadowRoots fuel (String c h) root
    | _ => Some Null
    end in
  match by_content with
  | None => None
  | Some (Hit element) => Some (Hit element)
  | Some Null =>
      match querySelector (childNodes root) selector with
      | Hit element => Some (Hit element)
      | Null => searchInShadow fuel selector root
      | SyntaxError => Some SyntaxError
      end
  | Some SyntaxError => Some SyntaxError
  end.

(** The first call, in the order of the list, that does not return
    [null]: the element it found, or the error it raised. *)
Fixpoint first_outcome {A} (call : A -> lookup) (l : list A) : lookup :=
  match l with
  | [] => Null
  | x :: l' => or_else (call x) (first_outcome call l')
  end.

Definition lookups : list (string -> list node -> lookup) :=
  [by_id; by_aria_label; by_role_and_class; by_role; by_class; by_text].

(** The search order of the code: each boundary in turn, all lookups
    in priority order on it. *)
Definition locate_boundary_major (htmlContent : string) (root : node)
  : lookup :=
  first_outcome
    (fun scope => first_outcome (fun lookup => lookup htmlContent scope) lookups)
    (Locator.boundaries root).

End WithEngine.

End Raising.

(** ** The differ with a locator that may raise

    [logViolations] calls [findElementInShadowDOM] for every node, inside
    the [map] that builds the new value of [violations]; an error raised
    there leaves the function before anything is assigned. *)

Module RaisingDiffer.
Import Differ.

Inductive completion (A : Type) :=
| Returned (a : A)
| Raised.
Arguments Returned {A} a.
Arguments Raised {A}.

(** [l.map(f)] with a callback that may raise: the first error ends
    the loop. *)
Fixpoint map_raising {A B} (f : A -> completion B) (l : list A)
  : completion (list B) :=
  match l with
  | [] => Returned []
  | x :: l' =>
      match f x with
      | Raised => Raised
      | Returned y =>
          match map_raising f l' with
          | Raised => Raised
          | Returned ys => Returned (y :: ys)
          end
      end
  end.

(** [l.forEach(f)] with a callback that may raise. *)
Fixpoint forEach {A} (f : A -> completion unit) (l : list A) : completion unit :=
  match l with
  | [] => Returned tt
  | x :: l' =>
      match f x with
      | Raised => Raised
      | Returned _ => forEach f l'
      end
  end.

Section WithLocator.

Context {Element : Type}.

(** [findElementInShadowDOM] applied to the document as it is during
    one call of [logViolations]: the element or [null], or an error. *)
Variable findElementInShadowDOM
  : option string -> string -> completion (option Element).

Definition to_node (node : NodeResult) : completion (@LogNode Element) :=
  match findElementInShadowDOM (head (target node)) (html node) with
  | Raised => Raised
  | Returned element =>
      Returned {| ln_html := html node;
                  ln_target := target node;
                  ln_element := element |}
  end.

(** The object literal built for each violation. *)
Definition to_entry (violation : Result)
  : completion (@ViolationLogEntry Element) :=
  match map_raising to_node (nodes violation) with
  | Raised => Raised
  | Returned ns =>
      Returned {| e_id := id violation;
                  e_impact := impact_or_unknown (impact violation);
                  e_description := description violation;
                  e_help := help violation;
                  e_helpUrl := helpUrl violation;
                  e_nodes := ns |}
  end.

(** [logViolationDetails]: console output, with one call of the
    locator for every node. *)
Definition logViolationDetails (violation : Result) : completion unit :=
  forEach (fun node =>
             match findElementInShadowDOM (head (target node)) (html node) with
             | Raised => Raised
             | Returned _ => Returned tt
             end)
          (nodes violation).

(** [logViolations(results, isInitialScan)]: how the call ends and the
    variables it leaves.  [violations] is assigned when the [map]
    has returned, [previousViolations] by the last statement. *)
Definition logViolations (results : list Result) (isInitialScan : bool)
           (st : differ_state) : completion report * differ_state :=
  match map_raising to_entry results with
  | Raised => (Raised, st)
  | Returned violations' =>
      let st1 := {| violations := violations';
                    previousViolations := previousViolations st |} in
      let rep :=
        if isInitialScan || Nat.eqb (length (previousViolations st)) 0 then
          ReportAll results
        else
          let previousKeys :=
            map (fun v => createViolationKey (as_Result v))
                (previousViolations st) in
          let currentKeys := map createViolationKey results in
          let newViolations :=
            List.filter
              (fun v => negb (has_key previousKeys (createViolationKey v)))
              results in
          let resolvedViolations :=
            List.filter
              (fun v => negb (has_key currentKeys
                                      (createViolationKey (as_Result v))))
              (previousViolations st) in
          ReportUpdate newViolations resolvedViolations in
      match forEach logViolationDetails (added rep) with
      | Raised => (Raised, st1)
      | Returned _ =>
          (Returned rep,
           {| violations := violations'; previousViolations := violations' |})
      end
  end.


End WithLocator.


(** A locator that never raises. *)
Definition lift {Element : Type}
           (locate : option string -> string -> option Element)
  : option string -> string -> completion (option Element) :=
  fun selector html => Returned (locate selector html).

End RaisingDiffer.

(** ** The body of a page with the overlay *)

Module OverlayPage.
Import Overlay.

(** The children of the body are the application's, followed by the
    overlay the variable names, if any. *)
Definition own_overlay_last (ids : list string) (p : page) : Prop :=
  length ids <= fresh p /\
  match highlightedElement p with
  | Some h =>
      length ids <= h < fresh p /\
      exists st, body p = body (application_page ids)
                          ++ [mkChild h overlay_id st]
  | None => body p = body (application_page ids)
  end.

End OverlayPage.

(** ** The running flags of the scheduler *)

Module Flags.
Import Scheduler.

(** The instance whose [queuedRun] is past its import and not at its
    end: it waits for the readiness gate or for the scanner. *)
Definition scanning (st : state) : option nat :=
  match drains st with
  | [mkDrain t (Awaiting AtReadiness)] => Some (owner t)
  | [mkDrain t (Awaiting AtScanner)] => Some (owner t)
  | _ => None
  end.

Record flags_invariant (st : state) : Prop := mkFlags {
  fl_queue : isProcessingQueue st = false -> axeQueue st = [];
  fl_global : isAxeRunning st = true -> scanning st <> None;
  fl_local : forall i, isRunning (instances st i) = true <-> scanning st = Some i
}.

(** The scanner calls made for instance [i]. *)
Definition scans_of (i : nat) (tr : list event) : list event :=
  List.filter (fun e => match e with
                        | ScannerInvoked _ j _ => Nat.eqb j i
                        | _ => false
                        end) tr.

(** Nothing in the state belongs to instance [i]: no queued or started
    request, no timer, no handle, no scanner call. *)
Record inert (i : nat) (st : state) : Prop := mkInert {
  in_queue : Forall (fun t => owner t <> i) (axeQueue st);
  in_drains : Forall (fun d => owner (current d) <> i) (drains st);
  in_timers : Forall (fun tm => action tm <> RetryInitialScan i /\
                                action tm <> SetupWatchers i) (timers st);
  in_handles : i ∉ axeInstances st;
  in_flag : isRunning (instances st i) = false;
  in_initial : hasRunInitialScan (instances st i) = false;
  in_scans : scans_of i (log st) = []
}.

(** What a stretch of [queuedRun] of another instance leaves alone:
    the timers, the handle, the variables and the scanner calls of
    instance [i]. *)
Record keeps (i : nat) (st st' : state) : Prop := mkKeeps {
  k_timers :
    Forall (fun tm => action tm <> RetryInitialScan i /\
                      action tm <> SetupWatchers i) (timers st) ->
    Forall (fun tm => action tm <> RetryInitialScan i /\
                      action tm <> SetupWatchers i) (timers st');
  k_handles : i ∉ axeInstances st -> i ∉ axeInstances st';
  k_instance : instances st' i = instances st i;
  k_scans : scans_of i (log st') = scans_of i (log st)
}.

Definition careful {A} (i : nat) (c : M A) : Prop :=
  forall st, keeps i st (snd (c st)).

(** Nothing runs, nothing is queued, and the one armed timer is the
    retry of the initial scan of instance 0, which has not completed
    one. *)
Record retry_pending (st : state) : Prop := mkRetry {
  rp_flag : isProcessingQueue st = false;
  rp_queue : axeQueue st = [];
  rp_drains : drains st = [];
  rp_running : isAxeRunning st = false;
  rp_enabled : enabled (instances st 0) = true;
  rp_initial : hasRunInitialScan (instances st 0) = false;
  rp_timers : timers st = [mkTimer 1000 (RetryInitialScan 0)]
}.

End Flags.

(** ** Draining the queue *)

Module Progress.
Import Scheduler.

(** What the environment answers to a [queuedRun]: how its import
    settles and whether the target is there, what the readiness gate
    says, how the scanner's promise settles. *)
Record answers := mkAnswers {
  a_failure : option js_error;
  a_target : bool;
  a_ready : bool;
  a_scan : scan_outcome
}.

(** The step that is due when no further request arrives: the promise
    the first activation waits for settles, with the answers for its
    thunk; none when no activation exists. *)
Definition settle (env : nat -> answers) (st : state) : option label :=
  match drains st with
  | d :: _ =>
      let a := env (rid (current d)) in
      Some match at_point d with
           | Awaiting AtImport => ImportSettles 0 (a_failure a) (a_target a)
           | Awaiting AtReadiness => ReadinessSettles 0 (a_ready a)
           | Awaiting AtScanner => ScannerSettles 0 (a_scan a)
           | Fulfilled | Rejected _ => ThunkSettled 0
           end
  | [] => None
  end.

(** The steps that are due, one after the other, until no activation
    is left; [None] when [fuel] steps were not enough or a step that
    was due could not be made. *)
Fixpoint settle_all (env : nat -> answers) (fuel : nat) (st : state)
  : option state :=
  match fuel with
  | 0 => None
  | S fuel' =>
      match settle env st with
      | None => Some st
      | Some l =>
          match step l st with
          | Some st' => settle_all env fuel' st'
          | None => None
          end
      end
  end.

(** The steps an activation needs at most to get its thunk to its end
    and to go on. *)
Definition rank (d : drain) : nat :=
  match at_point d with
  | Awaiting AtImport => 4
  | Awaiting AtReadiness => 3
  | Awaiting AtScanner => 2
  | Fulfilled | Rejected _ => 1
  end.

Definition remaining (st : state) : nat :=
  match drains st with
  | d :: _ => rank d + 4 * length (axeQueue st)
  | [] => 0
  end.

End Progress.

(** ** Watchers: the debounce, the mutation observer, the listeners *)

Module Watchers.

(** The options of [useAccessibility] the watchers read. *)
Record options := mkOptions {
  watchForChanges : bool;
  watchInteractions : bool;
  debounceDelay : nat;
  initialScanDelay : nat
}.

(** The callbacks the composable hands to [setTimeout]: the one of
    [debouncedRunAxe], the one of [onMounted], and the one armed when an
    initial scan has completed. *)
Inductive timer_callback :=
| DebounceFire
| MountFire
| PostScanFire.

(** The callbacks it hands to [nextTick]: the one of the debounce
    timer and the one of the [watch] callback. *)
Inductive tick_callback :=
| TickRunAxe
| TickSwap.

(** A pending timer: its id, its delay and its callback. *)
Record timer := mkTimer {
  t_id : nat;
  t_delay : nat;
  t_callback : timer_callback
}.

(** A registered capture listener: the element it is on, the event
    type, and the identity of the listener function. *)
Record listener := mkListener {
  l_target : nat;
  l_type : string;
  l_id : nat
}.

Definition listener_eqb (a b : listener) : bool :=
  Nat.eqb (l_target a) (l_target b) && String.eqb (l_type a) (l_type b)
  && Nat.eqb (l_id a) (l_id b).

(** The closure variables [debounceTimeout], [mutationObserver] and
    [interactionListeners] (one removal function per listener), the
    element the [element] option gives now, and what the platform
    holds: pending timers, queued [nextTick] callbacks, connected
    observers with their targets, registered listeners.  [calls]
    records the calls of [runAxe] with their argument, most recent
    first. *)
Record state := mkState {
  target : option nat;
  debounceTimeout : option nat;
  mutationObserver : option nat;
  interactionListeners : list listener;
  pending : list timer;
  ticks : list tick_callback;
  observed : list (nat * nat);
  registry : list listener;
  next_id : nat;
  calls : list bool
}.

(** Ids of timers, observers and listeners are positive. *)
Definition init (e : option nat) : state :=
  {| target := e;
     debounceTimeout := None;
     mutationObserver := None;
     interactionListeners := [];
     pending := [];
     ticks := [];
     observed := [];
     registry := [];
     next_id := 1;
     calls := [] |}.

Definition set_target (e : option nat) (st : state) : state :=
  mkState e (debounceTimeout st) (mutationObserver st) (interactionListeners st)
          (pending st) (ticks st) (observed st) (registry st) (next_id st) (calls st).

Definition set_debounceTimeout (t : option nat) (st : state) : state :=
  mkState (target st) t (mutationObserver st) (interactionListeners st)
          (pending st) (ticks st) (observed st) (registry st) (next_id st) (calls st).

Definition set_pending (p : list timer) (st : state) : state :=
  mkState (target st) (debounceTimeout st) (mutationObserver st)
          (interactionListeners st) p (ticks st) (observed st) (registry st)
          (next_id st) (calls st).

Definition set_ticks (t : list tick_callback) (st : state) : state :=
  mkState (target st) (debounceTimeout st) (mutationObserver st)
          (interactionListeners st) (pending st) t (observed st) (registry st)
          (next_id st) (calls st).

Definition set_registry (r : list listener) (st : state) : state :=
  mkState (target st) (debounceTimeout st) (mutationObserver st)
          (interactionListeners st) (pending st) (ticks st) (observed st) r
          (next_id st) (calls st).

Definition set_interactionListeners (l : list listener) (st : state) : state :=
  mkState (target st) (debounceTimeout st) (mutationObserver st) l
          (pending st) (ticks st) (observed st) (registry st) (next_id st) (calls st).

(** [setTimeout(callback, ms)]: the timer gets a fresh id, which is
    returned. *)
Definition setTimeout (cb : timer_callback) (ms : nat) (st : state)
  : nat * state :=
  (next_id st,
   mkState (target st) (debounceTimeout st) (mutationObserver st)
           (interactionListeners st) (pending st ++ [mkTimer (next_id st) ms cb])
           (ticks st) (observed st) (registry st) (S (next_id st)) (calls st)).

(** [clearTimeout(id)]: nothing happens for a timer that has fired. *)
Definition clearTimeout (id : nat) (st : state) : state :=
  set_pending (List.filter (fun t => negb (Nat.eqb (t_id t) id)) (pending st)) st.

Definition nextTick (cb : tick_callback) (st : state) : state :=
  set_ticks (ticks st ++ [cb]) st.

(** A call of [runAxe]; what the call does is the scheduler's
    matter. *)
Definition runAxe (isInitialScan : bool) (st : state) : state :=
  mkState (target st) (debounceTimeout st) (mutationObserver st)
          (interactionListeners st) (pending st) (ticks st) (observed st)
          (registry st) (next_id st) (isInitialScan :: calls st).

Definition relevantEvents : list string :=
  ["click"; "focus"; "blur"; "change"; "input"; "keydown"].

(** The [events] of [setupInteractionListeners]. *)
Definition events : list string :=
  ["click"; "focus"; "blur"; "change"; "input"; "keydown"].

Definition relevantAttributes : list string :=
  ["aria-"; "role"; "tabindex"; "alt"; "title"; "disabled"; "hidden"; "class";
   "style"; "id"; "for"; "aria-hidden"; "aria-expanded"; "aria-selected";
   "aria-checked"].

(** The [attributeFilter] passed to [observe]. *)
Definition attributeFilter : list string :=
  ["aria-expanded"; "aria-hidden"; "aria-selected"; "aria-checked"; "role";
   "tabindex"; "alt"; "title"; "disabled"; "hidden"; "class"].

(** A [MutationRecord]: its type, with the attribute name for an
    attribute change, and the lengths of [addedNodes] and
    [removedNodes]. *)
Inductive record_type :=
| Attributes (attributeName : option string)
| ChildList
| CharacterData.

Record mutation := mkMutation {
  m_type : record_type;
  addedNodes : nat;
  removedNodes : nat
}.

(** One round of the [forEach] of the observer callback: whether this
    record sets [shouldRerun]. *)
Definition sets_shouldRerun (m : mutation) : bool :=
  (Nat.ltb 0 (addedNodes m) || Nat.ltb 0 (removedNodes m))
  || match m_type m with
     | Attributes (Some attrName) =>
         Nat.ltb 0 (String.length attrName)
         && existsb (fun attr => String.prefix attr attrName
                                 || String.eqb attrName attr)
                    relevantAttributes
     | _ => false
     end.

Definition shouldRerun (mutations : list mutation) : bool :=
  existsb sets_shouldRerun mutations.

(** The records an observer gets that was connected with
    [childList: true, subtree: true, attributes: true] and the
    [attributeFilter]: child list changes, which add or remove a node,
    and changes of an attribute on the filter. *)
Definition delivered (m : mutation) : bool :=
  match m_type m with
  | ChildList => Nat.ltb 0 (addedNodes m) || Nat.ltb 0 (removedNodes m)
  | Attributes (Some name) =>
      existsb (String.eqb name) attributeFilter
      && Nat.eqb (addedNodes m) 0 && Nat.eqb (removedNodes m) 0
  | _ => false
  end.

Section WithOptions.

Variable o : options.

(** [debouncedRunAxe] *)
Definition debouncedRunAxe (st : state) : state :=
  let st1 :=
    match debounceTimeout st with
    | Some id => if Nat.ltb 0 id then clearTimeout id st else st
    | None => st
    end in
  let (id, st2) := setTimeout DebounceFire (debounceDelay o) st1 in
  set_debounceTimeout (Some id) st2.

(** [handleUserInteraction(event)], on [event.type]. *)
Definition handleUserInteraction (type : string) (st : state) : state :=
  if existsb (String.eqb type) relevantEvents then debouncedRunAxe st else st.

(** The callback of the [MutationObserver]. *)
Definition observer_callback (mutations : list mutation) (st : state) : state :=
  if shouldRerun mutations then debouncedRunAxe st else st.

(** [setupMutationObserver] *)
Definition setupMutationObserver (st : state) : state :=
  if negb (watchForChanges o)
     || match mutationObserver st with Some _ => true | None => false end
  then st
  else
    match target st with
    | None => st
    | Some targetElement =>
        mkState (target st) (debounceTimeout st) (Some (next_id st))
                (interactionListeners st) (pending st) (ticks st)
                (observed st ++ [(next_id st, targetElement)]) (registry st)
                (S (next_id st)) (calls st)
    end.

(** One round of the [forEach] of [setupInteractionListeners]: a new
    listener function is added to the element and its removal is
    pushed. *)
Definition add_listener (targetElement : nat) (st : state) (eventType : string)
  : state :=
  let l := mkListener targetElement eventType (next_id st) in
  mkState (target st) (debounceTimeout st) (mutationObserver st)
          (interactionListeners st ++ [l]) (pending st) (ticks st)
          (observed st) (registry st ++ [l]) (S (next_id st)) (calls st).

(** [setupInteractionListeners] *)
Definition setupInteractionListeners (st : state) : state :=
  if negb (watchInteractions o) then st
  else
    match target st with
    | None => st
    | Some targetElement => fold_left (add_listener targetElement) events st
    end.

(** [targetElement.removeEventListener(eventType, listener,
    { capture: true })] *)
Definition removeEventListener (l : listener) (st : state) : state :=
  set_registry (List.filter (fun x => negb (listener_eqb x l)) (registry st)) st.

(** [cleanup], as far as the watchers go. *)
Definition cleanup (st : state) : state :=
  let st1 :=
    match mutationObserver st with
    | Some id =>
        mkState (target st) (debounceTimeout st) None
                (interactionListeners st) (pending st) (ticks st)
                (List.filter (fun p => negb (Nat.eqb (fst p) id)) (observed st))
                (registry st) (next_id st) (calls st)
    | None => st
    end in
  let st2 :=
    fold_left (fun s removeListener => removeEventListener removeListener s)
              (interactionListeners st1) st1 in
  set_interactionListeners [] st2.

(** What happens to the instance. *)
Inductive label :=
| Mounted
| Unmounted
| InitialScanCompleted
| TimerFires (id : nat)
| Tick
| Dispatch (element : nat) (type : string)
| Mutations (observer : nat) (records : list mutation)
| ElementChanges (newElement : option nat).

Definition option_nat_eqb (a b : option nat) : bool :=
  match a, b with
  | Some x, Some y => Nat.eqb x y
  | None, None => true
  | _, _ => false
  end.

(** The callback of a timer. *)
Definition fire (cb : timer_callback) (st : state) : state :=
  match cb with
  | DebounceFire => nextTick TickRunAxe st
  | MountFire =>
      setupInteractionListeners (setupMutationObserver (runAxe true st))
  | PostScanFire => setupInteractionListeners (setupMutationObserver st)
  end.

(** The callback of a [nextTick]. *)
Definition tick (cb : tick_callback) (st : state) : state :=
  match cb with
  | TickRunAxe => runAxe false st
  | TickSwap =>
      runAxe false (setupInteractionListeners (setupMutationObserver st))
  end.

(** The listeners an event of [type] that reaches [element] calls. *)
Definition listening (element : nat) (type : string) (st : state)
  : list listener :=
  List.filter (fun l => Nat.eqb (l_target l) element && String.eqb (l_type l) type)
              (registry st).

Definition step (l : label) (st : state) : option state :=
  match l with
  | Mounted => Some (snd (setTimeout MountFire (initialScanDelay o) st))
  | Unmounted => Some (cleanup st)
  | InitialScanCompleted => Some (snd (setTimeout PostScanFire 500 st))
  | TimerFires id =>
      match List.find (fun t => Nat.eqb (t_id t) id) (pending st) with
      | Some t => Some (fire (t_callback t) (clearTimeout id st))
      | None => None
      end
  | Tick =>
      match ticks st with
      | cb :: rest => Some (tick cb (set_ticks rest st))
      | [] => None
      end
  | Dispatch element type =>
      Some (fold_left (fun s _ => handleUserInteraction type s)
                      (listening element type st) st)
  | Mutations observer records =>
      if existsb (fun p => Nat.eqb (fst p) observer) (observed st)
         && Nat.ltb 0 (length records) && forallb delivered records
      then Some (observer_callback records st)
      else None
  | ElementChanges newElement =>
      let oldElement := target st in
      let st1 := set_target newElement st in
      if option_nat_eqb newElement oldElement then Some st1
      else Some (nextTick TickSwap (cleanup st1))
  end.

Fixpoint run (ls : list label) (st : state) : option state :=
  match ls with
  | [] => Some st
  | l :: ls' =>
      match step l st with
      | Some st' => run ls' st'
      | None => None
      end
  end.

Inductive reachable (e : option nat) : state -> Prop :=
| reachable_init : reachable e (init e)
| reachable_step l st st' :
    reachable e st -> step l st = Some st' -> reachable e st'.

(** The pending timers of the debounce. *)
Definition debounce_pending (st : state) : list timer :=
  List.filter (fun t => match t_callback t with
                        | DebounceFire => true
                        | _ => false
                        end) (pending st).

(** The bookkeeping of the watchers: ids are positive and fresh, the
    pending timers have different ids, the registered listeners are
    those whose removal is kept, the connected observer is the one the
    variable names, and the pending debounce timer, if any, is the one
    [debounceTimeout] names. *)
Record invariant (st : state) : Prop := mkInvariant {
  inv_positive : 0 < next_id st;
  inv_fresh : Forall (fun t => t_id t < next_id st) (pending st);
  inv_nodup : List.NoDup (map t_id (pending st));
  inv_timeout : forall id, debounceTimeout st = Some id -> 0 < id < next_id st;
  inv_listeners : registry st = interactionListeners st;
  inv_observer :
    match mutationObserver st with
    | Some id => exists e, observed st = [(id, e)]
    | None => observed st = []
    end;
  inv_debounce :
    debounce_pending st = [] \/
    exists id, debounce_pending st = [mkTimer id (debounceDelay o) DebounceFire] /\
               debounceTimeout st = Some id
}.

(** The element and the event type of a listener. *)
Definition where_and_what (l : listener) : nat * string :=
  (l_target l, l_type l).

(** The listeners of one run of [setupInteractionListeners] on
    [element]: one per event type. *)
Definition one_per_event (element : nat) : list (nat * string) :=
  map (fun eventType => (element, eventType)) events.

Definition attribute_change (name : string) : mutation :=
  mkMutation (Attributes (Some name)) 0 0.

End WithOptions.

End Watchers.

(** ** More worked inputs *)

Module Ex2.

(** Markup whose [data-id] attribute comes before its [id]. *)
Definition before_data_id : string :=
  "<div class=" +:+ Locator.q +:+ "card" +:+ Locator.q +:+ " data-".

Definition data_id_html : string :=
  before_data_id +:+ Sub.opening "id" +:+ "row-7" +:+
  String Js.dquote (" id=" +:+ Locator.q +:+ "main" +:+ Locator.q +:+ ">").

(** Instance 1 is enabled, instance 0 is not; both are asked to scan
    and the scan that was started is under way. *)
Definition only_second : nat -> bool := fun i => Nat.eqb i 1.

Definition disabled_and_enabled : list Scheduler.label :=
  [Scheduler.CallRunAxe 0 true;
   Scheduler.CallRunAxe 1 false;
   Scheduler.ImportSettles 0 None true].

(** An initial scan of instance 0 from its import to its end, with a
    scanner that reports that it is busy. *)
Definition busy_scan : list Scheduler.label :=
  [Scheduler.ImportSettles 0 None true;
   Scheduler.ReadinessSettles 0 true;
   Scheduler.ScannerSettles 0 (Scheduler.ScanRejected Ex.busy_error);
   Scheduler.ThunkSettled 0].

(** The retry timer fires and the scanner is busy again, [n] times. *)
Fixpoint busy_retries (n : nat) : list Scheduler.label :=
  match n with
  | 0 => []
  | S n' => (Scheduler.TimerFires 0 :: busy_scan) ++ busy_retries n'
  end.

(** Every import succeeds, every target is there and ready, every
    scan resolves and is logged. *)
Definition all_well : nat -> Progress.answers :=
  fun _ => Progress.mkAnswers None true true (Scheduler.ScanResolved None).

(** The small engine made strict: a selector it cannot read, or one
    with an id or a class name that is empty or starts with a digit, is
    an error. *)
Definition starts_badly (name : string) : bool :=
  match name with
  | String c _ =>
      let n := nat_of_ascii c in Nat.leb 48 n && Nat.leb n 57
  | EmptyString => true
  end.

Definition valid (s : Engine.simple_selector) : bool :=
  match s with
  | Engine.ById i => negb (starts_badly i)
  | Engine.ByAttribute _ _ classes => forallb (fun c => negb (starts_badly c)) classes
  | Engine.ByClasses classes => forallb (fun c => negb (starts_badly c)) classes
  end.

Definition strict_querySelector (scope : list Dom.node) (sel : string)
  : Raising.lookup :=
  match Engine.parse sel with
  | Some s =>
      if valid s
      then Raising.of_option (List.find (Engine.matches s) (Dom.descendants scope))
      else Raising.SyntaxError
  | None => Raising.SyntaxError
  end.

(** Markup with an id that is no CSS identifier, and with the role of
    the [span] of the worked page. *)
Definition digit_id_html : string :=
  "<div id=" +:+ Locator.q +:+ "1abc" +:+ Locator.q +:+
  " role=" +:+ Locator.q +:+ "button" +:+ Locator.q +:+ ">Save</div>".

(** A violation on that markup, and a locator that raises for it. *)
Definition viol_digit : Differ.Result :=
  Differ.mkResult "aria-roles" (Differ.ImpStr "serious") "d" "help" "url"
                  [Differ.mkNodeResult digit_id_html ["#save"]].

(** A violation on the markup of the [div] with the id [save]. *)
Definition viol_save : Differ.Result :=
  Differ.mkResult "button-name" (Differ.ImpStr "critical") "d" "help" "url"
                  [Differ.mkNodeResult Ex.div_save_html ["#save"]].

Definition strict_locator
  : option string -> string -> RaisingDiffer.completion (option Dom.node) :=
  fun selector html =>
    match Raising.findElementInShadowDOM strict_querySelector
            (S (Dom.height Ex.page_body))
            (match selector with Some s => s | None => "undefined" end)
            (Some html) Ex.page_body with
    | Some (Raising.Hit e) => RaisingDiffer.Returned (Some e)
    | Some Raising.Null => RaisingDiffer.Returned None
    | _ => RaisingDiffer.Raised
    end.

Definition all_watchers : Watchers.options :=
  Watchers.mkOptions true true 1000 3000.

(** The component is mounted on element 7 and its mount timer fires;
    then the initial scan completes. *)
Definition mounted_and_scanned : list Watchers.label :=
  [Watchers.Mounted; Watchers.TimerFires 1; Watchers.InitialScanCompleted].

Definition mounted_only : list Watchers.label :=
  [Watchers.Mounted; Watchers.TimerFires 1].

End Ex2.

(** * Facts *)

(** ** Strings *)

Lemma length_append (a b : string) :
  String.length (a +:+ b) = String.length a + String.length b.
Proof. induction a as [|c a IH]; simpl; [reflexivity | now rewrite IH]. Qed.




Lemma length_join_repeat (sep s : string) (n : nat) :
  n * String.length s <= String.length (Js.join sep (repeat s n)).
Proof.
  unfold Js.join. induction n as [|n IH]; simpl; [lia|].
  destruct n as [|n]; [simpl; lia|].
  change (repeat s (S n)) with (s :: repeat s n) in *.
  cbv iota. rewrite !length_append. lia.
Qed.

(** ** The violation key and the differ *)

Section DifferFacts.
Import Differ.
Context {Element : Type}.
Variable locate : option string -> string -> option Element.



(** A key is read off the rule id, the impact and the truncated target
    paths alone. *)
Lemma createViolationKey_ext (v w : Result) :
  id v = id w -> impact v = impact w ->
  map target_segment (nodes v) = map target_segment (nodes w) ->
  createViolationKey v = createViolationKey w.
Proof.
  intros Hi Hm Ht. unfold createViolationKey, target_component.
  now rewrite Hi, Hm, Ht.
Qed.

Lemma segments_as_Result_to_entry (v : Result) :
  map target_segment (nodes (as_Result (to_entry locate v)))
  = map target_segment (nodes v).
Proof.
  simpl. rewrite !map_map. apply map_ext. intros [h t]. reflexivity.
Qed.

(** The stored entry of a violation whose impact is present has the
    key of the violation. *)
Lemma key_as_Result_to_entry (v : Result) :
  impact_present v = true ->
  createViolationKey (as_Result (to_entry locate v)) = createViolationKey v.
Proof.
  intros Hp. apply createViolationKey_ext.
  - reflexivity.
  - unfold impact_present in Hp. simpl.
    destruct (impact v) as [| |[|c s]]; try discriminate. reflexivity.
  - apply segments_as_Result_to_entry.
Qed.


Lemma filter_none {A} (f : A -> bool) (l : list A) :
  (forall x, In x l -> f x = false) -> List.filter f l = [].
Proof.
  induction l as [|a l IH]; simpl; intros H; [reflexivity|].
  rewrite (H a) by now left. apply IH. intros x Hx. apply H. now right.
Qed.

Lemma previous_after (results : list Result) (b : bool) (st : differ_state) :
  previousViolations (fst (logViolations locate results b st))
  = map (to_entry locate) results.
Proof. reflexivity. Qed.

Lemma violations_after (results : list Result) (b : bool) (st : differ_state) :
  violations (fst (logViolations locate results b st))
  = map (to_entry locate) results.
Proof. reflexivity. Qed.

(** The second branch of [logViolations]. *)
Lemma logViolations_update (results : list Result) (st : differ_state) :
  previousViolations st <> [] ->
  snd (logViolations locate results false st)
  = ReportUpdate
      (List.filter
         (fun v => negb (has_key (map (fun p => createViolationKey (as_Result p))
                                      (previousViolations st))
                                 (createViolationKey v))) results)
      (List.filter
         (fun p => negb (has_key (map createViolationKey results)
                                 (createViolationKey (as_Result p))))
         (previousViolations st)).
Proof.
  intros Hne. unfold logViolations. simpl.
  destruct (previousViolations st); [congruence | reflexivity].
Qed.


End DifferFacts.

Section DifferClaims.
Import Differ.
Context {Element : Type}.
Variable locate : option string -> string -> option Element.

(** Scan A finds X and Y, scan B finds Y and Z, in any order; the keys
    are distinct and every impact is present: Z is new, X is resolved. *)
Lemma diff_two_scans (X Y Z : Result) (la lb : list Result) (st : differ_state) :
  impact_present X = true -> impact_present Y = true -> impact_present Z = true ->
  createViolationKey X <> createViolationKey Y ->
  createViolationKey Y <> createViolationKey Z ->
  createViolationKey X <> createViolationKey Z ->
  Permutation [X; Y] la -> Permutation [Y; Z] lb ->
  previousViolations st = map (to_entry locate) la ->
  let r := snd (logViolations locate lb false st) in
  added r = [Z] /\ removed r = [to_entry locate X].
Proof.
  intros HX HY HZ Hxy Hyz Hxz Ha Hb Hprev r. subst r.
  rewrite logViolations_update by
    (rewrite Hprev; apply Permutation_length in Ha; destruct la; [discriminate | simpl; congruence]).
  rewrite Hprev. simpl. rewrite map_map.
  assert (Ek : forall l, map (fun x => createViolationKey (as_Result (to_entry locate x))) l
                     = map (fun x => createViolationKey (as_Result (to_entry locate x))) l) by reflexivity.
  apply Permutation_length_2_inv in Ha, Hb.
  assert (Hyx : createViolationKey Y <> createViolationKey X) by congruence.
  assert (Hzy : createViolationKey Z <> createViolationKey Y) by congruence.
  assert (Hzx : createViolationKey Z <> createViolationKey X) by congruence.
  apply String.eqb_neq in Hxy, Hyz, Hxz, Hyx, Hzy, Hzx.
  destruct Ha as [-> | ->], Hb as [-> | ->]; unfold has_key; simpl;
    rewrite !(key_as_Result_to_entry locate) by assumption;
    rewrite ?String.eqb_refl, ?Hxy, ?Hyz, ?Hxz, ?Hyx, ?Hzy, ?Hzx; simpl;
    split; reflexivity.
Qed.


End DifferClaims.



(** The target component grows with the number of nodes: no length bounds
    it. *)
Lemma target_component_unbounded (B : nat) :
  exists v : Differ.Result, B < String.length (Differ.target_component v).
Proof.
  exists (Differ.mkResult "r" (Differ.ImpStr "minor") "" "" ""
            (repeat (Differ.mkNodeResult "" ["a"]) (S B))).
  unfold Differ.target_component. cbn [Differ.nodes].
  assert (E : forall n, map Differ.target_segment (repeat (Differ.mkNodeResult "" ["a"]) n)
                        = repeat "a" n).
  { intros n. induction n as [|n IH]; simpl; [reflexivity | now rewrite <- IH]. }
  rewrite E. pose proof (length_join_repeat "|" "a" (S B)) as H.
  change (String.length "a") with 1 in H. lia.
Qed.


(** C3 (the code at the failing input).  Scan A finds X and Y, scan B
    finds Y and Z, the three keys are distinct, and Y has no impact: the
    stored Y carries the impact [unknown], its key differs from the key of
    the Y of scan B, and Y is reported both as new and as resolved. *)
Theorem logViolations_missing_impact_breaks_diff :
  let scanA := Differ.logViolations Ex.no_locator [Ex.viol_X; Ex.viol_Y] false Differ.differ_init in
  let scanB := Differ.logViolations Ex.no_locator [Ex.viol_Y; Ex.viol_Z] false (fst scanA) in
  NoDup (map Differ.createViolationKey [Ex.viol_X; Ex.viol_Y; Ex.viol_Z]) /\
  Differ.added (snd scanB) = [Ex.viol_Y; Ex.viol_Z] /\
  Differ.removed (snd scanB)
  = [Differ.to_entry Ex.no_locator Ex.viol_X; Differ.to_entry Ex.no_locator Ex.viol_Y].
Proof.
  split; [|split; reflexivity].
  apply NoDup_ListNoDup. repeat constructor; simpl; intros H;
    repeat destruct H as [H|H]; try discriminate H; exact H.
Qed.

(** With every impact present the diff of the two scans is the expected
    one, in whatever order the scans list the violations. *)
Lemma diff_two_scans_example :
  let scanA := Differ.logViolations Ex.no_locator [Ex.viol_X; Ex.viol_Y_serious] false Differ.differ_init in
  let scanB := Differ.logViolations Ex.no_locator [Ex.viol_Z; Ex.viol_Y_serious] false (fst scanA) in
  Differ.added (snd scanB) = [Ex.viol_Z] /\
  Differ.removed (snd scanB) = [Differ.to_entry Ex.no_locator Ex.viol_X].
Proof.
  apply (diff_two_scans Ex.no_locator Ex.viol_X Ex.viol_Y_serious Ex.viol_Z
                         [Ex.viol_X; Ex.viol_Y_serious] [Ex.viol_Z; Ex.viol_Y_serious]);
    try reflexivity; try discriminate.
  apply perm_swap.
Defined.

(** ** The document tree *)

Section DomFacts.
Import Dom.

(** Induction on a node, with the property for every node of its shadow
    tree and for every child. *)
Lemma node_induction (P : node -> Prop) :
  (forall t a sr cs,
      match sr with Some l => List.Forall P l | None => True end ->
      List.Forall P cs -> P (Element t a sr cs)) ->
  (forall d, P (Text d)) ->
  forall n, P n.
Proof.
  intros HE HT. fix IH 1. intros [t a sr cs | d]; [|apply HT].
  apply HE.
  - destruct sr as [l|]; [|exact I].
    induction l as [|x l IHl]; constructor; [apply IH | exact IHl].
  - induction cs as [|x l IHl]; constructor; [apply IH | exact IHl].
Qed.

Lemma list_max_ge (l : list nat) (x : nat) : In x l -> x <= list_max l.
Proof.
  induction l as [|y l IH]; simpl; [tauto|]. intros [-> | H]; [lia|].
  specialize (IH H). lia.
Qed.

Lemma subtree_height (n d : node) : In d (subtree n) -> height d <= height n.
Proof.
  revert d. induction n as [t a sr cs _ Hcs | s] using node_induction;
    intros d; simpl; [|tauto].
  intros [<- | Hin]; [simpl; lia|].
  apply in_flat_map in Hin as (c & Hc & Hd).
  rewrite List.Forall_forall in Hcs. specialize (Hcs c Hc d Hd).
  pose proof (list_max_ge (map height cs) (height c) (in_map height cs c Hc)).
  lia.
Qed.

Lemma descendants_height (scope : list node) (d : node) :
  In d (descendants scope) -> height d <= list_max (map height scope).
Proof.
  unfold descendants. intros Hin.
  apply in_flat_map in Hin as (c & Hc & Hd).
  apply subtree_height in Hd.
  pose proof (list_max_ge (map height scope) (height c) (in_map height scope c Hc)).
  lia.
Qed.

Lemma children_height (cs : list node) (c : node) :
  In c (children cs) -> height c <= list_max (map height cs).
Proof.
  unfold children. intros Hin. apply filter_In in Hin as [Hc _].
  apply list_max_ge. now apply in_map.
Qed.

Lemma shadow_descendant_lower (n : node) (sr : list node) (d : node) :
  shadowRoot n = Some sr -> In d (descendants sr) -> height d < height n.
Proof.
  destruct n as [t a s cs | s]; simpl; [|discriminate].
  intros -> Hd. apply descendants_height in Hd. lia.
Qed.

Lemma child_lower (n c : node) :
  In c (children (childNodes n)) -> height c < height n.
Proof.
  destruct n as [t a s cs | s]; simpl; [|tauto].
  intros Hc. apply children_height in Hc. lia.
Qed.

End DomFacts.

(** ** The locator *)

Section LocatorFacts.
Import Dom Locator.
Variable querySelector : list node -> string -> option node.

Local Abbreviation findByHtmlContent := (findByHtmlContent querySelector).
Local Abbreviation searchAllShadowRoots := (searchAllShadowRoots querySelector).

Lemma or_else_None {A} (x : option A) : or_else x None = x.
Proof. now destruct x. Qed.

Lemma first_hit_app {A} (f : A -> option node) (l1 l2 : list A) :
  first_hit f (l1 ++ l2) = or_else (first_hit f l1) (first_hit f l2).
Proof.
  induction l1 as [|x l1 IH]; simpl; [reflexivity|].
  rewrite IH. now destruct (f x).
Qed.

(** One root: the six lookups in the order of the source. *)
Lemma findByHtmlContent_priority (htmlContent : string) (root : list node) :
  findByHtmlContent htmlContent root
  = first_hit (fun lookup => lookup htmlContent root) (lookups querySelector).
Proof.
  unfold Locator.findByHtmlContent, lookups. simpl.
  now rewrite or_else_None.
Qed.

Lemma first_result_visited (g : node -> option (option node))
      (h : list node -> option node) (vis : node -> list (list node))
      (l : list node) :
  (forall x, In x l -> g x = Some (first_hit h (vis x))) ->
  first_result g l = Some (first_hit h (flat_map vis l)).
Proof.
  induction l as [|x l IH]; intros Hg; simpl; [reflexivity|].
  rewrite (Hg x) by now left. rewrite first_hit_app.
  destruct (first_hit h (vis x)); simpl; [reflexivity|].
  apply IH. intros y Hy. apply Hg. now right.
Qed.

(** With fuel above the height of the node, the search is the first
    hit of [findByHtmlContent] over the roots it visits. *)
Lemma searchAllShadowRoots_visited (htmlContent : string) (fuel : nat) :
  forall n : node,
    height n < fuel ->
    searchAllShadowRoots fuel htmlContent n
    = Some (first_hit (findByHtmlContent htmlContent)
                      (visited fuel n)).
Proof.
  induction fuel as [|fuel IH]; intros n Hn; [lia|].
  cbn [Locator.searchAllShadowRoots visited].
  assert (Hkids : first_result (searchAllShadowRoots fuel htmlContent)
                               (children (childNodes n))
                  = Some (first_hit (findByHtmlContent htmlContent)
                            (flat_map (visited fuel)
                                      (children (childNodes n))))).
  { apply first_result_visited. intros c Hc. apply IH.
    apply child_lower in Hc. lia. }
  rewrite first_hit_app.
  destruct (shadowRoot n) as [sr|] eqn:Hsr; simpl.
  - destruct (findByHtmlContent htmlContent sr) as [e|]; simpl; [reflexivity|].
    rewrite (first_result_visited _ (findByHtmlContent htmlContent)
                                  (visited fuel)).
    + destruct (first_hit _ (flat_map _ (descendants sr))); simpl;
        [reflexivity | exact Hkids].
    + intros d Hd. apply IH.
      pose proof (shadow_descendant_lower n sr d Hsr Hd). lia.
  - exact Hkids.
Qed.

Lemma searchInShadow_visited (selector : string) (fuel : nat) :
  forall n : node,
    height n < fuel ->
    searchInShadow querySelector fuel selector n
    = Some (first_hit (fun sr => querySelector sr selector) (visited fuel n)).
Proof.
  induction fuel as [|fuel IH]; intros n Hn; [lia|].
  cbn [Locator.searchInShadow visited].
  assert (Hkids : first_result (searchInShadow querySelector fuel selector)
                               (children (childNodes n))
                  = Some (first_hit (fun sr => querySelector sr selector)
                            (flat_map (visited fuel)
                                      (children (childNodes n))))).
  { apply first_result_visited. intros c Hc. apply IH.
    apply child_lower in Hc. lia. }
  rewrite first_hit_app.
  destruct (shadowRoot n) as [sr|] eqn:Hsr; simpl.
  - destruct (querySelector sr selector) as [e|]; simpl; [reflexivity|].
    rewrite (first_result_visited _ (fun sr => querySelector sr selector)
                                  (visited fuel)).
    + destruct (first_hit _ (flat_map _ (descendants sr))); simpl;
        [reflexivity | exact Hkids].
    + intros d Hd. apply IH.
      pose proof (shadow_descendant_lower n sr d Hsr Hd). lia.
  - exact Hkids.
Qed.

(** With fuel above the height of the root the locator returns. *)
Lemma findElementInShadowDOM_total (fuel : nat) (selector : string)
      (htmlContent : option string) (root : node) :
  height root < fuel ->
  exists r, findElementInShadowDOM querySelector fuel selector htmlContent root
            = Some r.
Proof.
  intros Hf. unfold findElementInShadowDOM, findByHtmlContentInAllShadowRoots.
  rewrite searchInShadow_visited by assumption.
  destruct htmlContent as [[|c h]|].
  2: { destruct (findByHtmlContent (String c h) (childNodes root)) as [e|].
       - now eexists.
       - rewrite searchAllShadowRoots_visited by assumption.
         destruct (first_hit _ _); [now eexists|].
         destruct (querySelector (childNodes root) selector); now eexists. }
  all: destruct (querySelector (childNodes root) selector); now eexists.
Qed.

Lemma flat_map_ext_In {A B} (f g : A -> list B) (l : list A) :
  (forall x, In x l -> f x = g x) -> flat_map f l = flat_map g l.
Proof.
  induction l as [|x l IH]; intros H; simpl; [reflexivity|].
  rewrite (H x) by now left. f_equal. apply IH. intros y Hy. apply H. now right.
Qed.

Lemma visited_fuel (f1 : nat) :
  forall (f2 : nat) (n : node),
    height n < f1 -> height n < f2 -> visited f1 n = visited f2 n.
Proof.
  induction f1 as [|f1 IH]; intros [|f2] n H1 H2; try lia.
  cbn [visited]. f_equal.
  - destruct (shadowRoot n) as [sr|] eqn:Hsr; [|reflexivity].
    f_equal. apply flat_map_ext_In. intros d Hd.
    pose proof (shadow_descendant_lower n sr d Hsr Hd). apply IH; lia.
  - apply flat_map_ext_In. intros c Hc.
    pose proof (child_lower n c Hc). apply IH; lia.
Qed.

(** Enough fuel: the search returns, and what it returns does not depend
    on the fuel. *)
Lemma searchAllShadowRoots_total (htmlContent : string) (fuel : nat) (n : node) :
  height n < fuel ->
  searchAllShadowRoots fuel htmlContent n
  = searchAllShadowRoots (S (height n)) htmlContent n
  /\ searchAllShadowRoots fuel htmlContent n <> None.
Proof.
  intros H. rewrite !searchAllShadowRoots_visited by lia.
  rewrite (visited_fuel fuel (S (height n))) by lia. split; [reflexivity | discriminate].
Qed.

Lemma locate_boundary_major_eq (htmlContent : string) (root : node) :
  locate_boundary_major querySelector htmlContent root
  = first_hit (findByHtmlContent htmlContent) (boundaries root).
Proof.
  unfold locate_boundary_major. generalize (boundaries root). intros l.
  induction l as [|x l IH]; cbn [first_hit]; [reflexivity|].
  now rewrite <- findByHtmlContent_priority, IH.
Qed.

Lemma by_text_gate (htmlContent : string) (root : list node) (e : node) :
  by_text htmlContent root = Some e ->
  exists m, Js.capture ">" "<" htmlContent = Some m /\
            3 < String.length (Js.trim m) /\
            In e (descendants root) /\
            Js.trim (textContent e) = Js.trim m.
Proof.
  unfold by_text. destruct (Js.capture ">" "<" htmlContent) as [m|]; [|discriminate].
  destruct (Nat.ltb 3 (String.length (Js.trim m))) eqn:Hlen; [|discriminate].
  intros Hf. apply find_some in Hf as [Hin Heq].
  exists m. repeat split; try assumption.
  - now apply Nat.ltb_lt.
  - now apply String.eqb_eq.
Qed.

End LocatorFacts.

(** C5 (counterexample).  The markup carries the id [save] and the role
    [button]; the light tree holds a [span] with that role, a shadow tree
    holds the [div] with that id.  Tried on every boundary before the role
    is considered, the id would find the [div]; the code tries id and role
    on the light tree first and returns the [span].  And an inner text of
    six characters, four of them blanks, is not looked up: the length
    that must exceed 3 is that of the trimmed text. *)
Lemma locator_prefers_root_over_priority :
  Locator.findByHtmlContentInAllShadowRoots Engine.querySelector 5
    Ex.div_save_html Ex.page_body = Some (Some Ex.span_button)
  /\ Locator.locate_lookup_major Engine.querySelector
       Ex.div_save_html Ex.page_body = Some Ex.div_save
  /\ option_map String.length (Js.capture ">" "<" Ex.b_padded_html) = Some 6
  /\ Locator.by_text Ex.b_padded_html [Ex.b_padded] = None.
Proof. repeat split; reflexivity. Qed.

(** The locator on the worked page: the markup of the [div] in the shadow
    tree resolves to the [span] of the light tree, whatever the
    selector. *)
Lemma resolve_example :
  Locator.resolve Engine.querySelector Ex.page_body (Some "#save") Ex.div_save_html
  = Some Ex.span_button.
Proof. reflexivity. Qed.

(** ** The readiness gate *)

Section GateFacts.
Import Dom Gate.



Section Polling.
Variable loggerPrefix : option string.
Variable targetAt : nat -> node.
Variable nowAt : nat -> Z.
Variables startTime maxWaitTime : Z.

Local Abbreviation checkContent := (checkContent loggerPrefix true targetAt nowAt).

(** The check at which [checkContent] settles is the first that
    decides: the number of timers armed counts the checks before
    it. *)
Lemma checkContent_first_decisive (fuel : nat) :
  forall (k : nat) (r : settled),
    checkContent fuel startTime maxWaitTime k = Some r ->
    (forall j, k <= j < k + length (armed r) ->
               hasContentReady true (targetAt j) = false /\
               (nowAt j - startTime < maxWaitTime)%Z) /\
    value r = hasContentReady true (targetAt (k + length (armed r))) /\
    (value r = false ->
     (maxWaitTime <= nowAt (k + length (armed r)) - startTime)%Z).
Proof.
  induction fuel as [|fuel IH]; intros k r; cbn [Gate.checkContent]; [discriminate|].
  destruct (hasContentReady true (targetAt k)) eqn:Hr.
  { intros [= <-]. cbn [armed value length]. rewrite Nat.add_0_r.
    split; [intros j Hj; lia|]. split; [now rewrite Hr | discriminate]. }
  destruct (maxWaitTime <=? nowAt k - startTime)%Z eqn:Hle.
  { intros [= <-]. cbn [armed value length]. rewrite Nat.add_0_r.
    split; [intros j Hj; lia|]. split; [now rewrite Hr|].
    intros _. now apply Z.leb_le. }
  destruct (checkContent fuel startTime maxWaitTime (S k))
    as [r'|] eqn:Hrec; [|discriminate].
  intros [= <-]. cbn [armed value length].
  destruct (IH (S k) r' Hrec) as (Hbefore & Hval & Hdead).
  replace (k + S (length (armed r'))) with (S k + length (armed r')) by lia.
  split; [|split; assumption].
  intros j Hj. destruct (Nat.eq_dec j k) as [-> | Hne].
  - split; [exact Hr | now apply Z.leb_gt].
  - apply Hbefore. lia.
Qed.

(** A timer of 100 ms does not fire before 100 ms have passed. *)
Hypothesis timer_waits : forall k, (nowAt k + pollInterval <= nowAt (S k))%Z.


End Polling.


End GateFacts.


(** The gate on the worked target: three timers, then [true]. *)
Lemma readiness_gate_example :
  Gate.waitForContentReadiness (Some "[App]") true Ex.targetAt Ex.nowAt 52 1000 5000
  = Some (Gate.mkSettled true [] [100; 100; 100]%Z).
Proof. reflexivity. Qed.

(** A target that never gets content: the gate arms 50 timers and
    gives up at the first check 5000 ms or more after the start, with the
    warning behind the logger prefix. *)
Lemma readiness_gate_timeout_example :
  Gate.waitForContentReadiness (Some "[App]") true (fun _ => Ex.loading) Ex.nowAt
    52 1000 5000
  = Some (Gate.mkSettled false
            ["[App]: Accessibility scan started without full content readiness (timeout reached)"]
            (repeat 100%Z 50)).
Proof. vm_compute. reflexivity. Qed.

(** ** The highlight overlay *)

Section OverlayFacts.
Import Overlay.

Lemma filter_filter_comm {A} (f g : A -> bool) (l : list A) :
  List.filter f (List.filter g l) = List.filter g (List.filter f l).
Proof.
  induction l as [|x l IH]; simpl; [reflexivity|].
  destruct (f x) eqn:Hf, (g x) eqn:Hg; simpl; rewrite ?Hf, ?Hg, IH; reflexivity.
Qed.

Lemma overlays_removeHighlight (p : page) :
  consistent p ->
  overlays (removeHighlight p) = [] /\ highlightedElement (removeHighlight p) = None.
Proof.
  unfold consistent, removeHighlight.
  destruct (highlightedElement p) as [h|] eqn:Hh.
  - intros (o & Ho & Hoh). split; [|reflexivity].
    unfold overlays in *. cbn [body]. rewrite filter_filter_comm, Ho.
    simpl. rewrite Hoh, Nat.eqb_refl. reflexivity.
  - intros Ho. now rewrite Hh.
Qed.

Lemma overlays_highlightElement (rect : DOMRect) (p : page) :
  consistent p ->
  overlays (highlightElement true rect p)
  = [mkChild (fresh p) overlay_id (Some (overlay_style rect))] /\
  highlightedElement (highlightElement true rect p) = Some (fresh p).
Proof.
  intros Hc. apply overlays_removeHighlight in Hc as [Ho Hn].
  unfold highlightElement. cbn [negb]. split.
  - unfold overlays in *. cbn [body]. rewrite List.filter_app, Ho. simpl.
    unfold removeHighlight. now destruct (highlightedElement p).
  - cbn. unfold removeHighlight. now destruct (highlightedElement p).
Qed.

Lemma consistent_perform (c : call) (p : page) :
  consistent p -> consistent (perform c p).
Proof.
  intros Hc. destruct c as [[|] rect|]; cbn [perform].
  - destruct (overlays_highlightElement rect p Hc) as [Ho Hh].
    unfold consistent. rewrite Hh, Ho. eexists. split; reflexivity.
  - exact Hc.
  - destruct (overlays_removeHighlight p Hc) as [Ho Hh].
    unfold consistent. now rewrite Hh, Ho.
Qed.

Lemma overlays_application_page (ids : list string) :
  overlays (application_page ids) = [].
Proof.
  unfold overlays, application_page. cbn [body].
  apply filter_none. intros c Hc.
  apply list_elem_of_In, elem_of_lookup_imap in Hc as (i & s & -> & Hs).
  apply list_elem_of_lookup_2, list_elem_of_In, filter_In in Hs as [_ Hs].
  cbn [child_id]. now apply negb_true_iff.
Qed.

Lemma reachable_consistent (p : page) : reachable p -> consistent p.
Proof.
  induction 1 as [ids | c p _ IH].
  - unfold consistent. cbn. apply overlays_application_page.
  - now apply consistent_perform.
Qed.

(** C10 (amended).  On every page the composable's calls lead to there
    is at most one overlay.  Two calls of [highlightElement] in a row,
    by instances with highlighting enabled, leave exactly one overlay: a
    new node, fixed at the bounding box of the second element, with
    pointer events off.  [removeHighlight] leaves no overlay and clears
    the variable, and changes nothing when the variable is empty; with
    highlighting disabled [highlightElement] changes nothing. *)
Theorem overlay_at_most_one (p : page) (rect1 rect2 : DOMRect) :
  reachable p ->
  length (overlays p) <= 1 /\
  (exists o,
      let p2 := highlightElement true rect2 (highlightElement true rect1 p) in
      overlays p2 = [o] /\
      highlightedElement p2 = Some (handle o) /\
      child_id o = overlay_id /\
      child_style o = Some (overlay_style rect2) /\
      position (overlay_style rect2) = "fixed" /\
      (s_top (overlay_style rect2), s_left (overlay_style rect2),
       s_width (overlay_style rect2), s_height (overlay_style rect2))
      = (top rect2, left rect2, width rect2, height rect2) /\
      pointer_events (overlay_style rect2) = "none") /\
  (overlays (removeHighlight p) = [] /\
   highlightedElement (removeHighlight p) = None) /\
  (highlightedElement p = None -> removeHighlight p = p) /\
  highlightElement false rect1 p = p.
Proof.
  intros Hr. pose proof (reachable_consistent p Hr) as Hc.
  split; [|split; [|split; [|split]]].
  - unfold consistent in Hc. destruct (highlightedElement p).
    + destruct Hc as (o & -> & _). simpl. lia.
    + rewrite Hc. simpl. lia.
  - assert (Hc1 : consistent (highlightElement true rect1 p))
      by apply (consistent_perform (Highlight true rect1) p Hc).
    destruct (overlays_highlightElement rect2 _ Hc1) as [Ho Hh].
    eexists. cbv zeta. split; [exact Ho|]. split; [exact Hh|].
    repeat split.
  - now apply overlays_removeHighlight.
  - intros Hn. unfold removeHighlight. now rewrite Hn.
  - reflexivity.
Qed.

End OverlayFacts.

(** C10 on a page with one application node, after one highlight. *)
Lemma overlay_at_most_one_witness :
  length (Overlay.overlays
            (Overlay.highlightElement true Ex.rect1
               (Overlay.application_page ["app"]))) <= 1.
Proof.
  apply (overlay_at_most_one _ Ex.rect1 Ex.rect2).
  apply (Overlay.reachable_perform (Overlay.Highlight true Ex.rect1)).
  apply Overlay.reachable_application.
Defined.

(** C10 (counterexample).  Two calls of [highlightElement] in a row by an
    instance created with [enableHighlighting: false] leave no overlay; and
    after a call by an instance with highlighting and a call by one
    without, the one overlay is at the bounding box of the first
    element. *)
Lemma highlight_twice_disabled_no_overlay :
  Overlay.overlays
    (Overlay.highlightElement false Ex.rect2
       (Overlay.highlightElement false Ex.rect1 (Overlay.application_page ["app"])))
  = [] /\
  map Overlay.child_style
      (Overlay.overlays
         (Overlay.highlightElement false Ex.rect2
            (Overlay.highlightElement true Ex.rect1 (Overlay.application_page ["app"]))))
  = [Some (Overlay.overlay_style Ex.rect1)].
Proof. split; reflexivity. Qed.

(** ** The scheduler *)

Section SchedulerFacts.
Import Scheduler.

(** *** Frames *)

Lemma frame_refl (st : state) : frame st st.
Proof.
  constructor; try reflexivity; auto.
  exists []. split; [reflexivity | constructor].
Qed.

Lemma frame_trans (st1 st2 st3 : state) :
  frame st1 st2 -> frame st2 st3 -> frame st1 st3.
Proof.
  intros [d1 q1 f1 n1 (e1 & l1 & Q1) h1 en1 in1] [d2 q2 f2 n2 (e2 & l2 & Q2) h2 en2 in2].
  constructor.
  - congruence.
  - congruence.
  - congruence.
  - congruence.
  - exists (e2 ++ e1). split.
    + rewrite l2, l1. now rewrite app_assoc.
    + apply List.Forall_app. now split.
  - set_solver.
  - intros i. rewrite en2. apply en1.
  - auto.
Qed.

Lemma harmless_bind {A B} (c : M A) (k : A -> M B) :
  harmless c -> (forall a, harmless (k a)) -> harmless (bind c k).
Proof.
  intros Hc Hk st. unfold bind. specialize (Hc st).
  destruct (c st) as [[a | e] st1]; cbn [snd] in *; [|exact Hc].
  eapply frame_trans; [exact Hc | apply Hk].
Qed.

Lemma harmless_ret {A} (a : A) : harmless (ret a).
Proof. intros st. apply frame_refl. Qed.

Lemma harmless_throw {A} (e : js_error) : harmless (@throw A e).
Proof. intros st. apply frame_refl. Qed.

Lemma frame_quiet_event (e : event) (st : state) : quiet e -> frame st (emit e st).
Proof.
  intros Hq. constructor; try reflexivity; auto.
  exists [e]. split; [reflexivity | now constructor].
Qed.

Ltac frame_simple :=
  constructor; try reflexivity; auto;
  [exists []; split; [reflexivity | constructor]].

Lemma frame_set_isAxeRunning b st : frame st (set_isAxeRunning b st).
Proof. frame_simple. Qed.

Lemma frame_update_instance i f st :
  (forall x, enabled (f x) = enabled x) ->
  (forall x, hasRunInitialScan x = true -> hasRunInitialScan (f x) = true) ->
  frame st (update_instance i f st).
Proof.
  intros He Hi. constructor; try reflexivity.
  - exists []. split; [reflexivity | constructor].
  - intros j. cbn. destruct (Nat.eqb j i); [apply He | reflexivity].
  - intros j. cbn. destruct (Nat.eqb j i); [apply Hi | tauto].
Qed.

Lemma frame_set_isRunning i b st : frame st (set_isRunning i b st).
Proof. apply frame_update_instance; intros x; cbn; tauto. Qed.

Lemma frame_set_hasRunInitialScan i st : frame st (set_hasRunInitialScan i true st).
Proof. apply frame_update_instance; intros x; cbn; tauto. Qed.

Lemma frame_setTimeout a ms st : frame st (setTimeout a ms st).
Proof. frame_simple. Qed.

Lemma frame_add_handle i st :
  frame st (set_axeInstances ({[i]} ∪ axeInstances st) st).
Proof.
  constructor; try reflexivity; auto.
  - exists []. split; [reflexivity | constructor].
  - cbn. set_solver.
Qed.

Lemma harmless_exec (f : state -> state) :
  (forall st, frame st (f st)) -> harmless (exec f).
Proof. intros H st. apply H. Qed.

Create HintDb sched.
#[local] Hint Resolve harmless_ret harmless_throw frame_set_isAxeRunning
     frame_set_isRunning frame_set_hasRunInitialScan frame_setTimeout frame_add_handle
     frame_refl : sched.

Lemma harmless_catch_block t e : harmless (catch_block t e).
Proof.
  unfold catch_block.
  destruct (is_already_running e), (isInitialScan t); auto with sched;
    apply harmless_exec; intros st; auto with sched.
  all: now apply frame_quiet_event.
Qed.

Lemma harmless_finally_block t : harmless (finally_block t).
Proof.
  unfold finally_block. apply harmless_bind; [|intros _];
    apply harmless_exec; intros st; auto with sched.
Qed.

Lemma harmless_call_scanner t : harmless (call_scanner t).
Proof.
  unfold call_scanner. apply harmless_bind; [|intros _; auto with sched].
  apply harmless_exec. intros st. now apply frame_quiet_event.
Qed.

Lemma harmless_after_import t failure targetPresent :
  harmless (after_import t failure targetPresent).
Proof.
  unfold after_import. destruct failure as [e|]; [auto with sched|].
  repeat (apply harmless_bind; [apply harmless_exec; intros st;
                                auto with sched | intros _]).
  destruct targetPresent; cbn [negb].
  - destruct (isInitialScan t); [auto with sched | apply harmless_call_scanner].
  - apply harmless_bind; [|intros _; auto with sched].
    apply harmless_exec. intros st. now apply frame_quiet_event.
Qed.

Lemma harmless_after_scan t o : harmless (after_scan t o).
Proof.
  unfold after_scan. destruct o as [e | [e|]]; auto with sched.
  apply harmless_bind; [|intros _; auto with sched].
  destruct (isInitialScan t); [|auto with sched].
  apply harmless_bind; [|intros _]; apply harmless_exec; intros st;
    auto with sched.
Qed.

(** The [try] statement never throws, whatever its body does. *)
Lemma in_try_never_throws t (body : M control) (st : state) :
  exists c, fst (in_try t body st) = Normal c.
Proof.
  unfold in_try. destruct (body st) as [[[p|] | e] st1].
  - now eexists.
  - now eexists.
  - unfold catch_block.
    destruct (is_already_running e), (isInitialScan t); cbn; now eexists.
Qed.

Lemma harmless_in_try t (body : M control) : harmless body -> harmless (in_try t body).
Proof.
  intros Hb st. unfold in_try. specialize (Hb st).
  destruct (body st) as [[[p|] | e] st1]; cbn [snd] in *.
  - exact Hb.
  - eapply frame_trans; [exact Hb|].
    apply (harmless_bind _ (fun _ => ret Return)); [apply harmless_finally_block|].
    intros _. apply harmless_ret.
  - pose proof (harmless_catch_block t e st1) as Hc.
    destruct (catch_block t e st1) as [[u | e'] st2]; cbn [snd] in *.
    + eapply frame_trans; [exact Hb|]. eapply frame_trans; [exact Hc|].
      apply (harmless_bind _ (fun _ => ret Return)); [apply harmless_finally_block|].
      intros _. apply harmless_ret.
    + eapply frame_trans; [exact Hb|]. eapply frame_trans; [exact Hc|].
      apply (harmless_bind _ (fun _ => throw e')); [apply harmless_finally_block|].
      intros _. apply harmless_throw.
Qed.


(** *** The record under quiet events *)

Lemma submitted_quiet evs tr :
  List.Forall quiet evs -> submitted (evs ++ tr) = submitted tr.
Proof. induction 1 as [|[] evs Hq _ IH]; simpl in *; tauto. Qed.

Lemma started_quiet evs tr :
  List.Forall quiet evs -> started (evs ++ tr) = started tr.
Proof. induction 1 as [|[] evs Hq _ IH]; simpl in *; tauto. Qed.

Lemma in_flight_quiet evs tr :
  List.Forall quiet evs -> in_flight (evs ++ tr) = in_flight tr.
Proof. induction 1 as [|[] evs Hq _ IH]; simpl in *; tauto. Qed.

Lemma serial_quiet evs tr :
  List.Forall quiet evs -> serial tr -> serial (evs ++ tr).
Proof.
  intros Hq Hs. induction Hq as [|e evs He Hq IH]; [exact Hs|].
  change ((e :: evs) ++ tr) with (e :: (evs ++ tr)).
  split; [|exact IH].
  pose proof (in_flight_quiet (e :: evs) tr ltac:(now constructor)) as E.
  change ((e :: evs) ++ tr) with (e :: (evs ++ tr)) in E. rewrite E.
  destruct tr as [|e0 tr]; [simpl; lia | apply Hs].
Qed.

Lemma serial_in_flight tr : serial tr -> length (in_flight tr) <= 1.
Proof. destruct tr; simpl; [lia | tauto]. Qed.

(** *** The invariant *)

Lemma frame_invariant st st' : frame st st' -> invariant st -> invariant st'.
Proof.
  intros [Hd Hq Hf Hn (evs & Hl & Hquiet) Hh _ _] [I1 I2 I3 I4 I5 I6].
  constructor; rewrite ?Hd, ?Hq, ?Hf, ?Hl,
    ?submitted_quiet, ?started_quiet, ?in_flight_quiet by assumption;
    try assumption.
  now apply serial_quiet.
Qed.

Lemma invariant_init on : invariant (init on).
Proof.
  constructor; cbn; try reflexivity; try tauto. discriminate.
Qed.

(** An activation found in a state with the invariant is the only
    one. *)
Lemma invariant_lookup st k d :
  invariant st -> drains st !! k = Some d ->
  k = 0 /\ drains st = [d] /\ isProcessingQueue st = true.
Proof.
  intros [I1 I2 _ _ _ _] Hk.
  destruct (isProcessingQueue st) eqn:Hf.
  - destruct (I2 eq_refl) as (d0 & Hd). rewrite Hd in Hk.
    destruct k as [|k]; cbn in Hk; [|destruct k; discriminate].
    injection Hk as ->. auto.
  - rewrite (I1 eq_refl) in Hk. discriminate.
Qed.

(** The loop of [processAxeQueue], entered with no thunk in flight. *)
Lemma loop_head_spec st :
  in_flight (log st) = [] ->
  rev (submitted (log st)) = rev (started (log st)) ++ map rid (axeQueue st) ->
  serial (log st) ->
  match loop_head st with
  | (Some d, st1) =>
      in_flight (log st1) = pending d /\
      rev (submitted (log st1)) = rev (started (log st1)) ++ map rid (axeQueue st1) /\
      serial (log st1) /\
      isProcessingQueue st1 = isProcessingQueue st /\
      drains st1 = drains st /\
      (forall e, at_point d <> Rejected e) /\
      axeInstances st1 = axeInstances st /\
      isAxeRunning st1 = isAxeRunning st /\
      exists rest, axeQueue st = current d :: rest /\ axeQueue st1 = rest
  | (None, st1) =>
      axeQueue st = [] /\ st1 = set_isProcessingQueue false st
  end.
Proof.
  intros Hfl Hfifo Hser. unfold loop_head.
  destruct (axeQueue st) as [|t rest] eqn:Hq; [split; reflexivity|].
  unfold start_thunk. cbn [isAxeRunning emit set_axeQueue].
  assert (Hfifo' : rev (submitted (log st))
                   = rev (rid t :: started (log st)) ++ map rid rest).
  { rewrite Hfifo. cbn. now rewrite <- app_assoc. }
  cbn [rev] in Hfifo'.
  destruct (isAxeRunning st) eqn:Hrun; cbn; rewrite ?Hfl; cbn;
    rewrite ?Nat.eqb_refl; cbn; repeat split;
    cbn; rewrite ?Hfl; cbn; rewrite ?Nat.eqb_refl; cbn;
    try lia; try assumption; try discriminate; try (now exists rest).
Qed.


Lemma invariant_processAxeQueue st : invariant st -> invariant (processAxeQueue st).
Proof.
  intros Hinv. unfold processAxeQueue.
  destruct (isProcessingQueue st) eqn:Hf; cbn [orb]; [exact Hinv|].
  destruct (Nat.eqb (length (axeQueue st)) 0) eqn:Hq; [exact Hinv|].
  destruct Hinv as [I1 I2 I3 I4 I5 I6]. specialize (I1 Hf).
  rewrite I1 in I3. cbn in I3.
  pose proof (loop_head_spec (set_isProcessingQueue true st) I3 I4 I5) as Hl.
  destruct (loop_head (set_isProcessingQueue true st)) as [[d|] st1].
  - destruct Hl as (H1 & H2 & H3 & H4 & H5 & H6 & _).
    cbn in H4, H5. rewrite I1 in H5.
    constructor; cbn; rewrite ?H5, ?H4; cbn; try assumption.
    + discriminate.
    + intros _. now exists d.
    + rewrite H1. now rewrite app_nil_r.
    + intros d' e [<- | []]. apply H6.
  - destruct Hl as [Hnil _]. cbn in Hnil. rewrite Hnil in Hq. discriminate.
Qed.

Lemma invariant_runAxe i b st : invariant st -> invariant (snd (runAxe i b st)).
Proof.
  intros Hinv. unfold runAxe.
  destruct (negb (enabled (instances st i))); [exact Hinv|].
  destruct (b && hasRunInitialScan (instances st i)); [exact Hinv|].
  cbn [snd]. apply invariant_processAxeQueue.
  destruct Hinv as [I1 I2 I3 I4 I5 I6].
  constructor; cbn; try assumption.
  - rewrite I4, map_app. cbn. now rewrite app_assoc.
  - split; [|exact I5]. now apply serial_in_flight.
Qed.

Lemma invariant_cleanup i st : invariant st -> invariant (cleanup i st).
Proof.
  intros [I1 I2 I3 I4 I5 I6]. unfold cleanup.
  destruct (Nat.eqb _ 0); constructor; assumption.
Qed.

Lemma invariant_continue_thunk k t a body st :
  invariant st -> drains st !! k = Some (mkDrain t (Awaiting a)) ->
  harmless body ->
  invariant (continue_thunk k t body st).
Proof.
  intros Hinv Hk Hb.
  destruct (invariant_lookup st k _ Hinv Hk) as (-> & Hd & Hf).
  pose proof (harmless_in_try t body Hb st) as Hfr.
  pose proof (frame_invariant _ _ Hfr Hinv) as Hinv1.
  destruct (in_try_never_throws t body st) as (c & Hc).
  unfold continue_thunk.
  destruct (in_try t body st) as [c' st1]. cbn [fst snd] in *. subst c'.
  destruct Hfr as [Fd _ Ff _ _ _ _ _]. rewrite Hd in Fd. rewrite Hf in Ff.
  destruct Hinv1 as [I1 I2 I3 I4 I5 I6]. rewrite Fd in I3. cbn in I3.
  destruct c as [p|]; constructor; cbn; rewrite ?Fd, ?Ff, ?I3; cbn;
    rewrite ?Nat.eqb_refl; cbn; try assumption; try discriminate;
    try (intros _; eexists; reflexivity).
  all: try (intros d e [<- | []]; discriminate).
  all: try reflexivity.
  split; [lia | exact I5].
Qed.

Lemma invariant_continue_drain k d settled st :
  invariant st -> drains st !! k = Some d -> pending d = [] ->
  (forall e, settled = Rejected e -> False) ->
  invariant (continue_drain k settled st).
Proof.
  intros Hinv Hk Hp Hs.
  destruct (invariant_lookup st k _ Hinv Hk) as (-> & Hd & Hf).
  unfold continue_drain.
  destruct settled as [a| |e]; [| |destruct (Hs e eq_refl)].
  all: destruct Hinv as [I1 I2 I3 I4 I5 I6].
  all: rewrite Hd in I3; cbn in I3; rewrite Hp in I3; cbn in I3.
  all: pose proof (loop_head_spec st I3 I4 I5) as Hl.
  all: destruct (loop_head st) as [[d'|] st1].
  1,3: destruct Hl as (H1 & H2 & H3 & H4 & H5 & H6 & _);
    rewrite Hf in H4; rewrite Hd in H5;
    constructor; cbn; rewrite ?H5, ?H4; cbn; try assumption;
    try discriminate; try (intros _; eexists; reflexivity);
    [ rewrite H1; now rewrite app_nil_r
    | intros d0 e [<- | []]; apply H6 ].
  all: destruct Hl as [Hnil ->]; constructor; cbn; rewrite ?Hd; cbn;
    try assumption; try discriminate; try reflexivity; try tauto.
Qed.

Lemma invariant_step l st st' :
  invariant st -> step l st = Some st' -> invariant st'.
Proof.
  intros Hinv Hstep. destruct l as [i b | i | k f tp | k r | k o | k | k];
    cbn [step] in Hstep.
  - injection Hstep as <-. now apply invariant_runAxe.
  - injection Hstep as <-. now apply invariant_cleanup.
  - destruct (drains st !! k) as [[t [[| |]| |]]|] eqn:Hk; try discriminate.
    injection Hstep as <-. eapply invariant_continue_thunk; eauto.
    apply harmless_after_import.
  - destruct (drains st !! k) as [[t [[| |]| |]]|] eqn:Hk; try discriminate.
    injection Hstep as <-. eapply invariant_continue_thunk; eauto.
    apply harmless_call_scanner.
  - destruct (drains st !! k) as [[t [[| |]| |]]|] eqn:Hk; try discriminate.
    injection Hstep as <-. eapply invariant_continue_thunk; eauto.
    apply harmless_after_scan.
  - destruct (drains st !! k) as [[t [[| |]| |e]]|] eqn:Hk; try discriminate.
    + injection Hstep as <-. eapply invariant_continue_drain; eauto.
      discriminate.
    + destruct (invariant_lookup st k _ Hinv Hk) as (_ & Hd & _).
      destruct Hinv as [_ _ _ _ _ I6].
      exfalso. apply (I6 (mkDrain t (Rejected e)) e); [rewrite Hd; now left | reflexivity].
  - destruct (timers st !! k) as [[ms [i|i]]|] eqn:Hk; try discriminate;
      injection Hstep as <-.
    + apply invariant_runAxe.
      destruct Hinv as [I1 I2 I3 I4 I5 I6]. constructor; assumption.
    + destruct Hinv as [I1 I2 I3 I4 I5 I6]. constructor; assumption.
Qed.

Lemma reachable_invariant on st : reachable on st -> invariant st.
Proof.
  induction 1 as [|l st st' _ IH Hstep]; [apply invariant_init|].
  eapply invariant_step; eauto.
Qed.

Lemma run_reachable on ls :
  forall st st', reachable on st -> run ls st = Some st' -> reachable on st'.
Proof.
  induction ls as [|l ls IH]; intros st st' Hr Hrun; cbn in Hrun.
  - now injection Hrun as <-.
  - destruct (step l st) as [st1|] eqn:Hs; [|discriminate].
    eapply IH; [|exact Hrun]. eapply reachable_step; eauto.
Qed.

End SchedulerFacts.

Section SchedulerClaims.
Import Scheduler.

(** *** What the queue functions leave alone *)

Lemma loop_head_keeps st :
  instances (snd (loop_head st)) = instances st /\
  axeInstances (snd (loop_head st)) = axeInstances st /\
  timers (snd (loop_head st)) = timers st /\
  isAxeRunning (snd (loop_head st)) = isAxeRunning st /\
  drains (snd (loop_head st)) = drains st.
Proof.
  unfold loop_head, start_thunk.
  destruct (axeQueue st) as [|t rest]; [cbn; tauto|].
  cbn [isAxeRunning emit set_axeQueue].
  destruct (isAxeRunning st) eqn:E; cbn; rewrite ?E; tauto.
Qed.

Lemma processAxeQueue_keeps st :
  instances (processAxeQueue st) = instances st /\
  axeInstances (processAxeQueue st) = axeInstances st /\
  timers (processAxeQueue st) = timers st /\
  isAxeRunning (processAxeQueue st) = isAxeRunning st.
Proof.
  unfold processAxeQueue.
  destruct (isProcessingQueue st || Nat.eqb (length (axeQueue st)) 0); [tauto|].
  pose proof (loop_head_keeps (set_isProcessingQueue true st)) as (H1 & H2 & H3 & H4 & _).
  destruct (loop_head (set_isProcessingQueue true st)) as [[d|] st1];
    cbn in *; tauto.
Qed.

Lemma runAxe_keeps i b st :
  instances (snd (runAxe i b st)) = instances st /\
  axeInstances (snd (runAxe i b st)) = axeInstances st /\
  timers (snd (runAxe i b st)) = timers st /\
  isAxeRunning (snd (runAxe i b st)) = isAxeRunning st.
Proof.
  unfold runAxe.
  destruct (negb (enabled (instances st i))); [cbn; tauto|].
  destruct (b && hasRunInitialScan (instances st i)); [cbn; tauto|].
  cbn [snd]. pose proof (processAxeQueue_keeps
    (set_next_rid (S (next_rid st))
       (emit (Submitted (next_rid st))
          (set_axeQueue (axeQueue st ++ [mkThunk (next_rid st) i b]) st)))) as H.
  cbn in *. exact H.
Qed.

Lemma continue_drain_keeps k settled st :
  instances (continue_drain k settled st) = instances st /\
  axeInstances (continue_drain k settled st) = axeInstances st.
Proof.
  unfold continue_drain.
  set (st0 := match settled with Rejected e => _ | _ => st end).
  assert (H0 : instances st0 = instances st /\ axeInstances st0 = axeInstances st)
    by (subst st0; destruct settled; cbn; tauto).
  pose proof (loop_head_keeps st0) as (H1 & H2 & _).
  destruct (loop_head st0) as [[d|] st1]; cbn in *; destruct H0; split; congruence.
Qed.

Lemma continue_thunk_frame k t body st :
  harmless body ->
  axeInstances st ⊆ axeInstances (continue_thunk k t body st) /\
  (forall i, enabled (instances (continue_thunk k t body st) i)
             = enabled (instances st i)) /\
  (forall i, hasRunInitialScan (instances st i) = true ->
             hasRunInitialScan (instances (continue_thunk k t body st) i) = true).
Proof.
  intros Hb. pose proof (harmless_in_try t body Hb st) as [_ _ _ _ _ Hh He Hi].
  unfold continue_thunk.
  destruct (in_try t body st) as [[[p|] | e] st1]; cbn in *; auto.
Qed.

(** Between two states of a step: options stay, a completed initial
    scan stays completed, and only [cleanup] removes a handle. *)
Lemma step_keeps l st st' :
  step l st = Some st' ->
  (forall i, enabled (instances st' i) = enabled (instances st i)) /\
  (forall i, hasRunInitialScan (instances st i) = true ->
             hasRunInitialScan (instances st' i) = true) /\
  ((forall i, l <> CallCleanup i) -> axeInstances st ⊆ axeInstances st').
Proof.
  intros Hstep. destruct l as [i b | i | k f tp | k r | k o | k | k];
    cbn [step] in Hstep.
  - injection Hstep as <-. destruct (runAxe_keeps i b st) as (-> & -> & _). auto.
  - injection Hstep as <-. repeat split.
    + intros j. unfold cleanup. now destruct (Nat.eqb _ 0).
    + intros j. unfold cleanup. now destruct (Nat.eqb _ 0).
    + intros H. destruct (H i eq_refl).
  - destruct (drains st !! k) as [[t [[| |]| |]]|] eqn:Hk; try discriminate.
    injection Hstep as <-.
    destruct (continue_thunk_frame k t _ st (harmless_after_import t f tp)) as (? & ? & ?).
    auto.
  - destruct (drains st !! k) as [[t [[| |]| |]]|] eqn:Hk; try discriminate.
    injection Hstep as <-.
    destruct (continue_thunk_frame k t _ st (harmless_call_scanner t)) as (? & ? & ?).
    auto.
  - destruct (drains st !! k) as [[t [[| |]| |]]|] eqn:Hk; try discriminate.
    injection Hstep as <-.
    destruct (continue_thunk_frame k t _ st (harmless_after_scan t o)) as (? & ? & ?).
    auto.
  - destruct (drains st !! k) as [[t [[| |]| |e]]|] eqn:Hk; try discriminate;
      injection Hstep as <-.
    + destruct (continue_drain_keeps k Fulfilled st) as (-> & ->). auto.
    + destruct (continue_drain_keeps k (Rejected e) st) as (-> & ->). auto.
  - destruct (timers st !! k) as [[ms [i|i]]|] eqn:Hk; try discriminate;
      injection Hstep as <-.
    + destruct (runAxe_keeps i true (set_timers (delete k (timers st)) st))
        as (-> & -> & _). cbn. auto.
    + cbn. auto.
Qed.

Lemma run_keeps ls :
  forall st st' i,
    run ls st = Some st' ->
    hasRunInitialScan (instances st i) = true ->
    hasRunInitialScan (instances st' i) = true.
Proof.
  induction ls as [|l ls IH]; intros st st' i Hrun Hi; cbn in Hrun.
  - now injection Hrun as <-.
  - destruct (step l st) as [st1|] eqn:Hs; [|discriminate].
    eapply IH; [exact Hrun|]. now apply (step_keeps l st st1 Hs).
Qed.

Lemma cleanup_empty_resets i st :
  axeInstances (cleanup i st) = ∅ -> isAxeRunning (cleanup i st) = false.
Proof.
  unfold cleanup. cbn [axeInstances set_axeInstances].
  destruct (Nat.eqb (size (axeInstances st ∖ {[i]})) 0) eqn:Hs; [reflexivity|].
  cbn. intros He. rewrite He, size_empty in Hs. discriminate.
Qed.

(** C8.  A step that empties the set of instance handles is a
    [cleanup], the one of the last instance in the set, and it leaves
    the global running flag false. *)
Theorem last_cleanup_resets_running_flag (l : label) (st st' : state) :
  step l st = Some st' ->
  axeInstances st <> ∅ ->
  axeInstances st' = ∅ ->
  isAxeRunning st' = false /\
  exists i, l = CallCleanup i /\ st' = cleanup i st /\ axeInstances st = {[i]}.
Proof.
  intros Hstep Hne Hempty.
  destruct (step_keeps l st st' Hstep) as (_ & _ & Hsub).
  destruct l as [i b | i | k f tp | k r | k o | k | k].
  2: { cbn in Hstep. injection Hstep as <-. split.
       - now apply cleanup_empty_resets.
       - exists i. repeat split.
         assert (He : axeInstances st ∖ {[i]} = ∅).
         { unfold cleanup in Hempty.
           destruct (Nat.eqb _ 0); cbn in Hempty; exact Hempty. }
         apply set_eq. intros x. rewrite elem_of_singleton. split.
         + intros Hx. destruct (decide (x = i)) as [|Hxi]; [assumption|].
           assert (x ∈ axeInstances st ∖ {[i]}) by set_solver.
           rewrite He in H. set_solver.
         + intros ->. apply dec_stable. intros Hni.
           apply Hne. set_solver. }
  all: exfalso; apply Hne;
    assert (Hs : axeInstances st ⊆ axeInstances st') by (apply Hsub; discriminate);
    rewrite Hempty in Hs; set_solver.
Qed.

(** The state after the scanner's promise was rejected: [catch], then
    [finally], then the thunk's promise is fulfilled. *)
Lemma continue_thunk_rejected k t e st :
  continue_thunk k t (after_scan t (ScanRejected e)) st
  = set_drains (<[k := mkDrain t Fulfilled]> (drains st))
      (emit (Finished (rid t))
         (set_isAxeRunning false
            (set_isRunning (owner t) false
               (if is_already_running e then
                  if isInitialScan t
                  then setTimeout (RetryInitialScan (owner t)) 1000 st
                  else st
                else emit (ConsoleError "Error running accessibility scan:" e) st)))).
Proof.
  unfold continue_thunk, in_try, after_scan, throw, catch_block.
  destruct (is_already_running e), (isInitialScan t); reflexivity.
Qed.

(** C6.  A scan is waiting for the scanner, and the scanner's promise
    is rejected.  The thunk's promise is fulfilled all the same and both
    running flags are cleared.  An error that says axe is already
    running leaves nothing on the console; for an initial scan it arms
    one timer of 1000 ms that calls [runAxe(true)], for any other scan it
    arms none.  Any other error is written to the console once and
    nothing is armed.  The [try] statement of [queuedRun] never throws,
    whatever happens in its body; [runAxe] completes normally; and no
    thunk's promise is ever rejected, so the [catch] of [processAxeQueue]
    is never entered. *)
Theorem scan_failures_never_escape
        (on : nat -> bool) (st : state) (k : nat) (t : thunk) (e : js_error) :
  reachable on st ->
  drains st !! k = Some (mkDrain t (Awaiting AtScanner)) ->
  let st' := continue_thunk k t (after_scan t (ScanRejected e)) st in
  step (ScannerSettles k (ScanRejected e)) st = Some st' /\
  drains st' = [mkDrain t Fulfilled] /\
  isAxeRunning st' = false /\
  isRunning (instances st' (owner t)) = false /\
  (is_already_running e = true -> isInitialScan t = false ->
   log st' = Finished (rid t) :: log st /\ timers st' = timers st) /\
  (is_already_running e = true -> isInitialScan t = true ->
   log st' = Finished (rid t) :: log st /\
   timers st' = timers st ++ [mkTimer 1000 (RetryInitialScan (owner t))]) /\
  (is_already_running e = false ->
   log st'
   = Finished (rid t) :: ConsoleError "Error running accessibility scan:" e :: log st /\
   timers st' = timers st) /\
  (forall (s : state) (j ms i : nat),
      timers s !! j = Some (mkTimer ms (RetryInitialScan i)) ->
      step (TimerFires j) s
      = Some (snd (runAxe i true (set_timers (delete j (timers s)) s)))) /\
  (forall (body : M control) (s : state),
      exists c, fst (in_try t body s) = Normal c) /\
  (forall (i : nat) (b : bool) (s : state), fst (runAxe i b s) = Normal tt) /\
  (forall d e', In d (drains st') -> at_point d <> Rejected e').
Proof.
  intros Hr Hk st'.
  pose proof (reachable_invariant on st Hr) as Hinv.
  destruct (invariant_lookup st k _ Hinv Hk) as (-> & Hd & Hf).
  assert (Hstep : step (ScannerSettles 0 (ScanRejected e)) st = Some st').
  { cbn [step]. now rewrite Hk. }
  assert (Hinv' : invariant st') by (eapply invariant_step; eauto).
  pose proof (continue_thunk_rejected 0 t e st) as Hst'. fold st' in Hst'.
  split; [exact Hstep|].
  split; [rewrite Hst'; cbn; now rewrite Hd|].
  split; [rewrite Hst'; reflexivity|].
  split; [rewrite Hst'; cbn; now rewrite Nat.eqb_refl|].
  split; [intros Hb Hi; rewrite Hst', Hb, Hi; split; reflexivity|].
  split; [intros Hb Hi; rewrite Hst', Hb, Hi; split; reflexivity|].
  split; [intros Hb; rewrite Hst', Hb; split; reflexivity|].
  split; [intros s j ms i Hj; cbn [step]; now rewrite Hj|].
  split; [intros body s; apply in_try_never_throws|].
  split.
  - intros i b s. unfold runAxe.
    destruct (negb (enabled (instances s i))); [reflexivity|].
    destruct (b && hasRunInitialScan (instances s i)); reflexivity.
  - destruct Hinv' as [_ _ _ _ _ I6]. exact I6.
Qed.

End SchedulerClaims.

(** Two instances ask for a scan while nothing runs: the first is started
    at once, the second waits in the queue. *)
Lemma two_instances_example :
  option_map (fun st => (rev (Scheduler.log st), map Scheduler.rid (Scheduler.axeQueue st)))
             (Scheduler.run Ex.two_instances_one_scanning (Scheduler.init Ex.all_enabled))
  = Some ([Scheduler.Submitted 0; Scheduler.Started 0; Scheduler.Submitted 1;
           Scheduler.ScannerInvoked 0 0 false], [1]).
Proof. reflexivity. Qed.

(** C2 (counterexample).  [runAxe(true)] is called twice on instance 0
    before anything else happens.  Both calls pass the guard, both thunks
    are queued, and the scanner is called for two initial scans of the
    instance, one after the other. *)
Lemma two_initial_requests_two_initial_scans :
  option_map (fun st => (Scheduler.initial_scans 0 (Scheduler.log st),
                         rev (Scheduler.log st)))
             (Scheduler.run Ex.two_initial_requests (Scheduler.init Ex.all_enabled))
  = Some (2, [Scheduler.Submitted 0; Scheduler.Started 0; Scheduler.Submitted 1;
              Scheduler.ScannerInvoked 0 0 true; Scheduler.Finished 0;
              Scheduler.Started 1; Scheduler.ScannerInvoked 1 0 true;
              Scheduler.Finished 1]).
Proof. reflexivity. Qed.

(** C8 on a worked run: instance 0 is scanning, its handle is the only
    one, and its [cleanup] resets the flag. *)
Lemma last_cleanup_resets_running_flag_witness :
  match Scheduler.run Ex.rescan_at_scanner (Scheduler.init Ex.all_enabled) with
  | Some st =>
      Scheduler.isAxeRunning st = true /\
      Scheduler.isAxeRunning (Scheduler.cleanup 0 st) = false
  | None => False
  end.
Proof.
  destruct (Scheduler.run Ex.rescan_at_scanner (Scheduler.init Ex.all_enabled))
    as [st|] eqn:E; vm_compute in E; [|discriminate E].
  injection E as <-.
  split; [reflexivity|].
  eapply (last_cleanup_resets_running_flag (Scheduler.CallCleanup 0)).
  - reflexivity.
  - intros H. vm_compute in H. discriminate H.
  - vm_compute. reflexivity.
Defined.

(** C6 on a worked run: the initial scan of instance 0 waits for the
    scanner, which reports that axe is already running. *)
Lemma scan_failures_never_escape_witness :
  match Scheduler.run Ex.initial_at_scanner (Scheduler.init Ex.all_enabled) with
  | Some st =>
      let t := Scheduler.mkThunk 0 0 true in
      let st' := Scheduler.continue_thunk 0 t
                   (Scheduler.after_scan t (Scheduler.ScanRejected Ex.busy_error)) st in
      Scheduler.step (Scheduler.ScannerSettles 0 (Scheduler.ScanRejected Ex.busy_error)) st
      = Some st' /\
      Scheduler.drains st' = [Scheduler.mkDrain t Scheduler.Fulfilled] /\
      Scheduler.isAxeRunning st' = false
  | None => False
  end.
Proof.
  destruct (Scheduler.run Ex.initial_at_scanner (Scheduler.init Ex.all_enabled))
    as [st|] eqn:E.
  - assert (Hr : Scheduler.reachable Ex.all_enabled st)
      by (eapply run_reachable; [apply Scheduler.reachable_init | exact E]).
    assert (Hk : Scheduler.drains st !! 0
                 = Some (Scheduler.mkDrain (Scheduler.mkThunk 0 0 true)
                           (Scheduler.Awaiting Scheduler.AtScanner)))
      by (vm_compute in E; injection E as <-; reflexivity).
    destruct (scan_failures_never_escape Ex.all_enabled st 0 _ Ex.busy_error Hr Hk)
      as (H1 & H2 & H3 & _).
    cbv zeta. split; [exact H1|]. split; [exact H2 | exact H3].
  - vm_compute in E. discriminate E.
Defined.

(** The three ways a rejected scan ends: an initial scan that found axe
    busy arms the retry and says nothing; a later scan that found axe busy
    does nothing; any other error is written to the console. *)
Lemma busy_initial_scan_example :
  option_map (fun st => (Scheduler.timers st, rev (Scheduler.log st),
                         Scheduler.isAxeRunning st))
    (Scheduler.run (Ex.initial_at_scanner ++
                    [Scheduler.ScannerSettles 0 (Scheduler.ScanRejected Ex.busy_error)])
                   (Scheduler.init Ex.all_enabled))
  = Some ([Scheduler.mkTimer 1000 (Scheduler.RetryInitialScan 0)],
          [Scheduler.Submitted 0; Scheduler.Started 0;
           Scheduler.ScannerInvoked 0 0 true; Scheduler.Finished 0],
          false).
Proof. reflexivity. Qed.

Lemma busy_rescan_example :
  option_map (fun st => (Scheduler.timers st, rev (Scheduler.log st),
                         Scheduler.isAxeRunning st))
    (Scheduler.run (Ex.rescan_at_scanner ++
                    [Scheduler.ScannerSettles 0 (Scheduler.ScanRejected Ex.busy_error)])
                   (Scheduler.init Ex.all_enabled))
  = Some ([], [Scheduler.Submitted 0; Scheduler.Started 0;
               Scheduler.ScannerInvoked 0 0 false; Scheduler.Finished 0],
          false).
Proof. reflexivity. Qed.

Lemma failed_scan_example :
  option_map (fun st => (Scheduler.timers st, rev (Scheduler.log st),
                         Scheduler.isAxeRunning st))
    (Scheduler.run (Ex.initial_at_scanner ++
                    [Scheduler.ScannerSettles 0 (Scheduler.ScanRejected Ex.other_error)])
                   (Scheduler.init Ex.all_enabled))
  = Some ([], [Scheduler.Submitted 0; Scheduler.Started 0;
               Scheduler.ScannerInvoked 0 0 true;
               Scheduler.ConsoleError "Error running accessibility scan:" Ex.other_error;
               Scheduler.Finished 0],
          false).
Proof. reflexivity. Qed.

(** * Further properties *)

(** ** Attribute extraction *)

Section ExtractionFacts.
Import Sub.

Lemma append_assoc (a b c : string) : (a +:+ b) +:+ c = a +:+ (b +:+ c).
Proof.
  induction a as [|x a IH]; [reflexivity|].
  change (String x ((a +:+ b) +:+ c) = String x (a +:+ b +:+ c)).
  now rewrite IH.
Qed.

Lemma prefix_append (p t : string) : String.prefix p (p +:+ t) = true.
Proof.
  induction p as [|x p IH]; simpl; [now destruct t|].
  destruct (ascii_dec x x); [exact IH | congruence].
Qed.

Lemma prefix_append_long (p x t : string) :
  String.length p <= String.length x ->
  String.prefix p (x +:+ t) = String.prefix p x.
Proof.
  revert x. induction p as [|c p IH]; intros x Hl; simpl.
  - destruct x; simpl; [now destruct t | reflexivity].
  - destruct x as [|d x]; simpl in *; [lia|].
    destruct (ascii_dec c d); [apply IH; lia | reflexivity].
Qed.

Lemma drop_chars_append (p t : string) :
  Js.drop_chars (String.length p) (p +:+ t) = t.
Proof. induction p as [|x p IH]; simpl; [now destruct t | exact IH]. Qed.

Lemma span_not_append (c : ascii) (v rest : string) :
  has_char c v = false ->
  Js.span_not c (v +:+ String c rest) = (v, String c rest).
Proof.
  induction v as [|d v IH]; simpl; intros H.
  - now rewrite Ascii.eqb_refl.
  - apply orb_false_iff in H as [Hd Hv]. rewrite Hd, (IH Hv). reflexivity.
Qed.

Lemma match_here_opening (p : string) (c : ascii) (v rest : string) :
  v <> EmptyString -> has_char c v = false ->
  Js.match_here p c (p +:+ v +:+ String c rest) = Some v.
Proof.
  intros Hne Hv. unfold Js.match_here.
  rewrite prefix_append, drop_chars_append, span_not_append by assumption.
  destruct v; [congruence | reflexivity].
Qed.

Lemma capture_unfold (p : string) (c : ascii) (s : string) :
  Js.capture p c s =
  match Js.match_here p c s with
  | Some r => Some r
  | None => match s with
            | EmptyString => None
            | String _ s' => Js.capture p c s'
            end
  end.
Proof. destruct s; reflexivity. Qed.

Lemma capture_first_occurrence (p : string) (c : ascii) (a v rest : string) :
  find_sub p (a +:+ p) = Some (String.length a) ->
  v <> EmptyString -> has_char c v = false ->
  Js.capture p c (a +:+ p +:+ v +:+ String c rest) = Some v.
Proof.
  intros Hfind Hne Hv. induction a as [|x a IH].
  - change (EmptyString +:+ p +:+ v +:+ String c rest)
      with (p +:+ v +:+ String c rest).
    rewrite capture_unfold, match_here_opening by assumption. reflexivity.
  - change (find_sub p (String x (a +:+ p)) = Some (S (String.length a)))
      in Hfind.
    cbn [find_sub] in Hfind.
    destruct (String.prefix p (String x (a +:+ p))) eqn:Hp; [discriminate|].
    destruct (find_sub p (a +:+ p)) as [k|] eqn:Hk; [|discriminate].
    cbn [option_map] in Hfind. injection Hfind as ->. specialize (IH eq_refl).
    assert (Hm : Js.match_here p c
                   (String x a +:+ p +:+ v +:+ String c rest) = None).
    { unfold Js.match_here.
      rewrite <- (append_assoc (String x a) p), prefix_append_long.
      - change (String x a +:+ p) with (String x (a +:+ p)).
        now rewrite Hp.
      - clear. change (String x a +:+ p) with (String x (a +:+ p)).
        cbn [String.length].
        induction a as [|y a IHa]; [change (EmptyString +:+ p) with p; lia|].
        change (String y a +:+ p) with (String y (a +:+ p)).
        cbn [String.length]. lia. }
    rewrite capture_unfold, Hm. exact IH.
Qed.

End ExtractionFacts.

(** X1.  The attribute patterns of [findByHtmlContent] are not anchored
    at a word boundary: the value read for [name] is the one that follows
    the first occurrence of [name=] and a double quote anywhere in the
    markup, also inside a longer attribute name, when that value is not
    empty.  Markup whose [data-id] attribute comes before its [id] is
    therefore looked up by the value of [data-id]. *)
Theorem attribute_read_at_first_occurrence (name a v rest : string) :
  Sub.find_sub (Sub.opening name) (a +:+ Sub.opening name)
  = Some (String.length a) ->
  v <> EmptyString ->
  Sub.has_char Js.dquote v = false ->
  let html := a +:+ Sub.opening name +:+ v +:+ String Js.dquote rest in
  Js.attr_match name html = Some v /\
  (name = "id" ->
   forall (querySelector : list Dom.node -> string -> option Dom.node)
          (scope : list Dom.node),
     Locator.by_id querySelector html scope = querySelector scope ("#" +:+ v)).
Proof.
  intros Hfirst Hne Hv html.
  assert (H : Js.attr_match name html = Some v)
    by now apply capture_first_occurrence.
  split; [exact H|].
  intros -> querySelector scope. unfold Locator.by_id. now rewrite H.
Qed.

(** X1 on markup whose [data-id] comes before its [id]: the value read
    for [id] is the one of [data-id]. *)
Lemma attribute_read_at_first_occurrence_witness :
  Js.attr_match "id" Ex2.data_id_html = Some "row-7".
Proof.
  apply (attribute_read_at_first_occurrence "id" Ex2.before_data_id "row-7").
  - vm_compute. reflexivity.
  - discriminate.
  - vm_compute. reflexivity.
Defined.

(** ** The locator, continued *)

Section LocatorMore.
Import Dom Locator Tree.
Variable querySelector : list node -> string -> option node.

Lemma findByHtmlContentInAllShadowRoots_boundaries
      (fuel : nat) (htmlContent : string) (root : node) :
  height root < fuel ->
  findByHtmlContentInAllShadowRoots querySelector fuel htmlContent root
  = Some (locate_boundary_major querySelector htmlContent root).
Proof.
  intros Hfuel. unfold findByHtmlContentInAllShadowRoots.
  rewrite locate_boundary_major_eq. unfold boundaries. cbn [first_hit].
  destruct (findByHtmlContent querySelector htmlContent (childNodes root)) as [e|];
    cbn [or_else]; [reflexivity|].
  rewrite searchAllShadowRoots_visited by assumption.
  now rewrite (visited_fuel fuel (S (height root))) by lia.
Qed.

Lemma selector_over_boundaries (fuel : nat) (selector : string) (root : node) :
  height root < fuel ->
  match querySelector (childNodes root) selector with
  | Some element => Some (Some element)
  | None => searchInShadow querySelector fuel selector root
  end
  = Some (first_hit (fun scope => querySelector scope selector) (boundaries root)).
Proof.
  intros Hfuel. unfold boundaries. cbn [first_hit].
  destruct (querySelector (childNodes root) selector) as [e|];
    cbn [or_else]; [reflexivity|].
  rewrite searchInShadow_visited by assumption.
  now rewrite (visited_fuel fuel (S (height root))) by lia.
Qed.

Lemma findElementInShadowDOM_by_selector
      (fuel : nat) (selector : string) (htmlContent : option string) (root : node) :
  height root < fuel ->
  htmlContent = None \/ htmlContent = Some EmptyString ->
  findElementInShadowDOM querySelector fuel selector htmlContent root
  = Some (first_hit (fun scope => querySelector scope selector) (boundaries root)).
Proof.
  intros Hfuel [-> | ->]; unfold findElementInShadowDOM;
    now apply selector_over_boundaries.
Qed.

Lemma findElementInShadowDOM_by_content
      (fuel : nat) (selector : string) (c : ascii) (h : string) (root : node) :
  height root < fuel ->
  findElementInShadowDOM querySelector fuel selector (Some (String c h)) root
  = Some (or_else (locate_boundary_major querySelector (String c h) root)
                  (first_hit (fun scope => querySelector scope selector)
                             (boundaries root))).
Proof.
  intros Hfuel. unfold findElementInShadowDOM.
  rewrite findByHtmlContentInAllShadowRoots_boundaries by assumption.
  destruct (locate_boundary_major querySelector (String c h) root) as [e|];
    cbn [or_else]; [reflexivity | now apply selector_over_boundaries].
Qed.

Lemma findByHtmlContent_no_handle (htmlContent : string) (scope : list node) :
  no_handle htmlContent ->
  findByHtmlContent querySelector htmlContent scope = None.
Proof.
  intros (Hid & Haria & Hrole & Hclass & Htext).
  unfold findByHtmlContent, by_id, by_aria_label, by_role_and_class, by_role,
    by_class, by_text.
  rewrite Hid, Haria, Hrole, Hclass. cbn [or_else].
  destruct (Js.capture ">" "<" htmlContent) as [m|]; [|reflexivity].
  apply Nat.ltb_ge in Htext. now rewrite Htext.
Qed.

(** X3.  Markup without a non-empty [id], [aria-label], [role] or
    [class] value and with at most 3 characters of trimmed text between
    its first two tags gives the content strategy nothing to look for:
    whatever the document and the selector engine, the locator then
    returns exactly what it returns without the markup, the result of
    the selector. *)
Theorem markup_without_handles_uses_selector
        (fuel : nat) (selector htmlContent : string) (root : node) :
  no_handle htmlContent ->
  height root < fuel ->
  findElementInShadowDOM querySelector fuel selector (Some htmlContent) root
  = findElementInShadowDOM querySelector fuel selector None root.
Proof.
  intros Hno Hfuel.
  rewrite (findElementInShadowDOM_by_selector fuel selector None)
    by (try assumption; now left).
  destruct htmlContent as [|c h].
  { apply findElementInShadowDOM_by_selector; [assumption | now right]. }
  rewrite findElementInShadowDOM_by_content by assumption.
  rewrite locate_boundary_major_eq.
  assert (H : forall l, first_hit (findByHtmlContent querySelector (String c h)) l
                        = None).
  { induction l as [|x l IH]; cbn [first_hit]; [reflexivity|].
    now rewrite findByHtmlContent_no_handle, IH. }
  now rewrite H.
Qed.

(** *** Where a located element lies *)

Lemma subtree_composed (n e : node) : In e (subtree n) -> In e (composed n).
Proof.
  revert e. induction n as [t a sr cs _ Hcs | d] using node_induction;
    intros e; cbn [subtree composed]; [|tauto].
  intros [<- | Hin]; [now left|]. right.
  apply in_or_app. right.
  apply in_flat_map in Hin as (c & Hc & He).
  apply in_flat_map. exists c. split; [assumption|].
  rewrite List.Forall_forall in Hcs. now apply Hcs.
Qed.

Lemma composed_trans (n : node) :
  forall d e, In d (composed n) -> In e (composed d) -> In e (composed n).
Proof.
  induction n as [t a sr cs Hsr Hcs | s] using node_induction;
    intros d e; cbn [composed]; [|tauto].
  intros [<- | Hin] He; [exact He|]. right.
  apply in_app_or in Hin as [Hin | Hin]; apply in_or_app.
  - left. destruct sr as [l|]; [|destruct Hin].
    apply in_flat_map in Hin as (c & Hc & Hd).
    apply in_flat_map. exists c. split; [assumption|].
    rewrite List.Forall_forall in Hsr. now apply (Hsr c Hc d e).
  - right. apply in_flat_map in Hin as (c & Hc & Hd).
    apply in_flat_map. exists c. split; [assumption|].
    rewrite List.Forall_forall in Hcs. now apply (Hcs c Hc d e).
Qed.

Lemma descendants_children_composed (n e : node) :
  In e (descendants (childNodes n)) -> In e (composed n).
Proof.
  destruct n as [t a sr cs | d]; cbn [childNodes composed]; [|intros []].
  unfold descendants. intros Hin. right. apply in_or_app. right.
  apply in_flat_map in Hin as (c & Hc & He).
  apply in_flat_map. exists c. split; [assumption | now apply subtree_composed].
Qed.

Lemma descendants_shadow_composed (n : node) (sr : list node) (e : node) :
  shadowRoot n = Some sr -> In e (descendants sr) -> In e (composed n).
Proof.
  destruct n as [t a s cs | d]; cbn [shadowRoot composed]; [|discriminate].
  intros -> Hin. right. apply in_or_app. left.
  unfold descendants in Hin.
  apply in_flat_map in Hin as (c & Hc & He).
  apply in_flat_map. exists c. split; [assumption | now apply subtree_composed].
Qed.

Lemma child_composed (n c : node) :
  In c (children (childNodes n)) -> In c (composed n).
Proof.
  intros Hc. apply descendants_children_composed.
  unfold children in Hc. apply filter_In in Hc as [Hc He].
  unfold descendants. apply in_flat_map. exists c. split; [assumption|].
  destruct c; [now left | discriminate].
Qed.

Lemma visited_composed (fuel : nat) :
  forall (n : node) (b : list node) (e : node),
    In b (visited fuel n) -> In e (descendants b) -> In e (composed n).
Proof.
  induction fuel as [|fuel IH]; intros n b e; cbn [visited]; [intros []|].
  intros Hb He. apply in_app_or in Hb as [Hb | Hb].
  - destruct (shadowRoot n) as [sr|] eqn:Hsr; [|destruct Hb].
    destruct Hb as [<- | Hb]; [now apply (descendants_shadow_composed n sr)|].
    apply in_flat_map in Hb as (d & Hd & Hb).
    apply (composed_trans n d e).
    + now apply (descendants_shadow_composed n sr).
    + now apply (IH d b e).
  - apply in_flat_map in Hb as (c & Hc & Hb).
    apply (composed_trans n c e).
    + now apply child_composed.
    + now apply (IH c b e).
Qed.

Lemma first_hit_In {A} (f : A -> option node) (l : list A) (e : node) :
  first_hit f l = Some e -> exists x, In x l /\ f x = Some e.
Proof.
  induction l as [|x l IH]; cbn [first_hit]; [discriminate|].
  destruct (f x) as [y|] eqn:Hx; cbn [or_else].
  - intros [= <-]. exists x. split; [now left | exact Hx].
  - intros H. destruct (IH H) as (z & Hz & Hf). exists z. split; [now right | exact Hf].
Qed.

Lemma findByHtmlContent_sound (htmlContent : string) (scope : list node) (e : node) :
  sound_engine querySelector ->
  findByHtmlContent querySelector htmlContent scope = Some e ->
  In e (descendants scope).
Proof.
  intros Hs. rewrite findByHtmlContent_priority. intros H.
  apply first_hit_In in H as (lookup & Hl & He).
  unfold lookups in Hl. cbn [In] in Hl.
  destruct Hl as [<- | [<- | [<- | [<- | [<- | [<- | []]]]]]].
  - unfold by_id in He. destruct (Js.attr_match _ _); [now apply Hs in He | discriminate].
  - unfold by_aria_label in He.
    destruct (Js.attr_match _ _); [now apply Hs in He | discriminate].
  - unfold by_role_and_class in He.
    destruct (Js.attr_match "role" _); [|discriminate].
    destruct (Js.attr_match "class" _); [now apply Hs in He | discriminate].
  - unfold by_role in He. destruct (Js.attr_match _ _); [now apply Hs in He | discriminate].
  - unfold by_class in He. destruct (Js.attr_match _ _); [|discriminate].
    destruct (Nat.ltb _ _); [now apply Hs in He | discriminate].
  - now apply by_text_gate in He as (m & _ & _ & Hin & _).
Qed.

(** X4.  With a selector engine that returns elements of the root it
    is asked about, every element the locator returns lies in the
    composed tree of the root it was given, shadow trees included: it
    never hands out an element from elsewhere. *)
Theorem located_element_in_composed_tree
        (fuel : nat) (selector : string) (htmlContent : option string)
        (root e : node) :
  sound_engine querySelector ->
  height root < fuel ->
  findElementInShadowDOM querySelector fuel selector htmlContent root
  = Some (Some e) ->
  In e (composed root).
Proof.
  intros Hs Hfuel.
  assert (Horder :
            findElementInShadowDOM querySelector fuel selector htmlContent root
            = Some (or_else
                      match htmlContent with
                      | Some (String c h) =>
                          locate_boundary_major querySelector (String c h) root
                      | _ => None
                      end
                      (first_hit (fun scope => querySelector scope selector)
                                 (boundaries root)))).
  { destruct htmlContent as [[|c h]|]; cbn [or_else].
    - apply findElementInShadowDOM_by_selector; [assumption | now right].
    - now apply findElementInShadowDOM_by_content.
    - apply findElementInShadowDOM_by_selector; [assumption | now left]. }
  rewrite Horder. clear Horder.
  assert (Hb : forall b, In b (boundaries root) -> In e (descendants b) ->
                         In e (composed root)).
  { unfold boundaries. intros b [<- | Hb] He.
    - now apply descendants_children_composed.
    - now apply (visited_composed (S (height root)) root b e). }
  remember (boundaries root) as B eqn:HB.
  intros H. injection H as H.
  destruct (match htmlContent with
            | Some (String c h) =>
                locate_boundary_major querySelector (String c h) root
            | _ => None
            end) as [x|] eqn:Hc; cbn [or_else] in H.
  - injection H as ->.
    destruct htmlContent as [[|c h]|]; try discriminate.
    rewrite locate_boundary_major_eq in Hc.
    apply first_hit_In in Hc as (b & Hin & He). rewrite <- HB in Hin.
    apply (Hb b Hin). now apply (findByHtmlContent_sound (String c h)).
  - apply first_hit_In in H as (b & Hin & He).
    apply (Hb b Hin). now apply Hs in He.
Qed.

End LocatorMore.

(** The small selector engine of the worked examples returns elements
    of the root it is asked about. *)
Lemma engine_querySelector_sound : Tree.sound_engine Engine.querySelector.
Proof.
  intros scope selector e. unfold Engine.querySelector.
  destruct (Engine.parse selector) as [s|]; [|discriminate].
  intros H. now apply find_some in H as [H _].
Qed.

(** X3 on the markup of an element with two letters of text. *)
Lemma markup_without_handles_uses_selector_witness :
  Locator.findElementInShadowDOM Engine.querySelector (S (Dom.height Ex.page_body))
    "#save" (Some Ex.b_padded_html) Ex.page_body
  = Locator.findElementInShadowDOM Engine.querySelector (S (Dom.height Ex.page_body))
      "#save" None Ex.page_body.
Proof.
  apply (markup_without_handles_uses_selector Engine.querySelector).
  - unfold Tree.no_handle. vm_compute. repeat split; lia.
  - lia.
Defined.

(** X4 on the worked page: the element found in the shadow tree of the
    widget lies in the composed tree of the body. *)
Lemma located_element_in_composed_tree_witness :
  In Ex.div_save (Tree.composed Ex.page_body).
Proof.
  apply (located_element_in_composed_tree Engine.querySelector
           (S (Dom.height Ex.page_body)) "#save" None
           Ex.page_body Ex.div_save).
  - exact engine_querySelector_sound.
  - lia.
  - vm_compute. reflexivity.
Defined.

(** ** The console summary *)

Section SummaryFacts.
Import Differ Summary.
Context {Element : Type}.
Variable findElementInShadowDOM : option string -> string -> option Element.

Lemma filter_all {A} (f : A -> bool) (l : list A) :
  (forall x, In x l -> f x = true) -> List.filter f l = l.
Proof.
  induction l as [|x l IH]; intros H; simpl; [reflexivity|].
  rewrite (H x) by now left. f_equal. apply IH. intros y Hy. apply H. now right.
Qed.

(** X5.  The summary printed by a call of [logViolations] is never one
    of the messages of its last two branches ('All N accessibility
    violations resolved!' and 'No new accessibility violations found'):
    those branches are entered only with previous violations and without
    new or resolved ones, and with no current violation every previous
    one counts as resolved.  A scan that finds nothing after a scan that
    found something prints the scan update, with every previous
    violation resolved and a total of 0; after a scan that found nothing
    it prints the message of a first scan. *)
Theorem resolved_scan_prints_update
        (results : list Result) (isInitialScan : bool)
        (st : differ_state (Element := Element)) :
  celebrates (console_summary findElementInShadowDOM results isInitialScan st)
  = false /\
  console_summary findElementInShadowDOM [] false st
  = (if Nat.eqb (length (previousViolations st)) 0 then NoViolationsFound
     else ScanUpdate (length (previousViolations st)) 0 0).
Proof.
  assert (Hall : forall prev : list (ViolationLogEntry (Element := Element)),
             List.filter
               (fun v => negb (has_key (map createViolationKey [])
                                       (createViolationKey (as_Result v)))) prev
             = prev).
  { intros prev. apply filter_all. reflexivity. }
  split.
  - unfold console_summary, logViolations. cbn [snd].
    destruct (isInitialScan || Nat.eqb (length (previousViolations st)) 0) eqn:Hb.
    { now destruct (Nat.eqb (length results) 0). }
    apply orb_false_iff in Hb as [_ Hprev].
    destruct results as [|r results].
    + rewrite Hall. cbn [List.filter length Nat.ltb Nat.leb orb].
      destruct (previousViolations st); [discriminate | reflexivity].
    + cbn [length Nat.eqb andb].
      now destruct (_ || _).
  - unfold console_summary, logViolations. cbn [snd orb].
    destruct (Nat.eqb (length (previousViolations st)) 0) eqn:Hprev;
      [reflexivity|].
    rewrite Hall. cbn [List.filter length].
    destruct (previousViolations st); [discriminate | reflexivity].
Qed.

End SummaryFacts.

(** ** The readiness gate, continued *)

Section GateMore.
Import Dom Gate.
Variable loggerPrefix : option string.
Variable targetAt : nat -> node.
Variable nowAt : nat -> Z.
Variables startTime maxWaitTime : Z.

(** X6.  The gate settles at the first check that decides: when the
    promise of [waitForContentReadiness] settles after arming [n]
    timers, each of the checks before the [n]-th found the target not
    ready with less than [maxWaitTime] elapsed, and the value it settles
    with is what [hasContentReady] says at the [n]-th check; it is
    [false] only if [maxWaitTime] or more had elapsed by then.  So a
    target that becomes ready is noticed at the next check, and a target
    that is ready at the check made at or after the deadline still
    resolves [true]. *)
Theorem gate_settles_at_first_decisive_check (fuel : nat) (r : settled) :
  waitForContentReadiness loggerPrefix true targetAt nowAt fuel startTime maxWaitTime
  = Some r ->
  (forall j, j < length (armed r) ->
             hasContentReady true (targetAt j) = false /\
             (nowAt j - startTime < maxWaitTime)%Z) /\
  value r = hasContentReady true (targetAt (length (armed r))) /\
  (value r = false ->
   (maxWaitTime <= nowAt (length (armed r)) - startTime)%Z).
Proof.
  unfold waitForContentReadiness. cbn [negb]. intros H.
  destruct (checkContent_first_decisive loggerPrefix targetAt nowAt startTime
              maxWaitTime fuel 0 r H) as (Hb & Hv & Hd).
  cbn [Nat.add] in *. split; [|split; assumption].
  intros j Hj. apply Hb. lia.
Qed.

End GateMore.

(** X6 on a target that gets its button before the fourth check. *)
Lemma gate_settles_at_first_decisive_check_witness :
  match Gate.waitForContentReadiness None true Ex.targetAt Ex.nowAt 10 1000 5000 with
  | Some r =>
      Gate.value r
      = Gate.hasContentReady true (Ex.targetAt (length (Gate.armed r)))
  | None => False
  end.
Proof.
  destruct (Gate.waitForContentReadiness None true Ex.targetAt Ex.nowAt 10 1000 5000)
    as [r|] eqn:E.
  - apply (gate_settles_at_first_decisive_check None Ex.targetAt Ex.nowAt 1000 5000
             10 r E).
  - vm_compute in E. discriminate.
Defined.

(** ** The overlay and the page *)

Section OverlayMore.
Import Overlay OverlayPage.

Lemma application_page_handles (ids : list string) (c : body_child) :
  In c (body (application_page ids)) ->
  handle c < length ids /\ String.eqb (child_id c) overlay_id = false.
Proof.
  unfold application_page. cbn [body]. intros Hc.
  apply list_elem_of_In, elem_of_lookup_imap in Hc as (i & s & -> & Hs).
  cbn [handle child_id]. split.
  - apply lookup_lt_Some in Hs.
    pose proof (List.filter_length_le
                  (fun s => negb (String.eqb s overlay_id)) ids). lia.
  - apply list_elem_of_lookup_2, list_elem_of_In, filter_In in Hs as [_ Hs].
    now apply negb_true_iff.
Qed.

Lemma filter_application_nodes (ids : list string) (h : nat) :
  length ids <= h ->
  List.filter (fun c => negb (Nat.eqb (handle c) h)) (body (application_page ids))
  = body (application_page ids).
Proof.
  intros Hh. apply filter_all. intros c Hc.
  apply application_page_handles in Hc as [Hc _].
  apply negb_true_iff, Nat.eqb_neq. lia.
Qed.

Lemma own_overlay_last_removeHighlight (ids : list string) (p : page) :
  own_overlay_last ids p ->
  body (removeHighlight p) = body (application_page ids) /\
  highlightedElement (removeHighlight p) = None /\
  fresh (removeHighlight p) = fresh p.
Proof.
  unfold own_overlay_last, removeHighlight. intros [Hf H].
  destruct (highlightedElement p) as [h|] eqn:Hh.
  - destruct H as (Hle & st & Hb). cbn [body highlightedElement fresh].
    rewrite Hb, List.filter_app, filter_application_nodes by lia.
    cbn. rewrite Nat.eqb_refl. cbn. now rewrite app_nil_r.
  - now rewrite Hh.
Qed.

Lemma own_overlay_last_perform (ids : list string) (c : call) (p : page) :
  own_overlay_last ids p -> own_overlay_last ids (perform c p).
Proof.
  intros Hp. pose proof (own_overlay_last_removeHighlight ids p Hp)
    as (Hb & Hh & Hf).
  destruct c as [[|] rect|]; cbn [perform].
  - unfold highlightElement. cbn [negb]. unfold own_overlay_last.
    cbn [body highlightedElement fresh handle]. rewrite Hb, Hf.
    destruct Hp as [Hle _]. split; [lia|]. split; [lia|]. now eexists.
  - exact Hp.
  - unfold own_overlay_last. rewrite Hh, Hf. destruct Hp as [Hle _].
    split; [exact Hle | exact Hb].
Qed.

Lemma filter_overlays_application (ids : list string) :
  List.filter (fun c => String.eqb (child_id c) overlay_id)
              (body (application_page ids)) = [].
Proof.
  apply filter_none. intros c Hc.
  now apply application_page_handles in Hc as [_ Hc].
Qed.

(** X7.  Whatever calls of [highlightElement] and [removeHighlight]
    are made, by instances with highlighting on or off, the children of
    the body are the application's own nodes, all of them and in their
    order, followed by the overlays: drawing and removing the overlay
    never removes, reorders or restyles a node of the page, and the
    overlay is the last child of the body. *)
Theorem highlighting_leaves_page_nodes (ids : list string) (calls : list call) :
  let p := fold_left (fun p c => perform c p) calls (application_page ids) in
  body p = body (application_page ids) ++ overlays p.
Proof.
  cbv zeta.
  assert (H : own_overlay_last ids
                (fold_left (fun p c => perform c p) calls (application_page ids))).
  { assert (Hfold : forall p, own_overlay_last ids p ->
                own_overlay_last ids (fold_left (fun p c => perform c p) calls p)).
    { induction calls as [|c calls IH]; intros p Hp; cbn [fold_left]; [exact Hp|].
      apply IH. now apply own_overlay_last_perform. }
    apply Hfold. unfold own_overlay_last. cbn. split; [lia | reflexivity]. }
  set (p := fold_left _ _ _) in *. destruct H as [_ H]. unfold overlays.
  destruct (highlightedElement p) as [h|].
  - destruct H as (_ & st & ->).
    rewrite List.filter_app, filter_overlays_application. cbn.
    reflexivity.
  - rewrite H, filter_overlays_application. now rewrite app_nil_r.
Qed.

End OverlayMore.

(** ** The running flags *)

Section FlagsFacts.
Import Scheduler Flags.

(** What a stretch of [queuedRun] in its [try] does to the two
    running flags: suspended, it leaves them as its body did; ended, it
    has cleared both; the flags of the other instances are the body's
    matter. *)
Lemma in_try_flags t (body : M control) (st : state) :
  match body st with
  | (Normal (Suspend p), st1) => in_try t body st = (Normal (Suspend p), st1)
  | (_, st1) =>
      exists st2,
        in_try t body st = (Normal Return, st2) /\
        isAxeRunning st2 = false /\
        isRunning (instances st2 (owner t)) = false /\
        forall j, j <> owner t ->
                  isRunning (instances st2 j) = isRunning (instances st1 j)
  end.
Proof.
  unfold in_try. destruct (body st) as [[[p|] | e] st1]; [reflexivity| |].
  - eexists. split; [reflexivity|]. cbn. rewrite Nat.eqb_refl. cbn.
    split; [reflexivity|]. split; [reflexivity|].
    intros j Hj. apply Nat.eqb_neq in Hj. now rewrite Hj.
  - unfold catch_block.
    destruct (is_already_running e), (isInitialScan t); cbn;
      eexists; (split; [reflexivity|]); cbn; rewrite Nat.eqb_refl; cbn;
      (split; [reflexivity|]); (split; [reflexivity|]);
      intros j Hj; apply Nat.eqb_neq in Hj; now rewrite Hj.
Qed.

Lemma scanning_awaiting st t a :
  drains st = [mkDrain t (Awaiting a)] ->
  scanning st = match a with AtImport => None | _ => Some (owner t) end.
Proof. unfold scanning. intros ->. now destruct a. Qed.

Lemma scanning_settled st t p :
  drains st = [mkDrain t p] -> (forall a, p <> Awaiting a) -> scanning st = None.
Proof.
  unfold scanning. intros -> Hp. destruct p as [a| |e]; try reflexivity.
  now destruct (Hp a).
Qed.

(** While instance [i]'s thunk is the one in flight, no other
    instance shows [isRunning]. *)
Lemma flags_others st t a j :
  flags_invariant st -> drains st = [mkDrain t (Awaiting a)] ->
  j <> owner t -> isRunning (instances st j) = false.
Proof.
  intros [_ _ Hl] Hd Hj. destruct (isRunning (instances st j)) eqn:E; [|reflexivity].
  apply Hl in E. rewrite (scanning_awaiting st t a Hd) in E.
  destruct a; congruence.
Qed.

Lemma flags_idle st :
  (isAxeRunning st = true -> scanning st <> None) ->
  (forall i, isRunning (instances st i) = true <-> scanning st = Some i) ->
  scanning st = None ->
  isAxeRunning st = false /\ forall i, isRunning (instances st i) = false.
Proof.
  intros Hg Hl Hs. split.
  - destruct (isAxeRunning st); [now destruct (Hg eq_refl) | reflexivity].
  - intros i. destruct (isRunning (instances st i)) eqn:E; [|reflexivity].
    apply Hl in E. congruence.
Qed.

Lemma flags_continue_thunk k t a (body : M control) st :
  invariant st -> flags_invariant st ->
  drains st !! k = Some (mkDrain t (Awaiting a)) ->
  harmless body ->
  match body st with
  | (Normal (Suspend p), st1) =>
      p <> AtImport /\ isRunning (instances st1 (owner t)) = true
  | _ => True
  end ->
  (forall j, j <> owner t ->
             isRunning (instances (snd (body st)) j) = isRunning (instances st j)) ->
  flags_invariant (continue_thunk k t body st).
Proof.
  intros Hinv Hfl Hk Hb Hsus Hoth.
  destruct (invariant_lookup st k _ Hinv Hk) as (-> & Hd & Hf).
  pose proof (harmless_in_try t body Hb st) as [Fd _ Ff _ _ _ _ _].
  pose proof (in_try_flags t body st) as Htry.
  pose proof (fun j Hj => flags_others st t a j Hfl Hd Hj) as Hfalse.
  unfold continue_thunk.
  destruct (body st) as [[[p|] | e] st1] eqn:Hbody; cbn [snd] in *.
  - rewrite Htry in *. cbn [snd] in *. destruct Hsus as (Hp & Ho).
    assert (Hs : scanning (set_drains (<[0:=mkDrain t (Awaiting p)]> (drains st1)) st1)
                 = Some (owner t)).
    { rewrite (scanning_awaiting _ t p); [now destruct p|].
      cbn. now rewrite Fd, Hd. }
    constructor; rewrite ?Hs.
    + cbn. rewrite Ff, Hf. discriminate.
    + discriminate.
    + intros i. cbn [instances set_drains]. split.
      * intros Hi. destruct (Nat.eq_dec i (owner t)) as [-> | Hne]; [reflexivity|].
        rewrite (Hoth i Hne), (Hfalse i Hne) in Hi. discriminate.
      * intros [= <-]. exact Ho.
  - destruct Htry as (st2 & Htry & Hg & Ho & Hj). rewrite Htry in *. cbn [snd] in *.
    assert (Hs : scanning (set_drains (<[0:=mkDrain t Fulfilled]> (drains st2))
                             (emit (Finished (rid t)) st2)) = None).
    { apply (scanning_settled _ t Fulfilled); [|discriminate].
      cbn. now rewrite Fd, Hd. }
    constructor; rewrite ?Hs.
    + cbn. rewrite Ff, Hf. discriminate.
    + cbn. rewrite Hg. discriminate.
    + intros i. cbn [instances set_drains emit]. split; [|discriminate].
      intros Hi. destruct (Nat.eq_dec i (owner t)) as [-> | Hne]; [congruence|].
      rewrite (Hj i Hne), (Hoth i Hne), (Hfalse i Hne) in Hi. discriminate.
  - destruct Htry as (st2 & Htry & Hg & Ho & Hj). rewrite Htry in *. cbn [snd] in *.
    assert (Hs : scanning (set_drains (<[0:=mkDrain t Fulfilled]> (drains st2))
                             (emit (Finished (rid t)) st2)) = None).
    { apply (scanning_settled _ t Fulfilled); [|discriminate].
      cbn. now rewrite Fd, Hd. }
    constructor; rewrite ?Hs.
    + cbn. rewrite Ff, Hf. discriminate.
    + cbn. rewrite Hg. discriminate.
    + intros i. cbn [instances set_drains emit]. split; [|discriminate].
      intros Hi. destruct (Nat.eq_dec i (owner t)) as [-> | Hne]; [congruence|].
      rewrite (Hj i Hne), (Hoth i Hne), (Hfalse i Hne) in Hi. discriminate.
Qed.

Lemma after_import_flags t failure targetPresent st :
  match after_import t failure targetPresent st with
  | (Normal (Suspend p), st1) =>
      p <> AtImport /\ isRunning (instances st1 (owner t)) = true
  | _ => True
  end /\
  (forall j, j <> owner t ->
             isRunning (instances (snd (after_import t failure targetPresent st)) j)
             = isRunning (instances st j)).
Proof.
  unfold after_import, call_scanner.
  destruct failure as [e|]; [cbn; auto|].
  destruct targetPresent, (isInitialScan t); cbn; rewrite ?Nat.eqb_refl; cbn;
    (split; [try (split; [discriminate | reflexivity]); exact I|]);
    intros j Hj; apply Nat.eqb_neq in Hj; now rewrite Hj.
Qed.

Lemma call_scanner_flags t st :
  call_scanner t st
  = (Normal (Suspend AtScanner),
     emit (ScannerInvoked (rid t) (owner t) (isInitialScan t)) st).
Proof. reflexivity. Qed.

Lemma after_scan_flags t o st :
  match after_scan t o st with
  | (Normal (Suspend p), st1) => False
  | _ => True
  end /\
  (forall j, isRunning (instances (snd (after_scan t o st)) j)
             = isRunning (instances st j)).
Proof.
  unfold after_scan. destruct o as [e | [e|]]; cbn; auto.
  destruct (isInitialScan t); cbn; [|auto].
  split; [exact I|]. intros j. now destruct (Nat.eqb j (owner t)).
Qed.

Lemma flags_loop_head st :
  isAxeRunning st = false ->
  (forall i, isRunning (instances st i) = false) ->
  match loop_head st with
  | (Some d, st1) =>
      at_point d = Awaiting AtImport /\
      isAxeRunning st1 = false /\
      (forall i, isRunning (instances st1 i) = false) /\
      isProcessingQueue st1 = isProcessingQueue st /\
      started (log st1) = rid (current d) :: started (log st)
  | (None, st1) =>
      axeQueue st1 = [] /\ isProcessingQueue st1 = false /\
      isAxeRunning st1 = false /\
      (forall i, isRunning (instances st1 i) = false) /\
      drains st1 = drains st /\
      started (log st1) = started (log st)
  end.
Proof.
  intros Hg Hl. unfold loop_head, start_thunk.
  destruct (axeQueue st) as [|t rest] eqn:Hq.
  - cbn. rewrite Hq. repeat split; auto.
  - cbn [isAxeRunning emit set_axeQueue]. rewrite Hg. cbn. repeat split; auto.
Qed.

Lemma flags_processAxeQueue st :
  invariant st ->
  (isAxeRunning st = true -> scanning st <> None) ->
  (forall i, isRunning (instances st i) = true <-> scanning st = Some i) ->
  flags_invariant (processAxeQueue st).
Proof.
  intros Hinv Hg Hl. unfold processAxeQueue.
  destruct (isProcessingQueue st) eqn:Hf; cbn [orb].
  { constructor; try assumption. rewrite Hf. discriminate. }
  destruct (Nat.eqb (length (axeQueue st)) 0) eqn:Hq.
  { constructor; try assumption.
    intros _. apply Nat.eqb_eq in Hq. now destruct (axeQueue st). }
  destruct Hinv as [I1 _ _ _ _ _]. specialize (I1 Hf).
  assert (Hs : scanning st = None) by (unfold scanning; now rewrite I1).
  destruct (flags_idle st Hg Hl Hs) as [Hg0 Hl0].
  pose proof (flags_loop_head (set_isProcessingQueue true st) Hg0 Hl0) as Hh.
  pose proof (loop_head_keeps (set_isProcessingQueue true st)) as (_ & _ & _ & _ & Hd).
  destruct (loop_head (set_isProcessingQueue true st)) as [[[t p]|] st1];
    cbn [snd] in *.
  - destruct Hh as (Hat & Hg1 & Hl1 & Hf1 & _). cbn in Hd, Hf1, Hat. subst p.
    assert (Hs1 : scanning (set_drains (drains st1 ++ [mkDrain t (Awaiting AtImport)]) st1)
                  = None).
    { unfold scanning. cbn. now rewrite Hd, I1. }
    constructor; rewrite ?Hs1.
    + cbn. rewrite Hf1. discriminate.
    + cbn. rewrite Hg1. discriminate.
    + intros i. cbn. rewrite Hl1. split; discriminate.
  - destruct Hh as (Hq1 & Hf1 & Hg1 & Hl1 & Hd1 & _).
    assert (Hs1 : scanning st1 = None)
      by (unfold scanning; cbn in Hd1; now rewrite Hd1, I1).
    constructor; rewrite ?Hs1.
    + intros _. exact Hq1.
    + rewrite Hg1. discriminate.
    + intros i. rewrite Hl1. split; discriminate.
Qed.

Lemma flags_runAxe i b st :
  invariant st -> flags_invariant st -> flags_invariant (snd (runAxe i b st)).
Proof.
  intros Hinv Hfl. unfold runAxe.
  destruct (negb (enabled (instances st i))); [exact Hfl|].
  destruct (b && hasRunInitialScan (instances st i)); [exact Hfl|].
  cbn [snd]. destruct Hfl as [Hq Hg Hl]. apply flags_processAxeQueue.
  - destruct Hinv as [I1 I2 I3 I4 I5 I6].
    constructor; cbn; try assumption.
    + rewrite I4, map_app. cbn. now rewrite app_assoc.
    + split; [|exact I5]. now apply serial_in_flight.
  - exact Hg.
  - exact Hl.
Qed.

Lemma flags_cleanup i st : flags_invariant st -> flags_invariant (cleanup i st).
Proof.
  intros [Hq Hg Hl]. unfold cleanup.
  destruct (Nat.eqb _ 0); constructor; try assumption. discriminate.
Qed.

Lemma flags_continue_drain k t st :
  invariant st -> flags_invariant st ->
  drains st !! k = Some (mkDrain t Fulfilled) ->
  flags_invariant (continue_drain k Fulfilled st).
Proof.
  intros Hinv Hfl Hk.
  destruct (invariant_lookup st k _ Hinv Hk) as (-> & Hd & Hf).
  assert (Hs : scanning st = None) by (unfold scanning; now rewrite Hd).
  destruct Hfl as [Hq Hg Hl].
  destruct (flags_idle st Hg Hl Hs) as [Hg0 Hl0].
  unfold continue_drain.
  pose proof (flags_loop_head st Hg0 Hl0) as Hh.
  pose proof (loop_head_keeps st) as (_ & _ & _ & _ & Hdr).
  destruct (loop_head st) as [[[t' p]|] st1]; cbn [snd] in *.
  - destruct Hh as (Hat & Hg1 & Hl1 & Hf1 & _). cbn in Hat. subst p.
    assert (Hs1 : scanning (set_drains (<[0:=mkDrain t' (Awaiting AtImport)]> (drains st1)) st1)
                  = None).
    { unfold scanning. cbn. now rewrite Hdr, Hd. }
    constructor; rewrite ?Hs1.
    + cbn. rewrite Hf1, Hf. discriminate.
    + cbn. rewrite Hg1. discriminate.
    + intros i. cbn. rewrite Hl1. split; discriminate.
  - destruct Hh as (Hq1 & Hf1 & Hg1 & Hl1 & Hd1 & _).
    assert (Hs1 : scanning (set_drains (delete 0 (drains st1)) st1) = None).
    { unfold scanning. cbn. now rewrite Hd1, Hd. }
    constructor; rewrite ?Hs1.
    + intros _. exact Hq1.
    + cbn. rewrite Hg1. discriminate.
    + intros i. cbn. rewrite Hl1. split; discriminate.
Qed.

Lemma flags_step l st st' :
  invariant st -> flags_invariant st -> step l st = Some st' ->
  flags_invariant st'.
Proof.
  intros Hinv Hfl Hstep. destruct l as [i b | i | k f tp | k r | k o | k | k];
    cbn [step] in Hstep.
  - injection Hstep as <-. now apply flags_runAxe.
  - injection Hstep as <-. now apply flags_cleanup.
  - destruct (drains st !! k) as [[t [[| |]| |]]|] eqn:Hk; try discriminate.
    injection Hstep as <-.
    destruct (after_import_flags t f tp st) as [H1 H2].
    apply (flags_continue_thunk k t AtImport _ st Hinv Hfl Hk);
      [apply harmless_after_import | exact H1 | exact H2].
  - destruct (drains st !! k) as [[t [[| |]| |]]|] eqn:Hk; try discriminate.
    injection Hstep as <-.
    destruct (invariant_lookup st k _ Hinv Hk) as (_ & Hd & _).
    apply (flags_continue_thunk k t AtReadiness _ st Hinv Hfl Hk).
    + apply harmless_call_scanner.
    + unfold after_readiness. rewrite call_scanner_flags. cbn.
      destruct Hfl as [_ Hg Hl].
      assert (Hs : scanning st = Some (owner t))
        by (unfold scanning; now rewrite Hd).
      split; [discriminate | now apply Hl].
    + intros j _. reflexivity.
  - destruct (drains st !! k) as [[t [[| |]| |]]|] eqn:Hk; try discriminate.
    injection Hstep as <-.
    destruct (after_scan_flags t o st) as [H1 H2].
    apply (flags_continue_thunk k t AtScanner _ st Hinv Hfl Hk).
    + apply harmless_after_scan.
    + destruct (after_scan t o st) as [[[p|] | e] st1]; [destruct H1 | exact I | exact I].
    + intros j _. apply H2.
  - destruct (drains st !! k) as [[t [[| |]| |e]]|] eqn:Hk; try discriminate.
    + injection Hstep as <-. eapply flags_continue_drain; eauto.
    + destruct (invariant_lookup st k _ Hinv Hk) as (_ & Hd & _).
      destruct Hinv as [_ _ _ _ _ I6].
      exfalso. apply (I6 (mkDrain t (Rejected e)) e); [rewrite Hd; now left | reflexivity].
  - destruct (timers st !! k) as [[ms [i|i]]|] eqn:Hk; try discriminate;
      injection Hstep as <-.
    + apply flags_runAxe.
      * destruct Hinv as [I1 I2 I3 I4 I5 I6]. constructor; assumption.
      * destruct Hfl as [Hq Hg Hl]. constructor; assumption.
    + destruct Hfl as [Hq Hg Hl]. constructor; assumption.
Qed.

Lemma flags_init on : flags_invariant (init on).
Proof.
  constructor; cbn; try reflexivity; try discriminate.
  intros i. split; discriminate.
Qed.

Lemma reachable_flags on st : reachable on st -> flags_invariant st.
Proof.
  induction 1 as [|l st st' Hr IH Hstep]; [apply flags_init|].
  eapply flags_step; eauto. eapply reachable_invariant; eauto.
Qed.

End FlagsFacts.

(** ** Draining the queue *)

Section ProgressFacts.
Import Scheduler Flags Progress.
Variable env : nat -> answers.

(** An activation that continues its thunk is left waiting where the
    thunk suspended, or with the thunk fulfilled; nothing is submitted
    and the queue is as it was. *)
Lemma continue_thunk_shape t a (body : M control) st :
  harmless body ->
  drains st = [mkDrain t (Awaiting a)] ->
  axeQueue (continue_thunk 0 t body st) = axeQueue st /\
  submitted (log (continue_thunk 0 t body st)) = submitted (log st) /\
  drains (continue_thunk 0 t body st)
  = [mkDrain t match body st with
               | (Normal (Suspend p), _) => Awaiting p
               | _ => Fulfilled
               end].
Proof.
  intros Hb Hd.
  pose proof (harmless_in_try t body Hb st) as [Fd Fq _ _ (evs & Hl & Hquiet) _ _ _].
  pose proof (in_try_flags t body st) as Htry.
  unfold continue_thunk.
  destruct (body st) as [[[p|] | e] st1].
  - rewrite Htry in *. cbn [snd] in *. cbn. rewrite Fd, Fq, Hd, Hl.
    rewrite submitted_quiet by assumption. auto.
  - destruct Htry as (st2 & Htry & _). rewrite Htry in *. cbn [snd] in *.
    cbn. rewrite Fd, Fq, Hd, Hl. rewrite submitted_quiet by assumption. auto.
  - destruct Htry as (st2 & Htry & _). rewrite Htry in *. cbn [snd] in *.
    cbn. rewrite Fd, Fq, Hd, Hl. rewrite submitted_quiet by assumption. auto.
Qed.

(** The step that is due can be made, and it brings the end of the
    draining nearer. *)
Lemma settle_step st d :
  invariant st -> drains st = [d] ->
  exists l st',
    settle env st = Some l /\ step l st = Some st' /\
    remaining st' < remaining st /\
    submitted (log st') = submitted (log st).
Proof.
  intros Hinv Hd. destruct d as [t p].
  assert (Hk : drains st !! 0 = Some (mkDrain t p)) by now rewrite Hd.
  unfold settle, remaining. rewrite Hd. cbn [current at_point rid rank].
  destruct p as [[| |] | | e]; cbn [rank at_point].
  - eexists. eexists. split; [reflexivity|]. cbn [step]. rewrite Hk. cbv beta iota.
    split; [reflexivity|].
    destruct (continue_thunk_shape t AtImport
                (after_import t (a_failure (env (rid t))) (a_target (env (rid t))))
                st (harmless_after_import _ _ _) Hd) as (Hq & Hs & Hdr).
    rewrite Hdr, Hq. split; [|exact Hs].
    pose proof (after_import_flags t (a_failure (env (rid t)))
                  (a_target (env (rid t))) st) as [Hp _].
    destruct (after_import _ _ _ st) as [[[[| |]|] | e] st1];
      cbn [rank at_point]; try lia. now destruct Hp.
  - eexists. eexists. split; [reflexivity|]. cbn [step]. rewrite Hk. cbv beta iota.
    split; [reflexivity|].
    destruct (continue_thunk_shape t AtReadiness
                (after_readiness t (a_ready (env (rid t))))
                st (harmless_call_scanner _) Hd) as (Hq & Hs & Hdr).
    rewrite Hdr, Hq. split; [|exact Hs].
    unfold after_readiness. rewrite call_scanner_flags. cbn [rank at_point]. lia.
  - eexists. eexists. split; [reflexivity|]. cbn [step]. rewrite Hk. cbv beta iota.
    split; [reflexivity|].
    destruct (continue_thunk_shape t AtScanner
                (after_scan t (a_scan (env (rid t))))
                st (harmless_after_scan _ _) Hd) as (Hq & Hs & Hdr).
    rewrite Hdr, Hq. split; [|exact Hs].
    pose proof (after_scan_flags t (a_scan (env (rid t))) st) as [Hp _].
    destruct (after_scan _ _ st) as [[[q|] | e] st1];
      cbn [rank at_point]; [destruct Hp | lia | lia].
  - eexists. eexists. split; [reflexivity|]. cbn [step]. rewrite Hk. cbv beta iota.
    split; [reflexivity|].
    unfold continue_drain, loop_head, start_thunk.
    destruct (axeQueue st) as [|t' rest] eqn:Hq.
    + cbn. rewrite Hd. cbn. split; [lia | reflexivity].
    + cbn [isAxeRunning emit set_axeQueue].
      destruct (isAxeRunning st); cbn; rewrite Hd; cbn; split; try reflexivity; lia.
  - exfalso. destruct Hinv as [_ _ _ _ _ I6].
    apply (I6 (mkDrain t (Rejected e)) e); [rewrite Hd; now left | reflexivity].
Qed.

(** With no further request, the steps that are due drain the queue:
    they end, and in the state they end in no activation is left. *)
Lemma settle_all_drains (on : nat -> bool) (fuel : nat) :
  forall st,
    reachable on st -> remaining st < fuel ->
    exists st',
      settle_all env fuel st = Some st' /\
      reachable on st' /\ drains st' = [] /\
      submitted (log st') = submitted (log st).
Proof.
  induction fuel as [|fuel IH]; intros st Hr Hlt; [lia|].
  pose proof (reachable_invariant on st Hr) as Hinv.
  destruct (isProcessingQueue st) eqn:Hf.
  - destruct (inv_busy st Hinv Hf) as (d & Hd).
    destruct (settle_step st d Hinv Hd) as (l & st1 & Hl & Hs & Hrem & Hsub).
    cbn [settle_all]. rewrite Hl, Hs.
    destruct (IH st1) as (st' & Hall & Hr' & Hd' & Hsub').
    + eapply reachable_step; eauto.
    + lia.
    + exists st'. split; [exact Hall|]. split; [exact Hr'|]. split; [exact Hd'|].
      congruence.
  - pose proof (inv_idle st Hinv Hf) as Hd.
    exists st. cbn [settle_all]. unfold settle. rewrite Hd. auto.
Qed.

Lemma remaining_bound st :
  invariant st -> remaining st <= 4 * (length (axeQueue st) + 1).
Proof.
  intros Hinv. unfold remaining.
  destruct (drains st) as [|[t p] ds]; [lia|].
  unfold rank. cbn [at_point]. destruct p as [[| |] | |]; lia.
Qed.

(** Every request that waits is taken: with no further request, the
    steps that are due end in a state with nothing queued, nothing in
    flight and the draining flag cleared, in which the requests started
    are those started before followed by those that were queued, in the
    order of the queue. *)
Lemma queued_requests_are_run (on : nat -> bool) (fuel : nat) (st : state) :
  reachable on st ->
  4 * (length (axeQueue st) + 1) < fuel ->
  exists st',
    settle_all env fuel st = Some st' /\
    reachable on st' /\
    isProcessingQueue st' = false /\
    axeQueue st' = [] /\
    drains st' = [] /\
    in_flight (log st') = [] /\
    rev (started (log st')) = rev (started (log st)) ++ map rid (axeQueue st).
Proof.
  intros Hr Hfuel.
  pose proof (reachable_invariant on st Hr) as Hinv.
  pose proof (remaining_bound st Hinv) as Hb.
  destruct (settle_all_drains on fuel st Hr ltac:(lia)) as (st' & Hall & Hr' & Hd & Hs).
  pose proof (reachable_invariant on st' Hr') as [I1 I2 I3 I4 _ _].
  pose proof (reachable_flags on st' Hr') as [Hq _ _].
  assert (Hf : isProcessingQueue st' = false).
  { destruct (isProcessingQueue st'); [|reflexivity].
    destruct (I2 eq_refl) as (d & Hd'). congruence. }
  exists st'. split; [exact Hall|]. split; [exact Hr'|]. split; [exact Hf|].
  split; [now apply Hq|]. split; [exact Hd|]. split.
  - rewrite I3, Hd. reflexivity.
  - rewrite (Hq Hf) in I4. cbn in I4. rewrite app_nil_r in I4.
    rewrite <- I4, Hs. apply (inv_fifo st Hinv).
Qed.

End ProgressFacts.

Section FlagsTheorems.
Import Scheduler Flags.

(** X8.  In every state the scheduler can reach, the [isRunning] flag
    of an instance is set exactly while a scan of that instance is under
    way, between the end of its import and the end of its [queuedRun]:
    so at most one instance shows [isRunning] at a time; the global flag
    [isAxeRunning] is set only during such a scan (a [cleanup] can clear
    it earlier); and such a scan exists only while the queue is being
    drained. *)
Theorem running_flags_follow_the_scan (on : nat -> bool) (st : state) (i j : nat) :
  reachable on st ->
  (isRunning (instances st i) = true <-> scanning st = Some i) /\
  (isRunning (instances st i) = true -> isRunning (instances st j) = true -> i = j) /\
  (isAxeRunning st = true -> exists k, scanning st = Some k) /\
  (scanning st = Some i -> isProcessingQueue st = true).
Proof.
  intros Hr. pose proof (reachable_flags on st Hr) as [Hq Hg Hl].
  pose proof (reachable_invariant on st Hr) as [I1 _ _ _ _ _].
  split; [apply Hl|]. split; [|split].
  - intros Hi Hj. apply Hl in Hi, Hj. congruence.
  - intros H. specialize (Hg H). destruct (scanning st) as [k|]; [now exists k | congruence].
  - intros Hs. destruct (isProcessingQueue st); [reflexivity|].
    unfold scanning in Hs. rewrite (I1 eq_refl) in Hs. discriminate.
Qed.

Lemma rev_injective {A} (l1 l2 : list A) : rev l1 = rev l2 -> l1 = l2.
Proof. intros H. rewrite <- (rev_involutive l1), H. apply rev_involutive. Qed.

(** X9.  No request is left behind.  In every reachable state in
    which the queue is not being drained, the queue is empty, every
    request submitted so far has been started, none is in flight, and
    no running flag is set.  A request waits in the queue only while the
    draining flag is set and an activation of [processAxeQueue] exists,
    and that activation takes it: whatever the environment answers,
    when no further request arrives the steps that are due can all be
    made and end in a state with an empty queue in which every request
    that was queued has been started. *)
Theorem idle_queue_is_empty (on : nat -> bool) (st : state) :
  reachable on st ->
  (isProcessingQueue st = false ->
   axeQueue st = [] /\
   started (log st) = submitted (log st) /\
   in_flight (log st) = [] /\
   isAxeRunning st = false /\
   (forall i, isRunning (instances st i) = false)) /\
  (axeQueue st <> [] ->
   isProcessingQueue st = true /\ exists d, drains st = [d]) /\
  (forall (env : nat -> Progress.answers) (fuel : nat),
      4 * (length (axeQueue st) + 1) < fuel ->
      exists st',
        Progress.settle_all env fuel st = Some st' /\
        isProcessingQueue st' = false /\
        axeQueue st' = [] /\
        forall t, In t (axeQueue st) -> In (rid t) (started (log st'))).
Proof.
  intros Hr. pose proof (reachable_flags on st Hr) as [Hq Hg Hl].
  pose proof (reachable_invariant on st Hr) as [I1 I2 I3 I4 _ _].
  split; [|split].
  - intros Hf. specialize (Hq Hf). specialize (I1 Hf).
    assert (Hs : scanning st = None) by (unfold scanning; now rewrite I1).
    destruct (flags_idle st Hg Hl Hs) as [Hg0 Hl0].
    split; [exact Hq|]. split; [|split; [|split; assumption]].
    + rewrite Hq in I4. cbn in I4. rewrite app_nil_r in I4.
      symmetry. now apply rev_injective.
    + rewrite I3, I1. reflexivity.
  - intros Hne. destruct (isProcessingQueue st) eqn:Hf.
    + split; [reflexivity | now apply I2].
    + now destruct (Hne (Hq eq_refl)).
  - intros env fuel Hfuel.
    destruct (queued_requests_are_run env on fuel st Hr Hfuel)
      as (st' & Hall & _ & Hf & Hq' & _ & _ & Hst).
    exists st'. split; [exact Hall|]. split; [exact Hf|]. split; [exact Hq'|].
    intros t Ht. apply in_rev. rewrite Hst. apply in_or_app. right.
    now apply in_map.
Qed.

Lemma started_continue_thunk k t (body : M control) st :
  harmless body ->
  started (log (continue_thunk k t body st)) = started (log st).
Proof.
  intros Hb. pose proof (harmless_in_try t body Hb st) as [_ _ _ _ (evs & Hl & Hq) _ _ _].
  unfold continue_thunk.
  destruct (in_try t body st) as [[[p|] | e] st1]; cbn in *;
    rewrite Hl; now apply started_quiet.
Qed.

Lemma started_runAxe i b st :
  invariant st -> flags_invariant st ->
  started (log (snd (runAxe i b st))) = started (log st) \/
  exists t, drains (snd (runAxe i b st)) = [mkDrain t (Awaiting AtImport)] /\
            started (log (snd (runAxe i b st))) = rid t :: started (log st).
Proof.
  intros Hinv [Hq Hg Hl]. unfold runAxe.
  destruct (negb (enabled (instances st i))); [now left|].
  destruct (b && hasRunInitialScan (instances st i)); [now left|].
  cbn [snd]. unfold processAxeQueue.
  cbn [isProcessingQueue set_next_rid emit set_axeQueue axeQueue].
  destruct (isProcessingQueue st) eqn:Hf; cbn [orb]; [now left|].
  destruct (Nat.eqb _ 0); [now left|].
  destruct Hinv as [I1 _ _ _ _ _]. specialize (I1 Hf).
  assert (Hs : scanning st = None) by (unfold scanning; now rewrite I1).
  destruct (flags_idle st Hg Hl Hs) as [Hg0 Hl0].
  set (st1 := set_isProcessingQueue true _).
  pose proof (flags_loop_head st1 Hg0 Hl0) as Hh.
  pose proof (loop_head_keeps st1) as (_ & _ & _ & _ & Hd).
  destruct (loop_head st1) as [[[t p]|] st2]; cbn [snd] in *.
  - destruct Hh as (Hat & _ & _ & _ & Hst). cbn in Hat, Hst, Hd. subst p.
    right. exists t. cbn. rewrite Hd, I1. split; [reflexivity | exact Hst].
  - destruct Hh as (_ & _ & _ & _ & _ & Hst). left. exact Hst.
Qed.

(** X10.  The guard at the head of [queuedRun] ([if (isAxeRunning)
    return]) never fires: whenever a step of a reachable state starts a
    request, that request is the only one in flight and is waiting for
    its import, so it goes on to the scan setup.  No request is skipped
    silently. *)
Theorem started_request_awaits_import
        (on : nat -> bool) (l : label) (st st' : state) :
  reachable on st ->
  step l st = Some st' ->
  started (log st') <> started (log st) ->
  exists t, drains st' = [mkDrain t (Awaiting AtImport)] /\
            started (log st') = rid t :: started (log st).
Proof.
  intros Hr Hstep Hne.
  pose proof (reachable_flags on st Hr) as Hfl.
  pose proof (reachable_invariant on st Hr) as Hinv.
  destruct l as [i b | i | k f tp | k r | k o | k | k]; cbn [step] in Hstep.
  - injection Hstep as <-.
    destruct (started_runAxe i b st Hinv Hfl) as [H | H]; [congruence | exact H].
  - injection Hstep as <-. exfalso. apply Hne. unfold cleanup.
    now destruct (Nat.eqb _ 0).
  - destruct (drains st !! k) as [[t [[| |]| |]]|] eqn:Hk; try discriminate.
    injection Hstep as <-. exfalso. apply Hne.
    apply started_continue_thunk, harmless_after_import.
  - destruct (drains st !! k) as [[t [[| |]| |]]|] eqn:Hk; try discriminate.
    injection Hstep as <-. exfalso. apply Hne.
    apply started_continue_thunk, harmless_call_scanner.
  - destruct (drains st !! k) as [[t [[| |]| |]]|] eqn:Hk; try discriminate.
    injection Hstep as <-. exfalso. apply Hne.
    apply started_continue_thunk, harmless_after_scan.
  - destruct (drains st !! k) as [[t [[| |]| |e]]|] eqn:Hk; try discriminate.
    + injection Hstep as <-.
      destruct (invariant_lookup st k _ Hinv Hk) as (-> & Hd & Hf).
      assert (Hs : scanning st = None) by (unfold scanning; now rewrite Hd).
      destruct Hfl as [Hq Hg Hl].
      destruct (flags_idle st Hg Hl Hs) as [Hg0 Hl0].
      unfold continue_drain in *.
      pose proof (flags_loop_head st Hg0 Hl0) as Hh.
      pose proof (loop_head_keeps st) as (_ & _ & _ & _ & Hdr).
      destruct (loop_head st) as [[[t' p]|] st1]; cbn [snd] in *.
      * destruct Hh as (Hat & _ & _ & _ & Hst). cbn in Hat, Hst. subst p.
        exists t'. cbn. rewrite Hdr, Hd. split; [reflexivity | exact Hst].
      * destruct Hh as (_ & _ & _ & _ & _ & Hst). cbn in Hne. congruence.
    + destruct (invariant_lookup st k _ Hinv Hk) as (_ & Hd & _).
      destruct Hinv as [_ _ _ _ _ I6].
      exfalso. apply (I6 (mkDrain t (Rejected e)) e); [rewrite Hd; now left | reflexivity].
  - destruct (timers st !! k) as [[ms [i|i]]|] eqn:Hk; try discriminate;
      injection Hstep as <-.
    + assert (Hinv' : invariant (set_timers (delete k (timers st)) st))
        by (destruct Hinv; constructor; assumption).
      assert (Hfl' : flags_invariant (set_timers (delete k (timers st)) st))
        by (destruct Hfl; constructor; assumption).
      destruct (started_runAxe i true _ Hinv' Hfl') as [H | H];
        [cbn in H; congruence | exact H].
    + exfalso. apply Hne. reflexivity.
Qed.

End FlagsTheorems.

(** X8 on a worked run: the scan of instance 0 is under way. *)
Lemma running_flags_follow_the_scan_witness :
  match Scheduler.run Ex.two_instances_one_scanning (Scheduler.init Ex.all_enabled) with
  | Some st =>
      Scheduler.isRunning (Scheduler.instances st 0) = true <->
      Flags.scanning st = Some 0
  | None => False
  end.
Proof.
  destruct (Scheduler.run Ex.two_instances_one_scanning (Scheduler.init Ex.all_enabled))
    as [st|] eqn:E.
  - apply (running_flags_follow_the_scan Ex.all_enabled st 0 0).
    eapply run_reachable; [apply Scheduler.reachable_init | exact E].
  - vm_compute in E. discriminate E.
Defined.

(** X9 on a worked run: the scan of instance 0 is under way and the
    request of instance 1 waits in the queue. *)
Lemma idle_queue_is_empty_witness :
  match Scheduler.run Ex.two_instances_one_scanning (Scheduler.init Ex.all_enabled) with
  | Some st =>
      (Scheduler.isProcessingQueue st = false ->
       Scheduler.axeQueue st = [] /\
       Scheduler.started (Scheduler.log st) = Scheduler.submitted (Scheduler.log st) /\
       Scheduler.in_flight (Scheduler.log st) = [] /\
       Scheduler.isAxeRunning st = false /\
       (forall i, Scheduler.isRunning (Scheduler.instances st i) = false)) /\
      (Scheduler.axeQueue st <> [] ->
       Scheduler.isProcessingQueue st = true /\ exists d, Scheduler.drains st = [d]) /\
      (forall (env : nat -> Progress.answers) (fuel : nat),
          4 * (length (Scheduler.axeQueue st) + 1) < fuel ->
          exists st',
            Progress.settle_all env fuel st = Some st' /\
            Scheduler.isProcessingQueue st' = false /\
            Scheduler.axeQueue st' = [] /\
            forall t, In t (Scheduler.axeQueue st) ->
                      In (Scheduler.rid t) (Scheduler.started (Scheduler.log st')))
  | None => False
  end.
Proof.
  destruct (Scheduler.run Ex.two_instances_one_scanning (Scheduler.init Ex.all_enabled))
    as [st|] eqn:E.
  - apply (idle_queue_is_empty Ex.all_enabled).
    eapply run_reachable; [apply Scheduler.reachable_init | exact E].
  - vm_compute in E. discriminate E.
Defined.

(** X10 on the first request of a page. *)
Lemma started_request_awaits_import_witness :
  exists t,
    Scheduler.drains (snd (Scheduler.runAxe 0 true (Scheduler.init Ex.all_enabled)))
    = [Scheduler.mkDrain t (Scheduler.Awaiting Scheduler.AtImport)] /\
    Scheduler.started
      (Scheduler.log (snd (Scheduler.runAxe 0 true (Scheduler.init Ex.all_enabled))))
    = Scheduler.rid t :: Scheduler.started (Scheduler.log (Scheduler.init Ex.all_enabled)).
Proof.
  apply (started_request_awaits_import Ex.all_enabled (Scheduler.CallRunAxe 0 true)
           (Scheduler.init Ex.all_enabled)).
  - apply Scheduler.reachable_init.
  - reflexivity.
  - vm_compute. discriminate.
Defined.

(** ** A disabled instance *)

Section InertFacts.
Import Scheduler Flags.
Variable i : nat.

Lemma keeps_refl st : keeps i st st.
Proof. constructor; auto. Qed.

Lemma keeps_trans st1 st2 st3 : keeps i st1 st2 -> keeps i st2 st3 -> keeps i st1 st3.
Proof.
  intros [t1 h1 i1 s1] [t2 h2 i2 s2]. constructor; auto; congruence.
Qed.

Lemma careful_bind {A B} (c : M A) (k : A -> M B) :
  careful i c -> (forall a, careful i (k a)) -> careful i (bind c k).
Proof.
  intros Hc Hk st. unfold bind. specialize (Hc st).
  destruct (c st) as [[a | e] st1]; cbn [snd] in *; [|exact Hc].
  eapply keeps_trans; [exact Hc | apply Hk].
Qed.

Lemma careful_ret {A} (a : A) : careful i (ret a).
Proof. intros st. apply keeps_refl. Qed.

Lemma careful_throw {A} (e : js_error) : careful i (@throw A e).
Proof. intros st. apply keeps_refl. Qed.

Lemma careful_exec (f : state -> state) :
  (forall st, keeps i st (f st)) -> careful i (exec f).
Proof. intros H st. apply H. Qed.

Lemma keeps_update_instance o f st : o <> i -> keeps i st (update_instance o f st).
Proof.
  intros Ho. constructor; auto. cbn.
  destruct (Nat.eqb_spec i o); [congruence | reflexivity].
Qed.

Lemma keeps_set_isAxeRunning b st : keeps i st (set_isAxeRunning b st).
Proof. constructor; auto. Qed.

Lemma keeps_setTimeout a ms st :
  a <> RetryInitialScan i -> a <> SetupWatchers i ->
  keeps i st (setTimeout a ms st).
Proof.
  intros H1 H2. constructor; auto. cbn. intros H.
  apply List.Forall_app. split; [exact H|]. constructor; [split; assumption | constructor].
Qed.

Lemma keeps_add_handle o st :
  o <> i -> keeps i st (set_axeInstances ({[o]} ∪ axeInstances st) st).
Proof.
  intros Ho. constructor; auto. cbn. intros Hn Hin.
  apply elem_of_union in Hin as [Hin | Hin]; [|auto].
  apply elem_of_singleton in Hin. congruence.
Qed.

Lemma keeps_emit e st : scans_of i [e] = [] -> keeps i st (emit e st).
Proof.
  intros He. constructor; auto. cbn [log emit].
  change (e :: log st) with ([e] ++ log st).
  unfold scans_of in *. now rewrite List.filter_app, He.
Qed.

Section OtherOwner.
Variable t : thunk.
Hypothesis other : owner t <> i.

Lemma careful_catch_block e : careful i (catch_block t e).
Proof.
  unfold catch_block.
  destruct (is_already_running e), (isInitialScan t);
    try apply careful_ret; apply careful_exec; intros st.
  - apply keeps_setTimeout; congruence.
  - now apply keeps_emit.
  - now apply keeps_emit.
Qed.

Lemma careful_finally_block : careful i (finally_block t).
Proof.
  unfold finally_block. apply careful_bind; [|intros _];
    apply careful_exec; intros st.
  - now apply keeps_update_instance.
  - apply keeps_set_isAxeRunning.
Qed.

Lemma careful_call_scanner : careful i (call_scanner t).
Proof.
  unfold call_scanner. apply careful_bind; [|intros _; apply careful_ret].
  apply careful_exec. intros st. apply keeps_emit. cbn.
  destruct (Nat.eqb_spec (owner t) i); [congruence | reflexivity].
Qed.

Lemma careful_after_import failure targetPresent :
  careful i (after_import t failure targetPresent).
Proof.
  unfold after_import. destruct failure as [e|]; [apply careful_throw|].
  apply careful_bind; [apply careful_exec; intros st; apply keeps_set_isAxeRunning|].
  intros _.
  apply careful_bind;
    [apply careful_exec; intros st; now apply keeps_update_instance|].
  intros _.
  apply careful_bind;
    [apply careful_exec; intros st; now apply keeps_add_handle|].
  intros _. destruct targetPresent; cbn [negb].
  - destruct (isInitialScan t); [apply careful_ret | apply careful_call_scanner].
  - apply careful_bind; [|intros _; apply careful_ret].
    apply careful_exec. intros st. now apply keeps_emit.
Qed.

Lemma careful_after_scan o : careful i (after_scan t o).
Proof.
  unfold after_scan. destruct o as [e | [e|]]; try apply careful_throw.
  apply careful_bind; [|intros _; apply careful_ret].
  destruct (isInitialScan t); [|apply careful_ret].
  apply careful_bind; [|intros _]; apply careful_exec; intros st.
  - now apply keeps_update_instance.
  - apply keeps_setTimeout; congruence.
Qed.

Lemma careful_in_try (body : M control) :
  careful i body -> careful i (in_try t body).
Proof.
  intros Hb st. unfold in_try. specialize (Hb st).
  destruct (body st) as [[[p|] | e] st1]; cbn [snd] in *.
  - exact Hb.
  - eapply keeps_trans; [exact Hb|].
    apply (careful_bind _ (fun _ => ret Return)); [apply careful_finally_block|].
    intros _. apply careful_ret.
  - pose proof (careful_catch_block e st1) as Hc.
    destruct (catch_block t e st1) as [[u | e'] st2]; cbn [snd] in *.
    + eapply keeps_trans; [exact Hb|]. eapply keeps_trans; [exact Hc|].
      apply (careful_bind _ (fun _ => ret Return)); [apply careful_finally_block|].
      intros _. apply careful_ret.
    + eapply keeps_trans; [exact Hb|]. eapply keeps_trans; [exact Hc|].
      apply (careful_bind _ (fun _ => throw e')); [apply careful_finally_block|].
      intros _. apply careful_throw.
Qed.

Lemma inert_continue_thunk k a (body : M control) st :
  invariant st -> inert i st ->
  drains st !! k = Some (mkDrain t (Awaiting a)) ->
  harmless body -> careful i body ->
  inert i (continue_thunk k t body st).
Proof.
  intros Hinv [Q D T H F Hi S] Hk Hb Hc.
  destruct (invariant_lookup st k _ Hinv Hk) as (-> & Hd & _).
  pose proof (harmless_in_try t body Hb st) as [Fd Fq _ _ _ _ _ _].
  pose proof (careful_in_try body Hc st) as [Kt Kh Ki Ks].
  unfold continue_thunk.
  destruct (in_try t body st) as [[[p|] | e] st1]; cbn [snd] in *;
    constructor; cbn; rewrite ?Fq, ?Fd, ?Hd, ?Ki, ?Ks; auto.
  all: try (cbn; constructor; [exact other | constructor]).
  all: change (scans_of i (log st1) = []); now rewrite Ks.
Qed.

End OtherOwner.

Lemma inert_loop_head st :
  inert i st ->
  inert i (snd (loop_head st)) /\
  match fst (loop_head st) with
  | Some d => owner (current d) <> i
  | None => True
  end.
Proof.
  intros [Q D T H F Hi S]. unfold loop_head, start_thunk.
  destruct (axeQueue st) as [|t rest] eqn:Hq.
  - cbn. split; [|exact I]. constructor; cbn; auto. now rewrite Hq.
  - inversion Q as [|? ? Ht Hrest]; subst.
    cbn [isAxeRunning emit set_axeQueue].
    destruct (isAxeRunning st); cbn; (split; [|exact Ht]);
      constructor; cbn; auto.
Qed.

Lemma inert_processAxeQueue st : inert i st -> inert i (processAxeQueue st).
Proof.
  intros Hin. unfold processAxeQueue.
  destruct (isProcessingQueue st || Nat.eqb (length (axeQueue st)) 0); [exact Hin|].
  assert (Hin' : inert i (set_isProcessingQueue true st))
    by (destruct Hin; constructor; assumption).
  destruct (inert_loop_head _ Hin') as [H1 H2].
  destruct (loop_head (set_isProcessingQueue true st)) as [[d|] st1];
    cbn [fst snd] in *; [|exact H1].
  destruct H1 as [Q D T H F Hi S]. constructor; cbn; auto.
  apply List.Forall_app. split; [exact D | constructor; [exact H2 | constructor]].
Qed.

Lemma inert_runAxe j b st :
  inert i st -> (j = i -> enabled (instances st i) = false) ->
  inert i (snd (runAxe j b st)).
Proof.
  intros Hin Hoff. unfold runAxe.
  destruct (Nat.eq_dec j i) as [-> | Hne].
  { rewrite (Hoff eq_refl). exact Hin. }
  destruct (negb (enabled (instances st j))); [exact Hin|].
  destruct (b && hasRunInitialScan (instances st j)); [exact Hin|].
  cbn [snd]. apply inert_processAxeQueue.
  destruct Hin as [Q D T H F Hi S]. constructor; cbn; auto.
  apply List.Forall_app. split; [exact Q | constructor; [exact Hne | constructor]].
Qed.

Lemma Forall_delete_timer {A} (P : A -> Prop) (k : nat) (l : list A) :
  Forall P l -> Forall P (delete k l).
Proof.
  revert k. induction l as [|x l IH]; intros k Hl; [now destruct k|].
  inversion Hl; subst. destruct k; cbn; [assumption|].
  constructor; [assumption | now apply IH].
Qed.

Lemma inert_step l st st' :
  invariant st -> inert i st -> enabled (instances st i) = false ->
  step l st = Some st' -> inert i st'.
Proof.
  intros Hinv Hin Hoff Hstep.
  destruct l as [j b | j | k f tp | k r | k o | k | k]; cbn [step] in Hstep.
  - injection Hstep as <-. now apply inert_runAxe.
  - injection Hstep as <-. destruct Hin as [Q D T H F Hi S]. unfold cleanup.
    destruct (Nat.eqb _ 0); constructor; cbn; auto.
    all: intros Hx; apply elem_of_difference in Hx as [Hx _]; auto.
  - destruct (drains st !! k) as [[t [[| |]| |]]|] eqn:Hk; try discriminate.
    injection Hstep as <-.
    assert (Ho : owner t <> i).
    { destruct (invariant_lookup st k _ Hinv Hk) as (_ & Hd & _).
      destruct Hin as [_ D _ _ _ _ _]. rewrite Hd in D. now inversion D. }
    apply (inert_continue_thunk t Ho k AtImport _ st Hinv Hin Hk);
      [apply harmless_after_import | now apply careful_after_import].
  - destruct (drains st !! k) as [[t [[| |]| |]]|] eqn:Hk; try discriminate.
    injection Hstep as <-.
    assert (Ho : owner t <> i).
    { destruct (invariant_lookup st k _ Hinv Hk) as (_ & Hd & _).
      destruct Hin as [_ D _ _ _ _ _]. rewrite Hd in D. now inversion D. }
    apply (inert_continue_thunk t Ho k AtReadiness _ st Hinv Hin Hk);
      [apply harmless_call_scanner | now apply careful_call_scanner].
  - destruct (drains st !! k) as [[t [[| |]| |]]|] eqn:Hk; try discriminate.
    injection Hstep as <-.
    assert (Ho : owner t <> i).
    { destruct (invariant_lookup st k _ Hinv Hk) as (_ & Hd & _).
      destruct Hin as [_ D _ _ _ _ _]. rewrite Hd in D. now inversion D. }
    apply (inert_continue_thunk t Ho k AtScanner _ st Hinv Hin Hk);
      [apply harmless_after_scan | now apply careful_after_scan].
  - assert (Hdrain : forall settled,
               inert i match settled with
                       | Rejected e =>
                           emit (ConsoleError "Error in queued accessibility scan:" e) st
                       | _ => st
                       end ->
               inert i (continue_drain k settled st)).
    { intros settled Hin0. unfold continue_drain.
      destruct (inert_loop_head _ Hin0) as [H1 H2].
      destruct (loop_head _) as [[d|] st1]; cbn [fst snd] in *;
        destruct H1 as [Q D T H F Hi S]; constructor; cbn; auto.
      - apply Forall_insert; assumption.
      - now apply Forall_delete_timer. }
    destruct (drains st !! k) as [[t [[| |]| |e]]|] eqn:Hk; try discriminate;
      injection Hstep as <-; apply Hdrain; [exact Hin|].
    destruct Hin as [Q D T H F Hi S]. constructor; cbn; auto.
  - destruct (timers st !! k) as [[ms [j|j]]|] eqn:Hk; try discriminate;
      injection Hstep as <-.
    + apply inert_runAxe; [|intros _; exact Hoff].
      destruct Hin as [Q D T H F Hi S]. constructor; cbn; auto.
      now apply Forall_delete_timer.
    + destruct Hin as [Q D T H F Hi S]. constructor; cbn; auto.
      now apply Forall_delete_timer.
Qed.

Lemma inert_init on : inert i (init on).
Proof.
  constructor; cbn; auto; try constructor. apply not_elem_of_empty.
Qed.

Lemma reachable_enabled on st j :
  reachable on st -> enabled (instances st j) = on j.
Proof.
  induction 1 as [|l st st' Hr IH Hstep]; [reflexivity|].
  destruct (step_keeps l st st' Hstep) as (He & _). now rewrite He.
Qed.

(** X11.  An instance created with [enabled: false] stays out of the
    scheduler altogether: in every reachable state none of the queued or
    started requests is its own, no retry or watcher timer is armed for
    it, its handle is not in [axeInstances], its [isRunning] flag and its
    [hasRunInitialScan] are false, and the scanner was never called for
    it. *)
Theorem disabled_instance_never_scans (on : nat -> bool) (st : state) :
  reachable on st -> on i = false -> inert i st.
Proof.
  intros Hr Hoff. induction Hr as [|l st st' Hr IH Hstep]; [apply inert_init|].
  apply (inert_step l st st'); try assumption.
  - eapply reachable_invariant; eauto.
  - now rewrite (reachable_enabled on st i Hr).
Qed.

End InertFacts.

(** X11 on a worked run: instance 0 is disabled, instance 1 scans. *)
Lemma disabled_instance_never_scans_witness :
  match Scheduler.run Ex2.disabled_and_enabled (Scheduler.init Ex2.only_second) with
  | Some st => Flags.inert 0 st
  | None => False
  end.
Proof.
  destruct (Scheduler.run Ex2.disabled_and_enabled (Scheduler.init Ex2.only_second))
    as [st|] eqn:E.
  - apply (disabled_instance_never_scans 0 Ex2.only_second).
    + eapply run_reachable; [apply Scheduler.reachable_init | exact E].
    + reflexivity.
  - vm_compute in E. discriminate E.
Defined.

(** ** Retrying a busy scanner *)

Section RetryFacts.
Import Scheduler Flags.

Lemma run_app (l1 l2 : list label) (st : state) :
  run (l1 ++ l2) st
  = match run l1 st with
    | Some st1 => run l2 st1
    | None => None
    end.
Proof.
  revert st. induction l1 as [|l l1 IH]; intros st; cbn; [reflexivity|].
  destruct (step l st); [apply IH | reflexivity].
Qed.

Lemma busy_scan_retries (st : state) (t : thunk) :
  isProcessingQueue st = true ->
  axeQueue st = [] ->
  drains st = [mkDrain t (Awaiting AtImport)] ->
  owner t = 0 -> isInitialScan t = true ->
  enabled (instances st 0) = true ->
  hasRunInitialScan (instances st 0) = false ->
  timers st = [] ->
  exists st',
    run Ex2.busy_scan st = Some st' /\
    retry_pending st' /\
    initial_scans 0 (log st') = S (initial_scans 0 (log st)).
Proof.
  destruct st as [g s q f ins d tm lg n]. destruct t as [r o b].
  cbn [isProcessingQueue axeQueue drains owner isInitialScan instances timers].
  intros -> -> -> -> -> He Hi ->.
  unfold Ex2.busy_scan. vm_compute.
  eexists. split; [reflexivity|]. split.
  - constructor; vm_compute; auto.
  - reflexivity.
Qed.

(** A request on an idle scheduler is started at once. *)
Lemma runAxe_idle (i : nat) (b : bool) (st : state) :
  enabled (instances st i) = true ->
  b && hasRunInitialScan (instances st i) = false ->
  isProcessingQueue st = false -> axeQueue st = [] -> isAxeRunning st = false ->
  let t := mkThunk (next_rid st) i b in
  snd (runAxe i b st)
  = set_drains (drains st ++ [mkDrain t (Awaiting AtImport)])
      (emit (Started (next_rid st))
         (set_axeQueue []
            (set_isProcessingQueue true
               (set_next_rid (S (next_rid st))
                  (emit (Submitted (next_rid st)) (set_axeQueue [t] st)))))).
Proof.
  intros He Hi Hf Hq Hg. cbv zeta. unfold runAxe. rewrite He, Hi. cbn [negb snd].
  unfold processAxeQueue.
  cbn [isProcessingQueue axeQueue set_next_rid emit set_axeQueue].
  rewrite Hf, Hq. cbn [app length Nat.eqb orb].
  unfold loop_head.
  cbn [axeQueue set_isProcessingQueue set_next_rid emit set_axeQueue rid].
  unfold start_thunk.
  cbn [isAxeRunning set_isProcessingQueue set_next_rid emit set_axeQueue].
  rewrite Hg. reflexivity.
Qed.

Lemma request_retries (l : label) (st st0 : state) :
  step l st = Some (snd (runAxe 0 true st0)) ->
  log st0 = log st ->
  isProcessingQueue st0 = false -> axeQueue st0 = [] -> drains st0 = [] ->
  isAxeRunning st0 = false ->
  enabled (instances st0 0) = true ->
  hasRunInitialScan (instances st0 0) = false ->
  timers st0 = [] ->
  exists st',
    run (l :: Ex2.busy_scan) st = Some st' /\
    retry_pending st' /\
    initial_scans 0 (log st') = S (initial_scans 0 (log st)).
Proof.
  intros Hstep Hl Hf Hq Hd Hg He Hi Ht.
  change (l :: Ex2.busy_scan) with ([l] ++ Ex2.busy_scan).
  rewrite run_app. cbn [run]. rewrite Hstep.
  assert (Hi' : true && hasRunInitialScan (instances st0 0) = false)
    by now rewrite Hi.
  pose proof (runAxe_idle 0 true st0 He Hi' Hf Hq Hg) as Hrun. cbv zeta in Hrun.
  rewrite Hrun. clear Hrun.
  set (S1 := set_drains _ _).
  destruct (busy_scan_retries S1 (mkThunk (next_rid st0) 0 true))
    as (st' & Hrun & Hp & Hn).
  - reflexivity.
  - reflexivity.
  - subst S1. cbn [drains set_drains]. now rewrite Hd.
  - reflexivity.
  - reflexivity.
  - exact He.
  - exact Hi.
  - exact Ht.
  - exists st'. split; [exact Hrun|]. split; [exact Hp|]. rewrite Hn.
    subst S1. cbn [log set_drains emit set_axeQueue set_isProcessingQueue set_next_rid].
    unfold initial_scans. cbn [List.filter]. now rewrite Hl.
Qed.

Lemma retry_fires (st : state) :
  retry_pending st ->
  exists st',
    run (TimerFires 0 :: Ex2.busy_scan) st = Some st' /\
    retry_pending st' /\
    initial_scans 0 (log st') = S (initial_scans 0 (log st)).
Proof.
  intros [Hf Hq Hd Hg He Hi Ht].
  apply (request_retries _ st (set_timers (delete 0 (timers st)) st));
    try assumption; try reflexivity.
  - cbn [step]. now rewrite Ht.
  - cbn. now rewrite Ht.
Qed.

Lemma initial_request_retries (st : state) :
  isProcessingQueue st = false -> axeQueue st = [] -> drains st = [] ->
  isAxeRunning st = false ->
  enabled (instances st 0) = true ->
  hasRunInitialScan (instances st 0) = false ->
  timers st = [] ->
  exists st',
    run (CallRunAxe 0 true :: Ex2.busy_scan) st = Some st' /\
    retry_pending st' /\
    initial_scans 0 (log st') = S (initial_scans 0 (log st)).
Proof.
  intros Hf Hq Hd Hg He Hi Ht.
  apply (request_retries _ st st); try assumption; reflexivity.
Qed.

(** X12.  The retry of an initial scan is not bounded: with a scanner
    that is busy each time, an initial scan that ended with 'Axe is
    already running' is tried again after 1000 ms, again and again; for
    every [n] there is a run of the scheduler with [n + 1] scanner calls
    for the initial scan of one instance, after which no initial scan of
    the instance has completed and the next retry is armed. *)
Theorem busy_initial_scan_retried_without_bound (n : nat) :
  exists st,
    run (CallRunAxe 0 true :: Ex2.busy_scan ++ Ex2.busy_retries n)
        (init Ex.all_enabled) = Some st /\
    initial_scans 0 (log st) = S n /\
    hasRunInitialScan (instances st 0) = false /\
    timers st = [mkTimer 1000 (RetryInitialScan 0)].
Proof.
  assert (Hfirst : exists st,
             run (CallRunAxe 0 true :: Ex2.busy_scan) (init Ex.all_enabled) = Some st /\
             retry_pending st /\ initial_scans 0 (log st) = 1).
  { destruct (initial_request_retries (init Ex.all_enabled))
      as (st & Hrun & Hp & Hn); try reflexivity.
    exists st. split; [exact Hrun|]. split; [exact Hp | exact Hn]. }
  assert (Hmore : forall n st,
             retry_pending st ->
             exists st', run (Ex2.busy_retries n) st = Some st' /\
                         retry_pending st' /\
                         initial_scans 0 (log st') = n + initial_scans 0 (log st)).
  { clear. induction n as [|n IH]; intros st Hp.
    - exists st. cbn. auto.
    - cbn [Ex2.busy_retries]. rewrite run_app.
      destruct (retry_fires st Hp) as (st1 & -> & Hp1 & Hn1).
      destruct (IH st1 Hp1) as (st2 & Hrun & Hp2 & Hn2).
      exists st2. split; [exact Hrun|]. split; [exact Hp2|]. lia. }
  destruct Hfirst as (st0 & Hrun0 & Hp0 & Hn0).
  destruct (Hmore n st0 Hp0) as (st & Hrun & Hp & Hn).
  exists st. split.
  - change (CallRunAxe 0 true :: Ex2.busy_scan ++ Ex2.busy_retries n)
      with ((CallRunAxe 0 true :: Ex2.busy_scan) ++ Ex2.busy_retries n).
    now rewrite run_app, Hrun0.
  - destruct Hp as [_ _ _ _ _ Hi Ht]. split; [lia|]. split; assumption.
Qed.

(** X13.  [cleanup] does not cancel a request that was started.  When
    it is called for an instance whose request waits for its import, the
    request goes on once the import settles: it sets both running flags
    again, puts the handle of the instance back into [axeInstances] and
    goes on to the readiness gate or to the scanner. *)
Theorem cleanup_does_not_cancel_started_scan (st : state) (k : nat) (t : thunk) :
  drains st !! k = Some (mkDrain t (Awaiting AtImport)) ->
  exists st',
    run [CallCleanup (owner t); ImportSettles k None true] st = Some st' /\
    owner t ∈ axeInstances st' /\
    isAxeRunning st' = true /\
    isRunning (instances st' (owner t)) = true /\
    drains st' !! k
    = Some (mkDrain t (Awaiting (if isInitialScan t then AtReadiness else AtScanner))).
Proof.
  intros Hk. cbn [run step].
  assert (Hk' : drains (cleanup (owner t) st) !! k
                = Some (mkDrain t (Awaiting AtImport))).
  { unfold cleanup. now destruct (Nat.eqb _ 0). }
  rewrite Hk'. eexists. split; [reflexivity|].
  assert (Hlen : k < length (drains (cleanup (owner t) st)))
    by (eapply lookup_lt_Some; eauto).
  unfold continue_thunk, in_try, after_import, call_scanner.
  destruct (isInitialScan t); cbn; rewrite Nat.eqb_refl; cbn;
    (split; [apply elem_of_union_l; now apply elem_of_singleton|]);
    (split; [reflexivity|]); (split; [reflexivity|]);
    now apply list_lookup_insert_eq.
Qed.

End RetryFacts.

(** X13 on the first request of a page, cleaned up before its import
    settles. *)
Lemma cleanup_does_not_cancel_started_scan_witness :
  exists st',
    Scheduler.run [Scheduler.CallCleanup 0; Scheduler.ImportSettles 0 None true]
      (snd (Scheduler.runAxe 0 true (Scheduler.init Ex.all_enabled))) = Some st' /\
    0 ∈ Scheduler.axeInstances st' /\
    Scheduler.isAxeRunning st' = true /\
    Scheduler.isRunning (Scheduler.instances st' 0) = true /\
    Scheduler.drains st' !! 0
    = Some (Scheduler.mkDrain (Scheduler.mkThunk 0 0 true)
              (Scheduler.Awaiting Scheduler.AtReadiness)).
Proof.
  apply (cleanup_does_not_cancel_started_scan
           (snd (Scheduler.runAxe 0 true (Scheduler.init Ex.all_enabled)))
           0 (Scheduler.mkThunk 0 0 true)).
  reflexivity.
Defined.

(** ** The watchers *)

Section WatchersFacts.
Import Watchers.
Variable o : options.

Local Abbreviation invariant := (invariant o).
Local Abbreviation debouncedRunAxe := (debouncedRunAxe o).

Lemma debounce_pending_app (st : state) (p1 p2 : list timer) :
  debounce_pending (set_pending (p1 ++ p2) st)
  = debounce_pending (set_pending p1 st) ++ debounce_pending (set_pending p2 st).
Proof. unfold debounce_pending. cbn. apply List.filter_app. Qed.

Lemma filter_id_fresh (n : nat) (l : list timer) :
  Forall (fun t => t_id t < n) l -> ~ In n (map t_id l).
Proof.
  intros H Hin. apply in_map_iff in Hin as (t & Ht & Hin).
  rewrite List.Forall_forall in H. specialize (H t Hin). lia.
Qed.

Lemma NoDup_filter_ids (f : timer -> bool) (l : list timer) :
  List.NoDup (map t_id l) -> List.NoDup (map t_id (List.filter f l)).
Proof.
  induction l as [|x l IH]; cbn; [constructor|].
  intros H. apply List.NoDup_cons_iff in H as [Hx Hl].
  destruct (f x); cbn; [|now apply IH].
  apply List.NoDup_cons_iff. split; [|now apply IH].
  intros Hin. apply Hx. apply in_map_iff in Hin as (t & Ht & Hin).
  apply filter_In in Hin as [Hin _]. apply in_map_iff. now exists t.
Qed.

Lemma NoDup_snoc {A} (l : list A) (x : A) :
  List.NoDup l -> ~ In x l -> List.NoDup (l ++ [x]).
Proof.
  induction l as [|a l IH]; cbn; intros Hl Hx.
  - constructor; [intros [] | constructor].
  - apply List.NoDup_cons_iff in Hl as [Ha Hl]. apply List.NoDup_cons_iff. split.
    + intros Hin. apply in_app_or in Hin as [Hin | [<- | []]]; tauto.
    + apply IH; tauto.
Qed.

Lemma Forall_filter_keep {A} (P : A -> Prop) (f : A -> bool) (l : list A) :
  Forall P l -> Forall P (List.filter f l).
Proof.
  rewrite !List.Forall_forall. intros H x Hx.
  apply filter_In in Hx as [Hx _]. now apply H.
Qed.

(** Clearing a timer leaves at most the debounce timer the variable
    names, and none if it was the one cleared. *)
Lemma debounce_pending_clearTimeout (id : nat) (st : state) :
  invariant st ->
  (debounce_pending (clearTimeout id st) = [] /\
   (debounceTimeout st = Some id -> True)) \/
  (exists id', id' <> id /\
               debounce_pending (clearTimeout id st)
               = [mkTimer id' (debounceDelay o) DebounceFire] /\
               debounceTimeout st = Some id').
Proof.
  intros Hinv. destruct (inv_debounce o st Hinv) as [Hd | (id' & Hd & Ht)].
  - left. split; [|auto]. unfold debounce_pending, clearTimeout in *. cbn.
    rewrite filter_filter_comm, Hd. reflexivity.
  - destruct (Nat.eq_dec id' id) as [-> | Hne].
    + left. split; [|auto]. unfold debounce_pending, clearTimeout in *. cbn.
      rewrite filter_filter_comm, Hd. cbn. now rewrite Nat.eqb_refl.
    + right. exists id'. split; [exact Hne|]. split; [|exact Ht].
      unfold debounce_pending, clearTimeout in *. cbn.
      rewrite filter_filter_comm, Hd. cbn.
      apply Nat.eqb_neq in Hne. now rewrite Hne.
Qed.

Lemma invariant_clearTimeout (id : nat) (st : state) :
  invariant st -> invariant (clearTimeout id st).
Proof.
  intros Hinv. pose proof (debounce_pending_clearTimeout id st Hinv) as Hd.
  destruct Hinv as [I1 I2 I3 I4 I5 I6 I7].
  constructor; cbn; try assumption.
  - now apply Forall_filter_keep.
  - now apply NoDup_filter_ids.
  - destruct Hd as [[Hd _] | (id' & _ & Hd & Ht)]; [now left|].
    right. now exists id'.
Qed.

Lemma debouncedRunAxe_spec (st : state) :
  invariant st ->
  invariant (debouncedRunAxe st) /\
  debounce_pending (debouncedRunAxe st)
  = [mkTimer (next_id st) (debounceDelay o) DebounceFire] /\
  debounceTimeout (debouncedRunAxe st) = Some (next_id st) /\
  next_id (debouncedRunAxe st) = S (next_id st) /\
  ticks (debouncedRunAxe st) = ticks st /\
  calls (debouncedRunAxe st) = calls st /\
  registry (debouncedRunAxe st) = registry st /\
  observed (debouncedRunAxe st) = observed st /\
  target (debouncedRunAxe st) = target st.
Proof.
  intros Hinv. unfold Watchers.debouncedRunAxe.
  set (st1 := match debounceTimeout st with
              | Some id => if Nat.ltb 0 id then clearTimeout id st else st
              | None => st
              end).
  assert (H1 : invariant st1 /\ debounce_pending st1 = [] /\
               next_id st1 = next_id st /\ ticks st1 = ticks st /\
               calls st1 = calls st /\ registry st1 = registry st /\
               observed st1 = observed st /\ target st1 = target st /\
               interactionListeners st1 = interactionListeners st /\
               mutationObserver st1 = mutationObserver st).
  { subst st1. destruct (debounceTimeout st) as [id|] eqn:Ht.
    - destruct (inv_timeout o st Hinv id Ht) as [Hpos _].
      apply Nat.ltb_lt in Hpos. rewrite Hpos.
      split; [now apply invariant_clearTimeout|].
      split; [|cbn; tauto].
      destruct (debounce_pending_clearTimeout id st Hinv)
        as [[Hd _] | (id' & Hne & _ & Ht')]; [exact Hd | congruence].
    - split; [exact Hinv|]. split; [|tauto].
      destruct (inv_debounce o st Hinv) as [Hd | (id' & _ & Ht')];
        [exact Hd | congruence]. }
  destruct H1 as (Hinv1 & Hd1 & Hn & Hti & Hc & Hr & Ho & Hta & Hil & Hmo).
  clearbody st1.
  set (R := mkState (target st1) (Some (next_id st1)) (mutationObserver st1)
              (interactionListeners st1)
              (pending st1 ++ [mkTimer (next_id st1) (debounceDelay o) DebounceFire])
              (ticks st1) (observed st1) (registry st1) (S (next_id st1))
              (calls st1)).
  change (invariant R /\
          debounce_pending R = [mkTimer (next_id st) (debounceDelay o) DebounceFire] /\
          debounceTimeout R = Some (next_id st) /\
          next_id R = S (next_id st) /\
          ticks R = ticks st /\ calls R = calls st /\ registry R = registry st /\
          observed R = observed st /\ target R = target st).
  assert (Hdp : debounce_pending R
                = [mkTimer (next_id st) (debounceDelay o) DebounceFire]).
  { unfold debounce_pending, R. cbn [pending]. rewrite List.filter_app.
    fold (debounce_pending st1). rewrite Hd1, Hn. reflexivity. }
  split; [|split; [exact Hdp|]; subst R;
           cbn [debounceTimeout next_id ticks calls registry observed target];
           rewrite Hn, Hti, Hc, Hr, Ho, Hta; repeat split].
  destruct Hinv1 as [I1 I2 I3 I4 I5 I6 I7].
  constructor.
  - cbn. lia.
  - cbn [pending next_id R]. apply List.Forall_app. split.
    + eapply List.Forall_impl; [|exact I2]. cbn. intros t Ht. lia.
    + constructor; [cbn; lia | constructor].
  - cbn [pending R]. rewrite map_app. cbn [map t_id]. apply NoDup_snoc; [exact I3|].
    now apply filter_id_fresh.
  - cbn [debounceTimeout next_id R]. intros id [= <-]. lia.
  - exact I5.
  - exact I6.
  - right. exists (next_id st). split; [exact Hdp|]. cbn. now rewrite Hn.
Qed.

Lemma invariant_setTimeout (cb : timer_callback) (ms : nat) (st : state) :
  cb <> DebounceFire -> invariant st -> invariant (snd (setTimeout cb ms st)).
Proof.
  intros Hcb [I1 I2 I3 I4 I5 I6 I7]. constructor; cbn.
  - lia.
  - apply List.Forall_app. split.
    + eapply List.Forall_impl; [|exact I2]. cbn. intros t Ht. lia.
    + constructor; [cbn; lia | constructor].
  - rewrite map_app. cbn [map t_id]. apply NoDup_snoc; [exact I3|].
    now apply filter_id_fresh.
  - intros id Hid. specialize (I4 id Hid). lia.
  - exact I5.
  - exact I6.
  - assert (Hd : debounce_pending (snd (setTimeout cb ms st)) = debounce_pending st).
    { unfold debounce_pending. cbn. rewrite List.filter_app. cbn.
      destruct cb; [congruence | |]; now rewrite app_nil_r. }
    unfold debounce_pending in *. cbn in Hd. rewrite Hd. exact I7.
Qed.

Lemma invariant_same_timers (st st' : state) :
  pending st' = pending st -> debounceTimeout st' = debounceTimeout st ->
  next_id st <= next_id st' ->
  registry st' = interactionListeners st' ->
  match mutationObserver st' with
  | Some id => exists e, observed st' = [(id, e)]
  | None => observed st' = []
  end ->
  invariant st -> invariant st'.
Proof.
  intros Hp Ht Hn Hl Ho [I1 I2 I3 I4 I5 I6 I7].
  constructor; rewrite ?Hp, ?Ht; try assumption.
  - lia.
  - eapply List.Forall_impl; [|exact I2]. cbn. intros t Hlt. lia.
  - intros id Hid. specialize (I4 id Hid). lia.
  - unfold debounce_pending in *. rewrite Hp. exact I7.
Qed.

Lemma invariant_setupMutationObserver (st : state) :
  invariant st -> invariant (setupMutationObserver o st).
Proof.
  intros Hinv. unfold setupMutationObserver.
  destruct (negb (watchForChanges o)); cbn [orb]; [exact Hinv|].
  destruct (mutationObserver st) as [id|] eqn:Hm; [exact Hinv|].
  destruct (target st) as [e|]; [|exact Hinv].
  apply (invariant_same_timers st); cbn; try reflexivity; try lia.
  - apply (inv_listeners o st Hinv).
  - pose proof (inv_observer o st Hinv) as Ho. rewrite Hm in Ho. rewrite Ho.
    now exists e.
  - exact Hinv.
Qed.

Lemma add_listener_keeps (e : nat) (tys : list string) :
  forall st,
    let st' := fold_left (add_listener e) tys st in
    pending st' = pending st /\ debounceTimeout st' = debounceTimeout st /\
    next_id st' = length tys + next_id st /\
    mutationObserver st' = mutationObserver st /\ observed st' = observed st /\
    ticks st' = ticks st /\ calls st' = calls st /\ target st' = target st /\
    registry st' = registry st
                   ++ imap (fun k ty => mkListener e ty (k + next_id st)) tys /\
    interactionListeners st' = interactionListeners st
                   ++ imap (fun k ty => mkListener e ty (k + next_id st)) tys.
Proof.
  induction tys as [|ty tys IH]; intros st; cbn [fold_left].
  - cbn. rewrite !app_nil_r. tauto.
  - specialize (IH (add_listener e st ty)). cbv zeta in *.
    destruct IH as (H1 & H2 & H3 & H4 & H5 & H6 & H7 & H8 & H9 & H10).
    rewrite H1, H2, H3, H4, H5, H6, H7, H8, H9, H10. cbn.
    rewrite <- !app_assoc. cbn.
    assert (Hi : imap (fun k ty0 => mkListener e ty0 (k + S (next_id st))) tys
                 = imap ((fun k ty0 => mkListener e ty0 (k + next_id st)) ∘ S) tys).
    { apply imap_ext. intros k x _. cbn. f_equal. lia. }
    rewrite Hi. repeat split; try reflexivity. lia.
Qed.

Lemma invariant_setupInteractionListeners (st : state) :
  invariant st -> invariant (setupInteractionListeners o st).
Proof.
  intros Hinv. unfold setupInteractionListeners.
  destruct (negb (watchInteractions o)); [exact Hinv|].
  destruct (target st) as [e|]; [|exact Hinv].
  pose proof (add_listener_keeps e events st) as H. cbv zeta in H.
  destruct H as (H1 & H2 & H3 & H4 & H5 & _ & _ & _ & H9 & H10).
  apply (invariant_same_timers st); try assumption.
  - lia.
  - rewrite H9, H10. now rewrite (inv_listeners o st Hinv).
  - rewrite H4, H5. apply (inv_observer o st Hinv).
Qed.

Lemma listener_eqb_refl (l : listener) : listener_eqb l l = true.
Proof.
  unfold listener_eqb. now rewrite !Nat.eqb_refl, String.eqb_refl.
Qed.

Lemma remove_all_registry (ls : list listener) :
  forall st,
    let st' := fold_left (fun s l => removeEventListener l s) ls st in
    registry st'
    = List.filter (fun x => negb (existsb (listener_eqb x) ls)) (registry st) /\
    pending st' = pending st /\ debounceTimeout st' = debounceTimeout st /\
    next_id st' = next_id st /\ mutationObserver st' = mutationObserver st /\
    observed st' = observed st /\ ticks st' = ticks st /\ calls st' = calls st /\
    target st' = target st.
Proof.
  induction ls as [|l ls IH]; intros st; cbn [fold_left].
  - cbn. split; [|tauto]. symmetry. now apply filter_all.
  - specialize (IH (removeEventListener l st)). cbv zeta in *.
    destruct IH as (H1 & H2 & H3 & H4 & H5 & H6 & H7 & H8 & H9).
    rewrite H1, H2, H3, H4, H5, H6, H7, H8, H9. cbn. split; [|tauto].
    clear. induction (registry st) as [|x r IHr]; cbn; [reflexivity|].
    destruct (listener_eqb x l); cbn; [exact IHr|].
    destruct (existsb (listener_eqb x) ls); cbn; [exact IHr | now rewrite IHr].
Qed.

Lemma cleanup_spec (st : state) :
  invariant st ->
  invariant (cleanup st) /\
  registry (cleanup st) = [] /\ interactionListeners (cleanup st) = [] /\
  observed (cleanup st) = [] /\ mutationObserver (cleanup st) = None /\
  pending (cleanup st) = pending st /\ ticks (cleanup st) = ticks st /\
  debounceTimeout (cleanup st) = debounceTimeout st /\
  calls (cleanup st) = calls st /\ target (cleanup st) = target st /\
  next_id (cleanup st) = next_id st.
Proof.
  intros Hinv. unfold cleanup.
  set (st1 := match mutationObserver st with Some id => _ | None => st end).
  assert (H1 : observed st1 = [] /\ mutationObserver st1 = None /\
               registry st1 = registry st /\
               interactionListeners st1 = interactionListeners st /\
               pending st1 = pending st /\ ticks st1 = ticks st /\
               debounceTimeout st1 = debounceTimeout st /\
               calls st1 = calls st /\ target st1 = target st /\
               next_id st1 = next_id st).
  { subst st1. pose proof (inv_observer o st Hinv) as Ho.
    destruct (mutationObserver st) as [id|] eqn:Hm; cbn.
    - destruct Ho as (e & ->). cbn. rewrite Nat.eqb_refl. cbn. tauto.
    - rewrite Ho, Hm. tauto. }
  clearbody st1.
  destruct H1 as (Ho1 & Hm1 & Hr1 & Hl1 & Hp1 & Ht1 & Hd1 & Hc1 & Hta1 & Hn1).
  pose proof (remove_all_registry (interactionListeners st1) st1) as H2.
  cbv zeta in H2.
  destruct H2 as (Hr2 & Hp2 & Hd2 & Hn2 & Hm2 & Ho2 & Ht2 & Hc2 & Hta2).
  assert (Hreg : registry (fold_left (fun s l => removeEventListener l s)
                             (interactionListeners st1) st1) = []).
  { rewrite Hr2, Hr1, Hl1, (inv_listeners o st Hinv).
    apply filter_none. intros x Hx. apply negb_false_iff.
    apply existsb_exists. exists x. split; [exact Hx | apply listener_eqb_refl]. }
  set (st2 := fold_left _ _ _) in *. clearbody st2.
  assert (Hfields :
            registry (set_interactionListeners [] st2) = [] /\
            interactionListeners (set_interactionListeners [] st2) = [] /\
            observed (set_interactionListeners [] st2) = [] /\
            mutationObserver (set_interactionListeners [] st2) = None /\
            pending (set_interactionListeners [] st2) = pending st /\
            ticks (set_interactionListeners [] st2) = ticks st /\
            debounceTimeout (set_interactionListeners [] st2) = debounceTimeout st /\
            calls (set_interactionListeners [] st2) = calls st /\
            target (set_interactionListeners [] st2) = target st /\
            next_id (set_interactionListeners [] st2) = next_id st).
  { cbn. rewrite Hreg, Ho2, Ho1, Hm2, Hm1, Hp2, Hp1, Ht2, Ht1, Hd2, Hd1, Hc2, Hc1,
      Hta2, Hta1, Hn2, Hn1. repeat split. }
  split; [|exact Hfields].
  destruct Hfields as (F1 & F2 & F3 & F4 & F5 & F6 & F7 & F8 & F9 & F10).
  apply (invariant_same_timers st); try assumption.
  - lia.
  - rewrite F4. exact F3.
Qed.

Lemma invariant_fold_handle (type : string) (ls : list listener) :
  forall st, invariant st ->
             invariant (fold_left (fun s _ => handleUserInteraction o type s) ls st).
Proof.
  induction ls as [|l ls IH]; intros st Hinv; cbn [fold_left]; [exact Hinv|].
  apply IH. unfold handleUserInteraction.
  destruct (existsb _ _); [apply debouncedRunAxe_spec |]; exact Hinv.
Qed.

Lemma invariant_plain (st st' : state) :
  pending st' = pending st -> debounceTimeout st' = debounceTimeout st ->
  next_id st' = next_id st -> registry st' = registry st ->
  interactionListeners st' = interactionListeners st ->
  mutationObserver st' = mutationObserver st -> observed st' = observed st ->
  invariant st -> invariant st'.
Proof.
  intros Hp Ht Hn Hr Hl Hm Ho Hinv.
  apply (invariant_same_timers st); try assumption.
  - lia.
  - rewrite Hr, Hl. apply (inv_listeners o st Hinv).
  - rewrite Hm, Ho. apply (inv_observer o st Hinv).
Qed.

Lemma invariant_fire (cb : timer_callback) (st : state) :
  invariant st -> invariant (fire o cb st).
Proof.
  intros Hinv. destruct cb; cbn [fire].
  - now apply (invariant_plain st).
  - apply invariant_setupInteractionListeners, invariant_setupMutationObserver.
    now apply (invariant_plain st).
  - now apply invariant_setupInteractionListeners, invariant_setupMutationObserver.
Qed.

Lemma watchers_invariant_step (l : label) (st st' : state) :
  invariant st -> step o l st = Some st' -> invariant st'.
Proof.
  intros Hinv Hstep. destruct l as [| | |id| |e ty|ob rs|e]; cbn [step] in Hstep.
  - injection Hstep as <-. now apply invariant_setTimeout.
  - injection Hstep as <-. now apply cleanup_spec.
  - injection Hstep as <-. now apply invariant_setTimeout.
  - destruct (List.find _ _) as [t|]; [|discriminate]. injection Hstep as <-.
    now apply invariant_fire, invariant_clearTimeout.
  - destruct (ticks st) as [|cb rest] eqn:Ht; [discriminate|]. injection Hstep as <-.
    assert (H0 : invariant (set_ticks rest st)) by now apply (invariant_plain st).
    destruct cb; cbn [tick].
    + now apply (invariant_plain (set_ticks rest st)).
    + eapply (invariant_plain (setupInteractionListeners o
                                 (setupMutationObserver o (set_ticks rest st))));
        try reflexivity.
      now apply invariant_setupInteractionListeners, invariant_setupMutationObserver.
  - injection Hstep as <-. now apply invariant_fold_handle.
  - destruct (_ && _); [|discriminate]. injection Hstep as <-.
    unfold observer_callback. destruct (shouldRerun rs); [|exact Hinv].
    now apply debouncedRunAxe_spec.
  - assert (H0 : invariant (set_target e st)) by now apply (invariant_plain st).
    destruct (option_nat_eqb e (target st)); injection Hstep as <-; [exact H0|].
    apply (invariant_plain (cleanup (set_target e st))); try reflexivity.
    now apply cleanup_spec.
Qed.

Lemma watchers_invariant_init (e : option nat) : invariant (init e).
Proof.
  constructor; cbn; try constructor; try reflexivity; try lia; try discriminate.
Qed.

Lemma watchers_reachable_invariant (e : option nat) (st : state) :
  reachable o e st -> invariant st.
Proof.
  induction 1 as [|l st st' _ IH Hstep]; [apply watchers_invariant_init|].
  eapply watchers_invariant_step; eauto.
Qed.

(** *** The debounce *)

Lemma iter_debouncedRunAxe (n : nat) (st : state) :
  invariant st ->
  let st' := Nat.iter (S n) debouncedRunAxe st in
  invariant st' /\
  (exists id, debounce_pending st'
              = [mkTimer id (debounceDelay o) DebounceFire] /\
              debounceTimeout st' = Some id) /\
  calls st' = calls st /\ ticks st' = ticks st.
Proof.
  intros Hinv. cbv zeta. induction n as [|n IH].
  - cbn [Nat.iter nat_rect].
    destruct (debouncedRunAxe_spec st Hinv) as (H1 & H2 & H3 & _ & H5 & H6 & _).
    split; [exact H1|]. split; [now exists (next_id st)|]. now split.
  - destruct IH as (I1 & _ & I3 & I4).
    change (Nat.iter (S (S n)) debouncedRunAxe st)
      with (debouncedRunAxe (Nat.iter (S n) debouncedRunAxe st)).
    destruct (debouncedRunAxe_spec _ I1) as (H1 & H2 & H3 & _ & H5 & H6 & _).
    split; [exact H1|]. split; [eexists; split; eassumption|].
    split; congruence.
Qed.

Lemma find_timer (id : nat) (t : timer) (l : list timer) :
  List.NoDup (map t_id l) -> In t l -> t_id t = id ->
  List.find (fun x => Nat.eqb (t_id x) id) l = Some t.
Proof.
  induction l as [|x l IH]; cbn; [tauto|].
  intros Hnd Hin Hid. apply List.NoDup_cons_iff in Hnd as [Hx Hl].
  destruct Hin as [-> | Hin].
  - apply Nat.eqb_eq in Hid. now rewrite Hid.
  - destruct (Nat.eqb_spec (t_id x) id) as [Heq | Hne]; [|now apply IH].
    exfalso. apply Hx. apply in_map_iff. exists t. split; [congruence | exact Hin].
Qed.

Lemma debounce_timer_fires (st : state) (id : nat) :
  invariant st ->
  debounce_pending st = [mkTimer id (debounceDelay o) DebounceFire] ->
  ticks st = [] ->
  exists st',
    run o [TimerFires id; Tick] st = Some st' /\
    calls st' = false :: calls st /\
    debounce_pending st' = [] /\ ticks st' = [].
Proof.
  intros Hinv Hd Ht.
  assert (Hin : In (mkTimer id (debounceDelay o) DebounceFire) (pending st)).
  { assert (H : In (mkTimer id (debounceDelay o) DebounceFire) (debounce_pending st))
      by (rewrite Hd; now left).
    unfold debounce_pending in H. now apply filter_In in H as [H _]. }
  cbn [run step].
  rewrite (find_timer id _ _ (inv_nodup o st Hinv) Hin eq_refl).
  cbn [t_callback fire nextTick clearTimeout set_pending set_ticks ticks].
  rewrite Ht. cbn [app tick]. eexists. split; [reflexivity|].
  split; [reflexivity|]. split; [|reflexivity].
  destruct (debounce_pending_clearTimeout id st Hinv)
    as [[H _] | (id' & Hne & _ & Hto)].
  - exact H.
  - destruct (inv_debounce o st Hinv) as [H0 | (id0 & H0 & Hto0)];
      rewrite Hd in H0; [discriminate|]. congruence.
Qed.

(** X14.  The debounce.  In every state the watchers can reach at most
    one debounce timer is pending.  Any number of calls of
    [debouncedRunAxe] in a row leaves exactly one, the one
    [debounceTimeout] names, and requests no scan; when that timer
    fires and the [nextTick] callback runs, [runAxe(false)] is called
    exactly once and no debounce timer is pending. *)
Theorem debounce_collapses_a_burst (e : option nat) (st : state) (n : nat) :
  reachable o e st ->
  length (debounce_pending st) <= 1 /\
  let st' := Nat.iter (S n) debouncedRunAxe st in
  exists id,
    debounce_pending st' = [mkTimer id (debounceDelay o) DebounceFire] /\
    debounceTimeout st' = Some id /\
    calls st' = calls st /\
    (ticks st = [] ->
     exists st'', run o [TimerFires id; Tick] st' = Some st'' /\
                  calls st'' = false :: calls st /\
                  debounce_pending st'' = []).
Proof.
  intros Hr. pose proof (watchers_reachable_invariant e st Hr) as Hinv. split.
  - destruct (inv_debounce o st Hinv) as [-> | (id & -> & _)]; cbn; lia.
  - destruct (iter_debouncedRunAxe n st Hinv) as (Hinv' & (id & Hd & Hto) & Hc & Ht).
    cbv zeta. exists id. split; [exact Hd|]. split; [exact Hto|]. split; [exact Hc|].
    intros Hempty.
    destruct (debounce_timer_fires _ id Hinv' Hd) as (st'' & Hrun & Hc' & Hd' & _);
      [congruence|].
    exists st''. split; [exact Hrun|]. split; [congruence | exact Hd'].
Qed.

(** *** Setting up and cleaning up *)

Lemma setups_spec (st : state) (el : nat) :
  target st = Some el -> mutationObserver st = None -> observed st = [] ->
  registry st = [] ->
  let st' := setupInteractionListeners o (setupMutationObserver o st) in
  (watchForChanges o = true ->
   exists id, observed st' = [(id, el)] /\ mutationObserver st' = Some id) /\
  (watchInteractions o = true ->
   map where_and_what (registry st') = one_per_event el) /\
  pending st' = pending st /\ calls st' = calls st /\ ticks st' = ticks st /\
  target st' = target st.
Proof.
  intros Ht Hm Ho Hr. cbv zeta.
  set (st1 := setupMutationObserver o st).
  assert (H1 : (watchForChanges o = true ->
                exists id, observed st1 = [(id, el)] /\ mutationObserver st1 = Some id) /\
               registry st1 = [] /\ pending st1 = pending st /\
               calls st1 = calls st /\ ticks st1 = ticks st /\ target st1 = Some el).
  { subst st1. unfold setupMutationObserver. rewrite Hm, Ht.
    destruct (watchForChanges o); cbn; rewrite ?Ho, ?Hr.
    - repeat split; try assumption. intros _. now eexists.
    - repeat split; try assumption. discriminate. }
  clearbody st1. destruct H1 as (H1 & H2 & H3 & H4 & H5 & H6).
  unfold setupInteractionListeners. rewrite H6.
  destruct (watchInteractions o); cbn [negb].
  - pose proof (add_listener_keeps el events st1) as Ha. cbv zeta in Ha.
    destruct Ha as (A1 & _ & _ & A4 & A5 & A6 & A7 & A8 & A9 & _).
    rewrite A1, A4, A5, A6, A7, A8, A9, H2. repeat split; try congruence.
    intros Hw. destruct (H1 Hw) as (id & ? & ?). exists id. now split.
  - repeat split; try congruence; try discriminate. exact H1.
Qed.

(** X15.  [cleanup] removes every watcher the instance installed: in
    every reachable state, after [cleanup] no listener of the instance
    is registered on any element, however many times the listeners were
    set up and on whichever elements, no observer is connected, and both
    variables are reset.  It clears no timer and no queued [nextTick]
    callback: the pending timers, the debounce timer among them, are the
    same as before. *)
Theorem cleanup_removes_watchers_keeps_timers (e : option nat) (st : state) :
  reachable o e st ->
  registry (cleanup st) = [] /\
  interactionListeners (cleanup st) = [] /\
  observed (cleanup st) = [] /\
  mutationObserver (cleanup st) = None /\
  pending (cleanup st) = pending st /\
  ticks (cleanup st) = ticks st /\
  debounceTimeout (cleanup st) = debounceTimeout st.
Proof.
  intros Hr. pose proof (watchers_reachable_invariant e st Hr) as Hinv.
  destruct (cleanup_spec st Hinv) as (_ & H1 & H2 & H3 & H4 & H5 & H6 & H7 & _).
  repeat split; assumption.
Qed.

(** X16.  Watchers come back after [cleanup].  The timer armed by
    [onMounted] and the one armed when an initial scan has completed are
    not cleared by [cleanup]: if one of them is pending when the
    component is unmounted and the target is still there, its callback
    runs afterwards and installs the listeners again, one per event
    type, and the observer, on the target; the [onMounted] timer also
    calls [runAxe(true)]. *)
Theorem setup_timer_outlives_cleanup
        (e : option nat) (st : state) (t : timer) (el : nat) :
  reachable o e st ->
  In t (pending st) ->
  t_callback t <> DebounceFire ->
  target st = Some el ->
  exists st',
    run o [Unmounted; TimerFires (t_id t)] st = Some st' /\
    (watchInteractions o = true ->
     map where_and_what (registry st') = one_per_event el) /\
    (watchForChanges o = true ->
     exists id, observed st' = [(id, el)] /\ mutationObserver st' = Some id) /\
    (t_callback t = MountFire -> calls st' = true :: calls st).
Proof.
  intros Hr Hin Hcb Ht. pose proof (watchers_reachable_invariant e st Hr) as Hinv.
  destruct (cleanup_spec st Hinv)
    as (Hinv' & H1 & H2 & H3 & H4 & H5 & H6 & H7 & H8 & H9 & H10).
  cbn [run step]. rewrite H5.
  rewrite (find_timer (t_id t) t _ (inv_nodup o st Hinv) Hin eq_refl).
  eexists. split; [reflexivity|].
  set (st1 := clearTimeout (t_id t) (cleanup st)).
  assert (Hst1 : target st1 = Some el /\ mutationObserver st1 = None /\
                 observed st1 = [] /\ registry st1 = [] /\ calls st1 = calls st).
  { subst st1. unfold clearTimeout, set_pending.
    cbn [target mutationObserver observed registry calls].
    now rewrite H9, H4, H3, H1, H8, Ht. }
  clearbody st1. destruct Hst1 as (S1 & S2 & S3 & S4 & S5).
  destruct (t_callback t) eqn:Hc; [congruence | |]; cbn [fire].
  - destruct (setups_spec (runAxe true st1) el) as (A1 & A2 & _ & A4 & _); try assumption.
    cbv zeta in *. split; [exact A2|]. split; [exact A1|].
    intros _. rewrite A4. cbn. now rewrite S5.
  - destruct (setups_spec st1 el) as (A1 & A2 & _); try assumption.
    cbv zeta in *. split; [exact A2|]. split; [exact A1 | discriminate].
Qed.

Lemma length_listening_app (el : nat) (ty : string) (st : state) (extra : list listener) :
  length (listening el ty (set_registry (registry st ++ extra) st))
  = length (listening el ty st)
    + length (List.filter (fun l => Nat.eqb (l_target l) el && String.eqb (l_type l) ty)
                          extra).
Proof.
  unfold listening. cbn. now rewrite List.filter_app, length_app.
Qed.

(** X17.  [setupMutationObserver] is guarded by its variable and so is
    idempotent; [setupInteractionListeners] has no guard: each run with
    a target adds one more listener for each of the six event types, so
    an event on the target then calls [handleUserInteraction] once more
    than before.  The [onMounted] timer and the timer armed after the
    initial scan both run it. *)
Theorem listeners_accumulate (st : state) (el : nat) (type : string) :
  target st = Some el ->
  watchInteractions o = true ->
  In type events ->
  length (listening el type (setupInteractionListeners o st))
  = S (length (listening el type st)) /\
  setupMutationObserver o (setupMutationObserver o st) = setupMutationObserver o st.
Proof.
  intros Ht Hw Hty. split.
  - unfold setupInteractionListeners. rewrite Hw, Ht. cbn [negb].
    pose proof (add_listener_keeps el events st) as Ha. cbv zeta in Ha.
    destruct Ha as (_ & _ & _ & _ & _ & _ & _ & _ & A9 & _).
    unfold listening. rewrite A9, List.filter_app, length_app.
    replace (S (length (List.filter _ (registry st))))
      with (length (List.filter
                      (fun l => Nat.eqb (l_target l) el && String.eqb (l_type l) type)
                      (registry st)) + 1) by lia.
    f_equal. unfold events in *. cbn [imap Datatypes.length List.filter l_target l_type].
    cbn [In] in Hty.
    destruct Hty as [<- | [<- | [<- | [<- | [<- | [<- | []]]]]]];
      cbn; rewrite Nat.eqb_refl; reflexivity.
  - unfold setupMutationObserver.
    destruct (watchForChanges o); cbn [negb orb]; [|reflexivity].
    destruct (mutationObserver st) as [id|] eqn:Hm; [now rewrite Hm|].
    rewrite Ht. reflexivity.
Qed.

(** *** The mutation observer *)

Lemma delivered_sets_shouldRerun (m : mutation) :
  delivered m = true -> sets_shouldRerun m = true.
Proof.
  destruct m as [[[name|]| |] added removed];
    unfold delivered, sets_shouldRerun; cbn [m_type addedNodes removedNodes];
    try discriminate.
  - intros H. apply andb_true_iff in H as [H Hr]. apply andb_true_iff in H as [H Ha].
    apply Nat.eqb_eq in Ha, Hr. subst. cbn [Nat.ltb Nat.leb orb].
    apply existsb_exists in H as (a & Hin & Heq). apply String.eqb_eq in Heq. subst a.
    unfold attributeFilter in Hin. cbn [In] in Hin.
    destruct Hin as [<- | [<- | [<- | [<- | [<- | [<- | [<- | [<- | [<- | [<- | [<- | []]]]]]]]]]]];
      vm_compute; reflexivity.
  - intros ->. reflexivity.
Qed.

(** X18.  Every batch of records the observer delivers restarts the
    debounce.  The observer is connected for child list changes, which
    add or remove a node, and for the attributes on its filter, and
    every attribute on the filter passes the test of the callback: the
    callback never ignores a batch it gets.  The callback would also
    accept changes of [aria-label], [style], [id] and [for], but they
    are not on the filter, so such a change alone is never delivered and
    does not lead to a new scan. *)
Theorem delivered_mutations_restart_debounce
        (observer : nat) (records : list mutation) (st st' : state) :
  step o (Mutations observer records) st = Some st' ->
  st' = debouncedRunAxe st /\
  Forall (fun name => sets_shouldRerun (attribute_change name) = true /\
                      delivered (attribute_change name) = false)
         ["aria-label"; "style"; "id"; "for"].
Proof.
  intros Hstep. split.
  - cbn [step] in Hstep.
    destruct (existsb _ _ && Nat.ltb 0 (length records) && forallb delivered records)
      eqn:Hc; [|discriminate].
    injection Hstep as <-.
    apply andb_true_iff in Hc as [Hc Hall]. apply andb_true_iff in Hc as [_ Hlen].
    unfold observer_callback.
    assert (Hre : shouldRerun records = true).
    { destruct records as [|m rs]; [discriminate|].
      cbn in Hall. apply andb_true_iff in Hall as [Hm _].
      unfold shouldRerun. cbn. now rewrite (delivered_sets_shouldRerun m Hm). }
    now rewrite Hre.
  - repeat constructor.
Qed.

(** *** A new target *)

(** X19.  When the [element] option gives another element, the
    watchers move with it: after the [watch] callback and its
    [nextTick] callback the observer is connected to the new element
    only, the registered listeners of the instance are the six on the
    new element, one per event type, none is left on the old one, and
    [runAxe(false)] was called once; the pending timers are untouched,
    so a debounce that was running goes on. *)
Theorem element_change_moves_watchers (e : option nat) (st : state) (el : nat) :
  reachable o e st ->
  ticks st = [] ->
  target st <> Some el ->
  exists st',
    run o [ElementChanges (Some el); Tick] st = Some st' /\
    target st' = Some el /\
    (watchForChanges o = true ->
     exists id, observed st' = [(id, el)] /\ mutationObserver st' = Some id) /\
    (watchInteractions o = true ->
     map where_and_what (registry st') = one_per_event el) /\
    calls st' = false :: calls st /\
    pending st' = pending st.
Proof.
  intros Hr Ht Hne. pose proof (watchers_reachable_invariant e st Hr) as Hinv.
  assert (Hneq : option_nat_eqb (Some el) (target st) = false).
  { destruct (target st) as [x|]; cbn; [|reflexivity].
    apply Nat.eqb_neq. congruence. }
  assert (Hinv0 : invariant (set_target (Some el) st))
    by now apply (invariant_plain st).
  destruct (cleanup_spec _ Hinv0)
    as (Hinv' & H1 & H2 & H3 & H4 & H5 & H6 & H7 & H8 & H9 & H10).
  remember (cleanup (set_target (Some el) st)) as C eqn:HC.
  assert (Hticks : ticks C = []) by (rewrite H6; exact Ht).
  cbn [run step]. rewrite Hneq, <- HC.
  unfold nextTick at 1. cbn [ticks set_ticks]. rewrite Hticks. cbn [app].
  eexists. split; [reflexivity|].
  set (st1 := set_ticks [] _).
  assert (Hst1 : target st1 = Some el /\ mutationObserver st1 = None /\
                 observed st1 = [] /\ registry st1 = [] /\ calls st1 = calls st /\
                 pending st1 = pending st).
  { subst st1. unfold set_ticks, nextTick.
    cbn [target mutationObserver observed registry calls pending set_ticks].
    now rewrite H9, H4, H3, H1, H8, H5. }
  clearbody st1. destruct Hst1 as (S1 & S2 & S3 & S4 & S5 & S6).
  destruct (setups_spec st1 el) as (A1 & A2 & A3 & A4 & _ & A6); try assumption.
  cbv zeta in *.
  cbn [tick runAxe target observed mutationObserver registry calls pending].
  rewrite A6, A4, A3, S1, S5, S6. repeat split; assumption.
Qed.

End WatchersFacts.

(** The states of a run are reachable. *)
Lemma watchers_run_reachable (o : Watchers.options) (e : option nat)
      (ls : list Watchers.label) :
  forall st st',
    Watchers.reachable o e st -> Watchers.run o ls st = Some st' ->
    Watchers.reachable o e st'.
Proof.
  induction ls as [|l ls IH]; intros st st' Hr Hrun; cbn in Hrun.
  - now injection Hrun as <-.
  - destruct (Watchers.step o l st) as [st1|] eqn:Hs; [|discriminate].
    eapply IH; [|exact Hrun]. eapply Watchers.reachable_step; eauto.
Qed.

(** X14 on a mounted component with its watchers set up: three triggers
    in a row. *)
Lemma debounce_collapses_a_burst_witness :
  match Watchers.run Ex2.all_watchers Ex2.mounted_only (Watchers.init (Some 7)) with
  | Some st =>
      length (Watchers.debounce_pending st) <= 1 /\
      let st' := Nat.iter 3 (Watchers.debouncedRunAxe Ex2.all_watchers) st in
      exists id,
        Watchers.debounce_pending st'
        = [Watchers.mkTimer id (Watchers.debounceDelay Ex2.all_watchers)
             Watchers.DebounceFire] /\
        Watchers.debounceTimeout st' = Some id /\
        Watchers.calls st' = Watchers.calls st /\
        (Watchers.ticks st = [] ->
         exists st'',
           Watchers.run Ex2.all_watchers [Watchers.TimerFires id; Watchers.Tick] st'
           = Some st'' /\
           Watchers.calls st'' = false :: Watchers.calls st /\
           Watchers.debounce_pending st'' = [])
  | None => False
  end.
Proof.
  destruct (Watchers.run Ex2.all_watchers Ex2.mounted_only (Watchers.init (Some 7)))
    as [st|] eqn:E.
  - apply (debounce_collapses_a_burst Ex2.all_watchers (Some 7) st 2).
    eapply watchers_run_reachable; [apply Watchers.reachable_init | exact E].
  - vm_compute in E. discriminate E.
Defined.

(** X15 on a component that was mounted and has completed its initial
    scan. *)
Lemma cleanup_removes_watchers_keeps_timers_witness :
  match Watchers.run Ex2.all_watchers Ex2.mounted_and_scanned (Watchers.init (Some 7)) with
  | Some st =>
      Watchers.registry (Watchers.cleanup st) = [] /\
      Watchers.interactionListeners (Watchers.cleanup st) = [] /\
      Watchers.observed (Watchers.cleanup st) = [] /\
      Watchers.mutationObserver (Watchers.cleanup st) = None /\
      Watchers.pending (Watchers.cleanup st) = Watchers.pending st /\
      Watchers.ticks (Watchers.cleanup st) = Watchers.ticks st /\
      Watchers.debounceTimeout (Watchers.cleanup st) = Watchers.debounceTimeout st
  | None => False
  end.
Proof.
  destruct (Watchers.run Ex2.all_watchers Ex2.mounted_and_scanned (Watchers.init (Some 7)))
    as [st|] eqn:E.
  - apply (cleanup_removes_watchers_keeps_timers Ex2.all_watchers (Some 7) st).
    eapply watchers_run_reachable; [apply Watchers.reachable_init | exact E].
  - vm_compute in E. discriminate E.
Defined.

(** X16: the component is unmounted between the end of its initial scan
    and the timer armed then. *)
Lemma setup_timer_outlives_cleanup_witness :
  match Watchers.run Ex2.all_watchers Ex2.mounted_and_scanned (Watchers.init (Some 7)) with
  | Some st =>
      exists st',
        Watchers.run Ex2.all_watchers [Watchers.Unmounted; Watchers.TimerFires 9] st
        = Some st' /\
        (Watchers.watchInteractions Ex2.all_watchers = true ->
         map Watchers.where_and_what (Watchers.registry st') = Watchers.one_per_event 7) /\
        (Watchers.watchForChanges Ex2.all_watchers = true ->
         exists id, Watchers.observed st' = [(id, 7)] /\
                    Watchers.mutationObserver st' = Some id) /\
        (Watchers.PostScanFire = Watchers.MountFire ->
         Watchers.calls st' = true :: Watchers.calls st)
  | None => False
  end.
Proof.
  destruct (Watchers.run Ex2.all_watchers Ex2.mounted_and_scanned (Watchers.init (Some 7)))
    as [st|] eqn:E.
  - apply (setup_timer_outlives_cleanup Ex2.all_watchers (Some 7) st
             (Watchers.mkTimer 9 500 Watchers.PostScanFire) 7).
    + eapply watchers_run_reachable; [apply Watchers.reachable_init | exact E].
    + vm_compute in E. injection E as <-. cbn. now left.
    + discriminate.
    + vm_compute in E. injection E as <-. reflexivity.
  - vm_compute in E. discriminate E.
Defined.

(** X17 on a mounted component. *)
Lemma listeners_accumulate_witness :
  match Watchers.run Ex2.all_watchers Ex2.mounted_only (Watchers.init (Some 7)) with
  | Some st =>
      length (Watchers.listening 7 "click"
                (Watchers.setupInteractionListeners Ex2.all_watchers st))
      = S (length (Watchers.listening 7 "click" st)) /\
      Watchers.setupMutationObserver Ex2.all_watchers
        (Watchers.setupMutationObserver Ex2.all_watchers st)
      = Watchers.setupMutationObserver Ex2.all_watchers st
  | None => False
  end.
Proof.
  destruct (Watchers.run Ex2.all_watchers Ex2.mounted_only (Watchers.init (Some 7)))
    as [st|] eqn:E.
  - apply (listeners_accumulate Ex2.all_watchers st 7 "click").
    + vm_compute in E. injection E as <-. reflexivity.
    + reflexivity.
    + now left.
  - vm_compute in E. discriminate E.
Defined.

(** After the mount timer and the timer armed after the initial scan,
    two listeners answer a click on the target. *)
Lemma two_listeners_after_initial_scan :
  option_map (fun st => length (Watchers.listening 7 "click" st))
             (Watchers.run Ex2.all_watchers
                (Ex2.mounted_and_scanned ++ [Watchers.TimerFires 9])
                (Watchers.init (Some 7)))
  = Some 2.
Proof. vm_compute. reflexivity. Qed.

(** X18 on a mounted component: a change of [aria-expanded]. *)
Lemma delivered_mutations_restart_debounce_witness :
  match Watchers.run Ex2.all_watchers Ex2.mounted_only (Watchers.init (Some 7)) with
  | Some st =>
      Watchers.observer_callback Ex2.all_watchers
        [Watchers.attribute_change "aria-expanded"] st
      = Watchers.debouncedRunAxe Ex2.all_watchers st /\
      Forall (fun name =>
                Watchers.sets_shouldRerun (Watchers.attribute_change name) = true /\
                Watchers.delivered (Watchers.attribute_change name) = false)
             ["aria-label"; "style"; "id"; "for"]
  | None => False
  end.
Proof.
  destruct (Watchers.run Ex2.all_watchers Ex2.mounted_only (Watchers.init (Some 7)))
    as [st|] eqn:E.
  - apply (delivered_mutations_restart_debounce Ex2.all_watchers 2
             [Watchers.attribute_change "aria-expanded"] st).
    vm_compute in E. injection E as <-. reflexivity.
  - vm_compute in E. discriminate E.
Defined.

(** X19 on a mounted component whose element changes from 7 to 8. *)
Lemma element_change_moves_watchers_witness :
  match Watchers.run Ex2.all_watchers Ex2.mounted_only (Watchers.init (Some 7)) with
  | Some st =>
      exists st',
        Watchers.run Ex2.all_watchers
          [Watchers.ElementChanges (Some 8); Watchers.Tick] st = Some st' /\
        Watchers.target st' = Some 8 /\
        (Watchers.watchForChanges Ex2.all_watchers = true ->
         exists id, Watchers.observed st' = [(id, 8)] /\
                    Watchers.mutationObserver st' = Some id) /\
        (Watchers.watchInteractions Ex2.all_watchers = true ->
         map Watchers.where_and_what (Watchers.registry st') = Watchers.one_per_event 8) /\
        Watchers.calls st' = false :: Watchers.calls st /\
        Watchers.pending st' = Watchers.pending st
  | None => False
  end.
Proof.
  destruct (Watchers.run Ex2.all_watchers Ex2.mounted_only (Watchers.init (Some 7)))
    as [st|] eqn:E.
  - apply (element_change_moves_watchers Ex2.all_watchers (Some 7) st 8).
    + eapply watchers_run_reachable; [apply Watchers.reachable_init | exact E].
    + vm_compute in E. injection E as <-. reflexivity.
    + vm_compute in E. injection E as <-. discriminate.
  - vm_compute in E. discriminate E.
Defined.

(** ** The queue: serial and complete *)

Section QueueClaims.
Import Scheduler Flags Progress.

(** C1.  In every state the scheduler can reach, at most one
    activation of [processAxeQueue] exists and at most one thunk is
    started and not finished, now and at every earlier moment of the
    history; the thunks started so far, followed by those still queued,
    are the thunks submitted, in submission order; and while the
    draining flag is set a call of [processAxeQueue] does nothing.  The
    queued thunks are executed: whatever the environment answers to
    each thunk, when no further request arrives the steps that are due
    (the promise the activation waits for settles) can all be made and
    end, within 4 steps for each thunk, in a state with nothing queued,
    nothing in flight and the draining flag cleared, in which the thunks
    started are those started before followed by those that were queued,
    in the order of the queue, still one at a time. *)
Theorem scans_are_serialized (on : nat -> bool) (st : state) :
  reachable on st ->
  length (drains st) <= 1 /\
  length (in_flight (log st)) <= 1 /\
  serial (log st) /\
  rev (submitted (log st)) = rev (started (log st)) ++ map rid (axeQueue st) /\
  (isProcessingQueue st = true -> processAxeQueue st = st) /\
  (isProcessingQueue st = false -> drains st = [] /\ in_flight (log st) = []) /\
  (forall (env : nat -> answers) (fuel : nat),
      4 * (length (axeQueue st) + 1) < fuel ->
      exists st',
        settle_all env fuel st = Some st' /\
        reachable on st' /\
        isProcessingQueue st' = false /\
        axeQueue st' = [] /\
        drains st' = [] /\
        in_flight (log st') = [] /\
        rev (started (log st')) = rev (started (log st)) ++ map rid (axeQueue st) /\
        serial (log st')).
Proof.
  intros Hr. destruct (reachable_invariant on st Hr) as [I1 I2 I3 I4 I5 I6].
  split; [|split; [|split; [|split; [|split; [|split]]]]].
  - destruct (isProcessingQueue st).
    + destruct (I2 eq_refl) as (d & ->). cbn. lia.
    + rewrite (I1 eq_refl). cbn. lia.
  - now apply serial_in_flight.
  - exact I5.
  - exact I4.
  - intros Hf. unfold processAxeQueue. now rewrite Hf.
  - intros Hf. rewrite I3, (I1 Hf). split; reflexivity.
  - intros env fuel Hfuel.
    destruct (queued_requests_are_run env on fuel st Hr Hfuel)
      as (st' & Hall & Hr' & Hf & Hq & Hd & Hfl & Hst).
    exists st'. repeat (split; [assumption|]).
    apply (inv_serial st'). now apply (reachable_invariant on).
Qed.

End QueueClaims.

(** C1 on a worked run: two instances asked for a scan, the first scan
    is under way, the second waits in the queue. *)
Lemma scans_are_serialized_witness :
  match Scheduler.run Ex.two_instances_one_scanning (Scheduler.init Ex.all_enabled) with
  | Some st =>
      length (Scheduler.drains st) <= 1 /\
      length (Scheduler.in_flight (Scheduler.log st)) <= 1 /\
      Scheduler.serial (Scheduler.log st) /\
      rev (Scheduler.submitted (Scheduler.log st))
      = rev (Scheduler.started (Scheduler.log st))
        ++ map Scheduler.rid (Scheduler.axeQueue st) /\
      (Scheduler.isProcessingQueue st = true -> Scheduler.processAxeQueue st = st) /\
      (Scheduler.isProcessingQueue st = false ->
       Scheduler.drains st = [] /\ Scheduler.in_flight (Scheduler.log st) = []) /\
      (forall (env : nat -> Progress.answers) (fuel : nat),
          4 * (length (Scheduler.axeQueue st) + 1) < fuel ->
          exists st',
            Progress.settle_all env fuel st = Some st' /\
            Scheduler.reachable Ex.all_enabled st' /\
            Scheduler.isProcessingQueue st' = false /\
            Scheduler.axeQueue st' = [] /\
            Scheduler.drains st' = [] /\
            Scheduler.in_flight (Scheduler.log st') = [] /\
            rev (Scheduler.started (Scheduler.log st'))
            = rev (Scheduler.started (Scheduler.log st))
              ++ map Scheduler.rid (Scheduler.axeQueue st) /\
            Scheduler.serial (Scheduler.log st'))
  | None => False
  end.
Proof.
  destruct (Scheduler.run Ex.two_instances_one_scanning (Scheduler.init Ex.all_enabled))
    as [st|] eqn:E.
  - apply (scans_are_serialized Ex.all_enabled).
    eapply run_reachable; [apply Scheduler.reachable_init | exact E].
  - vm_compute in E. discriminate E.
Defined.

(** The worked run, drained: the scan of instance 0 runs to its end, then
    the request of instance 1 is taken from the queue, started, and runs
    to its end. *)
Lemma two_instances_drained_example :
  match Scheduler.run Ex.two_instances_one_scanning (Scheduler.init Ex.all_enabled) with
  | Some st =>
      option_map (fun st' => (rev (Scheduler.log st'),
                              Scheduler.axeQueue st',
                              Scheduler.isProcessingQueue st'))
                 (Progress.settle_all Ex2.all_well 9 st)
      = Some ([Scheduler.Submitted 0; Scheduler.Started 0; Scheduler.Submitted 1;
               Scheduler.ScannerInvoked 0 0 false; Scheduler.Finished 0;
               Scheduler.Started 1; Scheduler.ScannerInvoked 1 1 false;
               Scheduler.Finished 1], [], false)
  | None => False
  end.
Proof. vm_compute. reflexivity. Qed.

(** ** Initial scans *)

Section InitialScanClaims.
Import Scheduler Flags.

(** The mark [hasRunInitialScan] under the statements of
    [queuedRun]. *)
Lemma hasRun_in_try t (body : M control) st i :
  hasRunInitialScan (instances (snd (in_try t body st)) i)
  = hasRunInitialScan (instances (snd (body st)) i).
Proof.
  unfold in_try. destruct (body st) as [[[p|] | e] st1]; cbn [snd].
  - reflexivity.
  - cbn. now destruct (Nat.eqb i (owner t)).
  - unfold catch_block.
    destruct (is_already_running e), (isInitialScan t); cbn;
      now destruct (Nat.eqb i (owner t)).
Qed.

Lemma hasRun_continue_thunk k t (body : M control) st i :
  hasRunInitialScan (instances (continue_thunk k t body st) i)
  = hasRunInitialScan (instances (snd (body st)) i).
Proof.
  rewrite <- (hasRun_in_try t). unfold continue_thunk.
  destruct (in_try t body st) as [[[p|] | e] st1]; reflexivity.
Qed.

Lemma hasRun_after_import t f tp st i :
  hasRunInitialScan (instances (snd (after_import t f tp st)) i)
  = hasRunInitialScan (instances st i).
Proof.
  unfold after_import, call_scanner. destruct f as [e|]; [reflexivity|].
  destruct tp, (isInitialScan t); cbn; now destruct (Nat.eqb i (owner t)).
Qed.

Lemma hasRun_after_scan t o st i :
  hasRunInitialScan (instances st i) = false ->
  hasRunInitialScan (instances (snd (after_scan t o st)) i) = true ->
  o = ScanResolved None /\ isInitialScan t = true /\ owner t = i.
Proof.
  unfold after_scan. destruct o as [e | [e|]]; cbn; try congruence.
  destruct (isInitialScan t); cbn; [|congruence].
  destruct (Nat.eqb_spec i (owner t)) as [-> | Hne]; [auto | congruence].
Qed.

(** The mark is set by one step only: the scanner's promise of an
    initial scan of the instance resolves and the results are logged. *)
Lemma hasRunInitialScan_set_by_completed_scan (i : nat) (l : label) (st st' : state) :
  step l st = Some st' ->
  hasRunInitialScan (instances st i) = false ->
  hasRunInitialScan (instances st' i) = true ->
  exists k t,
    l = ScannerSettles k (ScanResolved None) /\
    drains st !! k = Some (mkDrain t (Awaiting AtScanner)) /\
    owner t = i /\ isInitialScan t = true.
Proof.
  intros Hstep Hno Hyes.
  destruct l as [j b | j | k f tp | k r | k o | k | k]; cbn [step] in Hstep.
  - injection Hstep as <-. destruct (runAxe_keeps j b st) as (Hi & _).
    rewrite Hi in Hyes. congruence.
  - injection Hstep as <-. unfold cleanup in Hyes.
    destruct (Nat.eqb _ 0); cbn in Hyes; congruence.
  - destruct (drains st !! k) as [[t [[| |]| |]]|] eqn:Hk; try discriminate.
    injection Hstep as <-.
    rewrite hasRun_continue_thunk, hasRun_after_import in Hyes. congruence.
  - destruct (drains st !! k) as [[t [[| |]| |]]|] eqn:Hk; try discriminate.
    injection Hstep as <-.
    rewrite hasRun_continue_thunk in Hyes. cbn in Hyes. congruence.
  - destruct (drains st !! k) as [[t [[| |]| |]]|] eqn:Hk; try discriminate.
    injection Hstep as <-.
    rewrite hasRun_continue_thunk in Hyes.
    destruct (hasRun_after_scan t o st i Hno Hyes) as (-> & Ht & Ho).
    exists k, t. auto.
  - destruct (drains st !! k) as [[t [[| |]| |e]]|] eqn:Hk; try discriminate;
      injection Hstep as <-.
    + destruct (continue_drain_keeps k Fulfilled st) as (Hi & _).
      rewrite Hi in Hyes. congruence.
    + destruct (continue_drain_keeps k (Rejected e) st) as (Hi & _).
      rewrite Hi in Hyes. congruence.
  - destruct (timers st !! k) as [[ms [j|j]]|] eqn:Hk; try discriminate;
      injection Hstep as <-.
    + destruct (runAxe_keeps j true (set_timers (delete k (timers st)) st)) as (Hi & _).
      rewrite Hi in Hyes. cbn in Hyes. congruence.
    + cbn in Hyes. congruence.
Qed.

(** A request while the queue is being drained is put at the end of
    the queue. *)
Lemma runAxe_busy (i : nat) (b : bool) (st : state) :
  enabled (instances st i) = true ->
  b && hasRunInitialScan (instances st i) = false ->
  isProcessingQueue st = true ->
  snd (runAxe i b st)
  = set_next_rid (S (next_rid st))
      (emit (Submitted (next_rid st))
         (set_axeQueue (axeQueue st ++ [mkThunk (next_rid st) i b]) st)).
Proof.
  intros He Hi Hf. unfold runAxe. rewrite He, Hi. cbn [negb snd].
  unfold processAxeQueue.
  cbn [isProcessingQueue set_next_rid emit set_axeQueue]. now rewrite Hf.
Qed.

(** A started initial scan whose import succeeds with the target
    present waits for the readiness gate and then calls the scanner, as
    an initial scan; the mark of its instance is not looked at. *)
Lemma initial_scan_reaches_scanner (k : nat) (t : thunk) (ready : bool) (st : state) :
  drains st !! k = Some (mkDrain t (Awaiting AtImport)) ->
  isInitialScan t = true ->
  exists st',
    run [ImportSettles k None true; ReadinessSettles k ready] st = Some st' /\
    drains st' = <[k := mkDrain t (Awaiting AtScanner)]> (drains st) /\
    axeQueue st' = axeQueue st /\
    isProcessingQueue st' = isProcessingQueue st /\
    log st' = ScannerInvoked (rid t) (owner t) true :: log st.
Proof.
  intros Hk Ht.
  assert (Hlen : k < length (drains st)) by (eapply lookup_lt_Some; eauto).
  cbn [run step]. rewrite Hk.
  unfold continue_thunk at 1, in_try, after_import. rewrite Ht. cbn.
  rewrite list_lookup_insert_eq by assumption.
  unfold continue_thunk, in_try, after_readiness, call_scanner. rewrite Ht. cbn.
  eexists. split; [reflexivity|]. cbn.
  rewrite list_insert_insert_eq. auto.
Qed.

(** The scanner's promise of the thunk being run settles, however it
    does, and the activation takes the next thunk of the queue: no
    scanner call is made meanwhile. *)
Lemma scan_ends_next_starts (i : nat) (t t2 : thunk) (rest : list thunk)
      (o : scan_outcome) (st : state) :
  drains st = [mkDrain t (Awaiting AtScanner)] ->
  axeQueue st = t2 :: rest ->
  exists st',
    run [ScannerSettles 0 o; ThunkSettled 0] st = Some st' /\
    drains st' = [mkDrain t2 (Awaiting AtImport)] /\
    axeQueue st' = rest /\
    initial_scans i (log st') = initial_scans i (log st) /\
    (forall e, In e (log st) -> In e (log st')).
Proof.
  intros Hd Hq. cbn [run step]. rewrite Hd. cbn [lookup list_lookup].
  unfold continue_thunk, in_try, after_scan, catch_block.
  destruct o as [e | [e|]]; cbn;
    try destruct (is_already_running e); destruct (isInitialScan t); cbn;
    rewrite ?Hd; cbn; unfold continue_drain, loop_head, start_thunk; cbn;
    rewrite ?Hq; cbn; rewrite ?Hd; cbn;
    (eexists; split; [reflexivity|]; cbn; rewrite ?Hd;
     repeat split; auto).
Qed.

(** C2 (amended).  A call [runAxe(true)] on an instance that has
    completed an initial scan changes nothing, and so does every later
    one; an initial scan that runs to its end marks the instance, and
    the mark is set by no other step: when it goes from unset to set,
    the step is the one in which the scanner's promise of an initial
    scan of that instance resolves and its results are logged; a call
    on an enabled instance that has not completed one submits an
    initial scan of its own, queued or started at once, whether or not
    another one is already queued or running; a queued initial scan
    that reaches the scanner calls it, as an initial scan, whatever the
    mark of its instance is by then; and when [runAxe(true)] is called
    twice on an enabled unmarked instance while nothing runs, and both
    imports succeed with the target present, the scanner is called for
    two initial scans of the instance, however the readiness gates and
    the first scan end. *)
Theorem runAxe_initial_guard (i : nat) (st : state) :
  (hasRunInitialScan (instances st i) = true ->
   runAxe i true st = (Normal tt, st) /\
   forall ls st', run ls st = Some st' -> runAxe i true st' = (Normal tt, st')) /\
  (forall k t, owner t = i -> isInitialScan t = true ->
     hasRunInitialScan
       (instances (continue_thunk k t (after_scan t (ScanResolved None)) st) i) = true) /\
  (forall l st', step l st = Some st' ->
     hasRunInitialScan (instances st i) = false ->
     hasRunInitialScan (instances st' i) = true ->
     exists k t,
       l = ScannerSettles k (ScanResolved None) /\
       drains st !! k = Some (mkDrain t (Awaiting AtScanner)) /\
       owner t = i /\ isInitialScan t = true) /\
  (enabled (instances st i) = true ->
   hasRunInitialScan (instances st i) = false ->
   let queuedRun := mkThunk (next_rid st) i true in
   let st' := snd (runAxe i true st) in
   submitted (log st') = rid queuedRun :: submitted (log st) /\
   (In queuedRun (axeQueue st') \/
    In (mkDrain queuedRun (Awaiting AtImport)) (drains st') \/
    In (mkDrain queuedRun Fulfilled) (drains st'))) /\
  (forall k t ready, owner t = i -> isInitialScan t = true ->
     log (continue_thunk k t (after_readiness t ready) st)
     = ScannerInvoked (rid t) i true :: log st) /\
  (forall on, reachable on st ->
     isProcessingQueue st = false ->
     enabled (instances st i) = true ->
     hasRunInitialScan (instances st i) = false ->
     forall (ready1 ready2 : bool) (o1 : scan_outcome),
     exists st',
       run [CallRunAxe i true; CallRunAxe i true;
            ImportSettles 0 None true; ReadinessSettles 0 ready1;
            ScannerSettles 0 o1; ThunkSettled 0;
            ImportSettles 0 None true; ReadinessSettles 0 ready2] st = Some st' /\
       initial_scans i (log st') = 2 + initial_scans i (log st) /\
       In (ScannerInvoked (next_rid st) i true) (log st') /\
       In (ScannerInvoked (S (next_rid st)) i true) (log st')).
Proof.
  split; [|split; [|split; [|split; [|split]]]].
  5: { intros k t ready Ho Ht. unfold continue_thunk, in_try, after_readiness,
         call_scanner. cbn. now rewrite Ho, Ht. }
  - intros Hi.
    assert (Hnoop : forall s, hasRunInitialScan (instances s i) = true ->
                              runAxe i true s = (Normal tt, s)).
    { intros s Hs. unfold runAxe. rewrite Hs. cbn.
      now destruct (negb (enabled (instances s i))). }
    split; [now apply Hnoop|].
    intros ls st' Hrun. apply Hnoop. eapply run_keeps; eauto.
  - intros k t Ho Ht. unfold continue_thunk, in_try, after_scan. rewrite Ht.
    cbn. rewrite Ho, Nat.eqb_refl. reflexivity.
  - intros l st'. apply hasRunInitialScan_set_by_completed_scan.
  - intros He Hi queuedRun st'. subst st'. unfold runAxe.
    rewrite He, Hi. cbn [negb andb snd].
    unfold processAxeQueue. cbn [isProcessingQueue set_next_rid emit set_axeQueue axeQueue].
    destruct (isProcessingQueue st) eqn:Hf; cbn [orb].
    { cbn. split; [reflexivity|]. left. apply in_or_app. right. now left. }
    rewrite length_app. cbn [length].
    replace (Nat.eqb (length (axeQueue st) + 1) 0) with false
      by (symmetry; apply Nat.eqb_neq; lia).
    unfold loop_head, start_thunk. cbn.
    destruct (axeQueue st) as [|t0 rest] eqn:Hq; cbn;
      destruct (isAxeRunning st); cbn; (split; [reflexivity|]).
    + right; right. apply in_or_app. right. now left.
    + right; left. apply in_or_app. right. now left.
    + left. apply in_or_app. right. now left.
    + left. apply in_or_app. right. now left.
  - intros on Hr Hf He Hi ready1 ready2 o1.
    destruct (reachable_invariant on st Hr) as [I1 I2 I3 I4 I5 I6].
    destruct (reachable_flags on st Hr) as [Fq Fg Fl].
    pose proof (I1 Hf) as Hd.
    pose proof (Fq Hf) as Hq.
    assert (Hg : isAxeRunning st = false).
    { destruct (isAxeRunning st) eqn:E; [|reflexivity].
      exfalso. apply (Fg eq_refl). unfold scanning. now rewrite Hd. }
    set (n := next_rid st).
    set (t1 := mkThunk n i true). set (t2 := mkThunk (S n) i true).
    (* the first call starts its thunk *)
    pose proof (runAxe_idle i true st He (eq_trans (andb_true_l _) Hi) Hf Hq Hg) as E1.
    cbv zeta in E1. fold n t1 in E1. rewrite Hd in E1. cbn [app] in E1.
    set (s1 := snd (runAxe i true st)) in *.
    assert (E2 : snd (runAxe i true s1)
                 = set_next_rid (S (S n))
                     (emit (Submitted (S n)) (set_axeQueue [t2] s1))).
    { rewrite (runAxe_busy i true s1); rewrite E1; try reflexivity; cbn; auto. }
    set (s2 := snd (runAxe i true s1)) in *.
    assert (D2 : drains s2 = [mkDrain t1 (Awaiting AtImport)])
      by (rewrite E2, E1; reflexivity).
    assert (Q2 : axeQueue s2 = [t2]) by (rewrite E2; reflexivity).
    assert (L2 : log s2 = Submitted (S n) :: Started n :: Submitted n :: log st)
      by (rewrite E2, E1; reflexivity).
    destruct (initial_scan_reaches_scanner 0 t1 ready1 s2) as (s4 & R4 & D4 & Q4 & _ & L4);
      [rewrite D2; reflexivity | reflexivity |].
    rewrite D2 in D4. cbn in D4. rewrite Q2 in Q4.
    destruct (scan_ends_next_starts i t1 t2 [] o1 s4 D4 Q4) as (s6 & R6 & D6 & Q6 & L6 & K6).
    destruct (initial_scan_reaches_scanner 0 t2 ready2 s6) as (s8 & R8 & D8 & Q8 & _ & L8);
      [rewrite D6; reflexivity | reflexivity |].
    exists s8.
    change [CallRunAxe i true; CallRunAxe i true;
            ImportSettles 0 None true; ReadinessSettles 0 ready1;
            ScannerSettles 0 o1; ThunkSettled 0;
            ImportSettles 0 None true; ReadinessSettles 0 ready2]
      with ([CallRunAxe i true; CallRunAxe i true]
            ++ [ImportSettles 0 None true; ReadinessSettles 0 ready1]
            ++ [ScannerSettles 0 o1; ThunkSettled 0]
            ++ [ImportSettles 0 None true; ReadinessSettles 0 ready2]).
    rewrite run_app.
    change (run [CallRunAxe i true; CallRunAxe i true] st) with (Some s2).
    cbv beta iota. rewrite run_app, R4, run_app, R6, R8.
    split; [reflexivity|].
    split; [|split].
    + rewrite L8. unfold initial_scans at 1. cbn [List.filter rid owner t2].
      rewrite Nat.eqb_refl. cbn [length]. fold (initial_scans i (log s6)).
      rewrite L6, L4. unfold initial_scans at 1. cbn [List.filter rid owner t1].
      rewrite Nat.eqb_refl. cbn [length]. fold (initial_scans i (log s2)).
      rewrite L2. reflexivity.
    + rewrite L8. right. apply K6. rewrite L4. now left.
    + rewrite L8. now left.
Qed.

End InitialScanClaims.

(** C2 on worked runs: after the two initial scans of instance 0 a
    further [runAxe(true)] changes nothing; and two calls on the page
    just loaded lead to two scanner calls. *)
Lemma runAxe_initial_guard_witness :
  match Scheduler.run Ex.two_initial_requests (Scheduler.init Ex.all_enabled) with
  | Some st =>
      Scheduler.hasRunInitialScan (Scheduler.instances st 0) = true /\
      Scheduler.runAxe 0 true st = (Scheduler.Normal tt, st)
  | None => False
  end /\
  exists st',
    Scheduler.run
      [Scheduler.CallRunAxe 0 true; Scheduler.CallRunAxe 0 true;
       Scheduler.ImportSettles 0 None true; Scheduler.ReadinessSettles 0 true;
       Scheduler.ScannerSettles 0 (Scheduler.ScanResolved None);
       Scheduler.ThunkSettled 0;
       Scheduler.ImportSettles 0 None true; Scheduler.ReadinessSettles 0 true]
      (Scheduler.init Ex.all_enabled) = Some st' /\
    Scheduler.initial_scans 0 (Scheduler.log st') = 2.
Proof.
  split.
  - destruct (Scheduler.run Ex.two_initial_requests (Scheduler.init Ex.all_enabled))
      as [st|] eqn:E; vm_compute in E; [|discriminate E].
    injection E as <-.
    split; [reflexivity|]. apply (runAxe_initial_guard 0). reflexivity.
  - destruct (runAxe_initial_guard 0 (Scheduler.init Ex.all_enabled))
      as (_ & _ & _ & _ & _ & H).
    destruct (H Ex.all_enabled (Scheduler.reachable_init _) eq_refl eq_refl eq_refl
                true true (Scheduler.ScanResolved None)) as (st' & R & N & _).
    exists st'. split; [exact R | exact N].
Defined.

(** ** The boundaries of a search *)

Section BoundaryFacts.
Import Dom Locator Tree.

(** Every root the descent queries is the shadow root of an element of
    the composed tree. *)
Lemma visited_hosts (fuel : nat) :
  forall (n : node) (b : list node),
    In b (visited fuel n) ->
    exists host, In host (composed n) /\ shadowRoot host = Some b.
Proof.
  induction fuel as [|fuel IH]; intros n b; cbn [visited]; [intros []|].
  intros Hb. apply in_app_or in Hb as [Hb | Hb].
  - destruct (shadowRoot n) as [sr|] eqn:Hsr; [|destruct Hb].
    destruct Hb as [<- | Hb].
    + exists n. split; [|exact Hsr].
      destruct n; [now left | discriminate].
    + apply in_flat_map in Hb as (d & Hd & Hb).
      destruct (IH d b Hb) as (host & Hh & Hs).
      exists host. split; [|exact Hs].
      apply (composed_trans n d host); [|exact Hh].
      now apply (descendants_shadow_composed n sr).
  - apply in_flat_map in Hb as (c & Hc & Hb).
    destruct (IH c b Hb) as (host & Hh & Hs).
    exists host. split; [|exact Hs].
    apply (composed_trans n c host); [|exact Hh].
    now apply child_composed.
Qed.

(** And the descent queries the shadow root of every element of the
    composed tree. *)
Lemma hosts_visited (n : node) :
  forall (fuel : nat) (host : node) (b : list node),
    height n < fuel ->
    In host (composed n) -> shadowRoot host = Some b ->
    In b (visited fuel n).
Proof.
  induction n as [t a sr cs Hsr Hcs | d] using node_induction;
    intros fuel host b Hf Hh Hb; [|destruct Hh].
  destruct fuel as [|fuel]; [lia|].
  cbn [visited shadowRoot childNodes]. cbn [composed] in Hh.
  destruct Hh as [<- | Hh].
  { cbn [shadowRoot] in Hb. subst sr. apply in_or_app. left. now left. }
  apply in_app_or in Hh as [Hh | Hh]; apply in_or_app.
  - left. destruct sr as [l|]; [|destruct Hh]. right.
    apply in_flat_map in Hh as (c & Hc & Hh).
    apply in_flat_map. exists c.
    assert (Hel : is_element c = true)
      by (destruct c; [reflexivity | destruct Hh]).
    split.
    + unfold descendants. apply in_flat_map. exists c. split; [exact Hc|].
      destruct c; [now left | discriminate].
    + rewrite List.Forall_forall in Hsr. apply (Hsr c Hc fuel host b); try assumption.
      pose proof (list_max_ge (map height l) (height c) (in_map height l c Hc)).
      cbn [height] in Hf. lia.
  - right. apply in_flat_map in Hh as (c & Hc & Hh).
    apply in_flat_map. exists c.
    assert (Hel : is_element c = true)
      by (destruct c; [reflexivity | destruct Hh]).
    split.
    + unfold children. apply filter_In. split; assumption.
    + rewrite List.Forall_forall in Hcs. apply (Hcs c Hc fuel host b); try assumption.
      pose proof (list_max_ge (map height cs) (height c) (in_map height cs c Hc)).
      cbn [height] in Hf. lia.
Qed.

(** The boundaries of a search from [root] are the root itself and the
    shadow roots of the elements of its composed tree, all of them. *)
Lemma boundaries_cover (root : node) (b : list node) :
  In b (boundaries root) <->
  b = childNodes root \/
  exists host, In host (composed root) /\ shadowRoot host = Some b.
Proof.
  unfold boundaries. cbn [In]. split.
  - intros [<- | Hb]; [now left | right]. now apply visited_hosts in Hb.
  - intros [-> | (host & Hh & Hb)]; [now left | right].
    apply (hosts_visited root (S (height root)) host b); [lia | assumption..].
Qed.

Lemma depth_first_children (cs : list node) :
  flat_map depth_first (children cs) = flat_map depth_first cs.
Proof.
  induction cs as [|c cs IH]; [reflexivity|].
  destruct c as [t a sr ks | d]; cbn [children List.filter is_element flat_map].
  - fold (children cs). now rewrite IH.
  - fold (children cs). now rewrite IH.
Qed.

Lemma subtree_depth_first_incl (c : node) :
  forall d, In d (subtree c) -> incl (depth_first d) (depth_first c).
Proof.
  induction c as [t a sr cs _ Hcs | s] using node_induction;
    intros d; cbn [subtree]; [|intros []].
  intros [<- | Hin]; [apply incl_refl|].
  apply in_flat_map in Hin as (k & Hk & Hd).
  rewrite List.Forall_forall in Hcs. specialize (Hcs k Hk d Hd).
  intros b Hb. cbn [depth_first]. apply in_or_app. right.
  apply in_flat_map. exists k. split; [exact Hk | now apply Hcs].
Qed.

(** The depth-first list holds the shadow roots of the elements of the
    composed tree, and nothing else. *)
Lemma depth_first_hosts (n : node) :
  forall b, In b (depth_first n) <->
            exists host, In host (composed n) /\ shadowRoot host = Some b.
Proof.
  induction n as [t a sr cs Hsr Hcs | s] using node_induction; intros b.
  2: { cbn. split; [intros [] | intros (h & [] & _)]. }
  rewrite List.Forall_forall in Hcs.
  assert (Hkids : In b (flat_map depth_first cs) <->
                  exists host, In host (flat_map composed cs) /\
                               shadowRoot host = Some b).
  { split.
    - intros H. apply in_flat_map in H as (c & Hc & H).
      apply (Hcs c Hc) in H as (host & Hh & Hs).
      exists host. split; [|exact Hs]. apply in_flat_map. now exists c.
    - intros (host & Hh & Hs). apply in_flat_map in Hh as (c & Hc & Hh).
      apply in_flat_map. exists c. split; [exact Hc|].
      apply (Hcs c Hc). now exists host. }
  cbn [depth_first composed]. rewrite in_app_iff, Hkids. clear Hkids.
  destruct sr as [l|].
  - rewrite List.Forall_forall in Hsr. split.
    + intros [[<- | H] | (host & Hh & Hs)].
      * exists (Element t a (Some l) cs). split; [now left | reflexivity].
      * apply in_flat_map in H as (c & Hc & H).
        apply (Hsr c Hc) in H as (host & Hh & Hs).
        exists host. split; [|exact Hs]. right. apply in_or_app. left.
        apply in_flat_map. now exists c.
      * exists host. split; [|exact Hs]. right. apply in_or_app. now right.
    + intros (host & [<- | Hh] & Hs).
      * cbn [shadowRoot] in Hs. injection Hs as <-. left. now left.
      * apply in_app_or in Hh as [Hh | Hh].
        -- left. right. apply in_flat_map in Hh as (c & Hc & Hh).
           apply in_flat_map. exists c. split; [exact Hc|].
           apply (Hsr c Hc). now exists host.
        -- right. now exists host.
  - split.
    + intros [[] | (host & Hh & Hs)]. exists host. split; [now right | exact Hs].
    + intros (host & [<- | Hh] & Hs); [discriminate|].
      right. now exists host.
Qed.

End BoundaryFacts.

(** ** The locator with an engine that may raise *)

Section RaisingFacts.
Import Dom Raising.
Variable querySelector : list node -> string -> lookup.

Local Abbreviation findByHtmlContent := (findByHtmlContent querySelector).
Local Abbreviation searchAllShadowRoots := (searchAllShadowRoots querySelector).

Lemma or_else_Null (x : lookup) : or_else x Null = x.
Proof. now destruct x. Qed.

Lemma first_outcome_app {A} (f : A -> lookup) (l1 l2 : list A) :
  first_outcome f (l1 ++ l2) = or_else (first_outcome f l1) (first_outcome f l2).
Proof.
  induction l1 as [|x l1 IH]; cbn [first_outcome app or_else]; [reflexivity|].
  rewrite IH. now destruct (f x).
Qed.

(** The first outcome is that of the first call that does not return
    [null]. *)
Lemma first_outcome_decisive {A} (f : A -> lookup) (l : list A) (r : lookup) :
  first_outcome f l = r -> r <> Null ->
  exists before x after,
    l = before ++ x :: after /\
    List.Forall (fun y => f y = Null) before /\
    f x = r.
Proof.
  induction l as [|x l IH]; cbn [first_outcome]; [congruence|].
  intros H Hr. destruct (f x) as [e| |] eqn:Hx; cbn [or_else] in H.
  - exists [], x, l. repeat split; [constructor | congruence].
  - destruct (IH H Hr) as (before & y & after & -> & Hb & Hy).
    exists (x :: before), y, after. repeat split; [now constructor | exact Hy].
  - exists [], x, l. repeat split; [constructor | congruence].
Qed.

Lemma first_outcome_Null {A} (f : A -> lookup) (l : list A) :
  first_outcome f l = Null <-> forall x, In x l -> f x = Null.
Proof.
  induction l as [|x l IH]; cbn [first_outcome In]; [tauto|].
  destruct (f x) as [e| |] eqn:Hx; cbn [or_else]; split; intros H.
  - discriminate.
  - specialize (H x (or_introl eq_refl)). congruence.
  - intros y [<- | Hy]; [exact Hx | now apply IH].
  - apply IH. intros y Hy. apply H. now right.
  - discriminate.
  - specialize (H x (or_introl eq_refl)). congruence.
Qed.

(** Calls repeated later in the list do not change the outcome. *)
Lemma first_outcome_absorb {A} (f : A -> lookup) (l l' : list A) :
  incl l' l -> first_outcome f (l ++ l') = first_outcome f l.
Proof.
  intros Hincl. rewrite first_outcome_app.
  destruct (first_outcome f l) eqn:E; cbn [or_else]; try reflexivity.
  apply first_outcome_Null. intros x Hx.
  apply (proj1 (first_outcome_Null f l) E). now apply Hincl.
Qed.

Lemma first_outcome_flat_map {A B} (f : A -> lookup) (g h : B -> list A)
      (l : list B) :
  (forall x, In x l -> first_outcome f (g x) = first_outcome f (h x)) ->
  first_outcome f (flat_map g l) = first_outcome f (flat_map h l).
Proof.
  induction l as [|x l IH]; intros H; cbn [flat_map]; [reflexivity|].
  rewrite !first_outcome_app, (H x) by now left.
  rewrite IH; [reflexivity|]. intros y Hy. apply H. now right.
Qed.

Section Order.
Variable f : list node -> lookup.

Lemma subtree_depth_first (c : node) :
  first_outcome f (flat_map Tree.depth_first (subtree c))
  = first_outcome f (Tree.depth_first c).
Proof.
  destruct c as [t a sr cs | d]; [|reflexivity].
  cbn [subtree flat_map]. apply first_outcome_absorb.
  intros b Hb. apply in_flat_map in Hb as (d & Hd & Hb).
  apply (subtree_depth_first_incl (Element t a sr cs) d); [|exact Hb].
  cbn [subtree]. now right.
Qed.

Lemma descendants_depth_first (scope : list node) :
  first_outcome f (flat_map Tree.depth_first (descendants scope))
  = first_outcome f (flat_map Tree.depth_first scope).
Proof.
  unfold descendants. induction scope as [|c scope IH]; [reflexivity|].
  cbn [flat_map]. rewrite flat_map_app, !first_outcome_app.
  now rewrite subtree_depth_first, IH.
Qed.

(** The descent of the code comes back to the shadow roots below an
    element of a shadow tree once for each of its ancestors there;
    the outcome is that of one depth-first pass. *)
Lemma visited_depth_first (fuel : nat) :
  forall n : node,
    height n < fuel ->
    first_outcome f (Locator.visited fuel n)
    = first_outcome f (Tree.depth_first n).
Proof.
  induction fuel as [|fuel IH]; intros n Hn; [lia|].
  cbn [Locator.visited].
  assert (Hkids : first_outcome f (flat_map (Locator.visited fuel)
                                            (children (childNodes n)))
                  = first_outcome f (flat_map Tree.depth_first (childNodes n))).
  { rewrite <- depth_first_children. apply first_outcome_flat_map.
    intros c Hc. apply IH. apply child_lower in Hc. lia. }
  rewrite first_outcome_app, Hkids.
  destruct n as [t a sr cs | d]; [|reflexivity].
  cbn [shadowRoot childNodes Tree.depth_first]. rewrite first_outcome_app.
  f_equal. destruct sr as [l|]; [|reflexivity].
  cbn [first_outcome]. f_equal.
  rewrite <- descendants_depth_first. apply first_outcome_flat_map.
  intros d Hd. apply IH.
  pose proof (shadow_descendant_lower (Element t a (Some l) cs) l d eq_refl Hd).
  lia.
Qed.

Lemma boundaries_depth_first (root : node) :
  first_outcome f (Locator.boundaries root)
  = first_outcome f (childNodes root :: Tree.depth_first root).
Proof.
  unfold Locator.boundaries. cbn [first_outcome].
  now rewrite visited_depth_first by lia.
Qed.

End Order.

(** One root: the six lookups in the order of the source; an error
    raised by one of them ends the function. *)
Lemma raising_findByHtmlContent_priority (htmlContent : string) (root : list node) :
  findByHtmlContent htmlContent root
  = first_outcome (fun lookup => lookup htmlContent root) (lookups querySelector).
Proof.
  unfold Raising.findByHtmlContent, lookups. cbn [first_outcome].
  now rewrite or_else_Null.
Qed.

Lemma raising_first_result_visited (g : node -> option lookup)
      (h : list node -> lookup) (vis : node -> list (list node))
      (l : list node) :
  (forall x, In x l -> g x = Some (first_outcome h (vis x))) ->
  first_result g l = Some (first_outcome h (flat_map vis l)).
Proof.
  induction l as [|x l IH]; intros Hg; cbn [first_result flat_map first_outcome];
    [reflexivity|].
  rewrite (Hg x) by now left. rewrite first_outcome_app.
  destruct (first_outcome h (vis x)); cbn [or_else]; try reflexivity.
  apply IH. intros y Hy. apply Hg. now right.
Qed.

(** One step of a descent that queries each shadow root with [h]. *)
Lemma descent_visited (h : list node -> lookup)
      (search : nat -> node -> option lookup) :
  (forall fuel n,
      search (S fuel) n
      = match match shadowRoot n with
              | Some sr => match h sr with
                           | Hit found => Some (Hit found)
                           | Null => first_result (search fuel) (descendants sr)
                           | SyntaxError => Some SyntaxError
                           end
              | None => Some Null
              end with
        | None => None
        | Some (Hit e) => Some (Hit e)
        | Some Null => first_result (search fuel) (children (childNodes n))
        | Some SyntaxError => Some SyntaxError
        end) ->
  forall fuel n,
    height n < fuel ->
    search fuel n = Some (first_outcome h (Locator.visited fuel n)).
Proof.
  intros Hstep. induction fuel as [|fuel IH]; intros n Hn; [lia|].
  rewrite Hstep. cbn [Locator.visited].
  assert (Hkids : first_result (search fuel) (children (childNodes n))
                  = Some (first_outcome h
                            (flat_map (Locator.visited fuel)
                                      (children (childNodes n))))).
  { apply raising_first_result_visited. intros c Hc. apply IH.
    apply child_lower in Hc. lia. }
  rewrite first_outcome_app.
  destruct (shadowRoot n) as [sr|] eqn:Hsr; cbn [first_outcome or_else]; [|exact Hkids].
  destruct (h sr) as [e| |]; cbn [or_else]; try reflexivity.
  rewrite (raising_first_result_visited _ h (Locator.visited fuel)).
  - destruct (first_outcome h (flat_map _ (descendants sr))); cbn [or_else];
      [reflexivity | exact Hkids | reflexivity].
  - intros d Hd. apply IH.
    pose proof (shadow_descendant_lower n sr d Hsr Hd). lia.
Qed.

Lemma raising_searchAllShadowRoots_visited (htmlContent : string) (fuel : nat)
      (n : node) :
  height n < fuel ->
  searchAllShadowRoots fuel htmlContent n
  = Some (first_outcome (findByHtmlContent htmlContent) (Locator.visited fuel n)).
Proof.
  apply (descent_visited (findByHtmlContent htmlContent)
           (fun fuel => searchAllShadowRoots fuel htmlContent)).
  intros f m. reflexivity.
Qed.

Lemma raising_searchInShadow_visited (selector : string) (fuel : nat) (n : node) :
  height n < fuel ->
  searchInShadow querySelector fuel selector n
  = Some (first_outcome (fun sr => querySelector sr selector)
                        (Locator.visited fuel n)).
Proof.
  apply (descent_visited (fun sr => querySelector sr selector)
           (fun fuel => searchInShadow querySelector fuel selector)).
  intros f m. reflexivity.
Qed.

Lemma raising_locate_boundary_major_eq (htmlContent : string) (root : node) :
  locate_boundary_major querySelector htmlContent root
  = first_outcome (findByHtmlContent htmlContent) (Locator.boundaries root).
Proof.
  unfold locate_boundary_major. generalize (Locator.boundaries root). intros l.
  induction l as [|x l IH]; cbn [first_outcome]; [reflexivity|].
  now rewrite <- raising_findByHtmlContent_priority, IH.
Qed.

Lemma raising_content_over_boundaries
      (fuel : nat) (htmlContent : string) (root : node) :
  height root < fuel ->
  findByHtmlContentInAllShadowRoots querySelector fuel htmlContent root
  = Some (locate_boundary_major querySelector htmlContent root).
Proof.
  intros Hfuel. unfold findByHtmlContentInAllShadowRoots.
  rewrite raising_locate_boundary_major_eq. unfold Locator.boundaries.
  cbn [first_outcome].
  destruct (findByHtmlContent htmlContent (childNodes root)) as [e| |];
    cbn [or_else]; try reflexivity.
  rewrite raising_searchAllShadowRoots_visited by assumption.
  now rewrite (visited_fuel fuel (S (height root))) by lia.
Qed.

Lemma raising_selector_over_boundaries
      (fuel : nat) (selector : string) (root : node) :
  height root < fuel ->
  match querySelector (childNodes root) selector with
  | Hit element => Some (Hit element)
  | Null => searchInShadow querySelector fuel selector root
  | SyntaxError => Some SyntaxError
  end
  = Some (first_outcome (fun scope => querySelector scope selector)
                        (Locator.boundaries root)).
Proof.
  intros Hfuel. unfold Locator.boundaries. cbn [first_outcome].
  destruct (querySelector (childNodes root) selector) as [e| |];
    cbn [or_else]; try reflexivity.
  rewrite raising_searchInShadow_visited by assumption.
  now rewrite (visited_fuel fuel (S (height root))) by lia.
Qed.

Lemma raising_strategies
      (fuel : nat) (selector : string) (htmlContent : option string) (root : node) :
  height root < fuel ->
  findElementInShadowDOM querySelector fuel selector htmlContent root
  = Some (or_else
            match htmlContent with
            | Some (String c h) =>
                locate_boundary_major querySelector (String c h) root
            | _ => Null
            end
            (first_outcome (fun scope => querySelector scope selector)
                           (Locator.boundaries root))).
Proof.
  intros Hfuel. unfold findElementInShadowDOM.
  destruct htmlContent as [[|c h]|]; cbn [or_else];
    try now apply raising_selector_over_boundaries.
  rewrite raising_content_over_boundaries by assumption.
  destruct (locate_boundary_major querySelector (String c h) root) as [e| |];
    cbn [or_else]; try reflexivity.
  now apply raising_selector_over_boundaries.
Qed.

Lemma raising_by_text_gate (htmlContent : string) (root : list node) :
  by_text htmlContent root <> SyntaxError /\
  forall e, by_text htmlContent root = Hit e ->
    exists m, Js.capture ">" "<" htmlContent = Some m /\
              3 < String.length (Js.trim m) /\
              In e (descendants root) /\
              Js.trim (textContent e) = Js.trim m.
Proof.
  unfold by_text. destruct (Js.capture ">" "<" htmlContent) as [m|];
    [|split; [discriminate | intros e; discriminate]].
  destruct (Nat.ltb 3 (String.length (Js.trim m))) eqn:Hlen;
    [|split; [discriminate | intros e; discriminate]].
  destruct (List.find _ (descendants root)) as [x|] eqn:Hf; cbn [of_option];
    (split; [discriminate|]); intros e He; [|discriminate].
  injection He as <-. apply find_some in Hf as [Hin Heq].
  exists m. repeat split; try assumption.
  - now apply Nat.ltb_lt.
  - now apply String.eqb_eq.
Qed.

(** C5 (amended).  On one root the lookups are tried in the order id,
    aria-label, role with classes, role, classes, text; the text lookup
    never raises and is made only for an extracted text that is,
    trimmed, longer than 3 characters, and it finds an element whose
    trimmed text content equals it.  All lookups are tried on the given
    root first, then on each nested shadow root in turn, depth first:
    the search ends with the first lookup, in that order, that does not
    return null, with the element it found or with the [SyntaxError] it
    raised, and it returns null when every lookup on every boundary
    did; this for any fuel above the height of the root.  The nested
    boundaries are the shadow roots of all elements of the composed
    tree of the root, and no others.  For a non-empty markup
    [findElementInShadowDOM] ends in the same way before it looks at
    the selector. *)
Theorem locator_searches_boundary_by_boundary
        (fuel : nat) (htmlContent : string) (root : node) :
  height root < fuel ->
  let order := childNodes root :: Tree.depth_first root in
  findByHtmlContentInAllShadowRoots querySelector fuel htmlContent root
  = Some (locate_boundary_major querySelector htmlContent root)
  /\ locate_boundary_major querySelector htmlContent root
     = first_outcome (findByHtmlContent htmlContent) order
  /\ (forall scope : list node,
         findByHtmlContent htmlContent scope
         = first_outcome (fun lookup => lookup htmlContent scope)
                         [by_id querySelector; by_aria_label querySelector;
                          by_role_and_class querySelector; by_role querySelector;
                          by_class querySelector; by_text])
  /\ (forall scope : list node,
         by_text htmlContent scope <> SyntaxError /\
         forall e : node,
           by_text htmlContent scope = Hit e ->
           exists m, Js.capture ">" "<" htmlContent = Some m /\
                     3 < String.length (Js.trim m) /\
                     In e (descendants scope) /\
                     Js.trim (textContent e) = Js.trim m)
  /\ (forall r : lookup,
         locate_boundary_major querySelector htmlContent root = r -> r <> Null ->
         exists before b after,
           order = before ++ b :: after /\
           List.Forall (fun b' => findByHtmlContent htmlContent b' = Null) before /\
           findByHtmlContent htmlContent b = r)
  /\ (locate_boundary_major querySelector htmlContent root = Null <->
      forall b, In b order -> findByHtmlContent htmlContent b = Null)
  /\ (forall b : list node,
         In b (Tree.depth_first root) <->
         exists host, In host (Tree.composed root) /\ shadowRoot host = Some b)
  /\ (forall (selector : string) (r : lookup),
         htmlContent <> EmptyString ->
         locate_boundary_major querySelector htmlContent root = r -> r <> Null ->
         findElementInShadowDOM querySelector fuel selector (Some htmlContent) root
         = Some r).
Proof.
  intros Hfuel order.
  assert (Horder : locate_boundary_major querySelector htmlContent root
                   = first_outcome (findByHtmlContent htmlContent) order).
  { rewrite raising_locate_boundary_major_eq. apply boundaries_depth_first. }
  split; [now apply raising_content_over_boundaries|].
  split; [exact Horder|].
  split; [intros scope; apply raising_findByHtmlContent_priority|].
  split; [intros scope; apply raising_by_text_gate|].
  split.
  { intros r Hr Hn. rewrite Horder in Hr. now apply first_outcome_decisive. }
  split.
  { rewrite Horder. apply first_outcome_Null. }
  split; [intros b; apply depth_first_hosts|].
  intros selector r Hne Hr Hn.
  rewrite raising_strategies by assumption.
  destruct htmlContent as [|c h]; [congruence|].
  rewrite Hr. now destruct r.
Qed.

(** X2.  [findElementInShadowDOM] on a root of height below [fuel]
    always ends, and how it ends is fixed by the strategies in this
    order: for a non-empty markup, the content lookups over the root and
    then its nested shadow roots, depth first; when these all returned
    null, or the markup is missing or empty, the selector over the same
    boundaries, the root itself first.  It ends with the first call in
    that order that does not return null: with the element found, or
    with the [SyntaxError] the engine raised, which nothing catches; it
    returns null when every call did.  The nested boundaries are the
    shadow roots of all elements of the composed tree of the root, and
    no others. *)
Theorem findElementInShadowDOM_strategies
        (fuel : nat) (selector : string) (htmlContent : option string)
        (root : node) :
  height root < fuel ->
  let order := childNodes root :: Tree.depth_first root in
  findElementInShadowDOM querySelector fuel selector htmlContent root
  = Some (or_else
            match htmlContent with
            | Some (String c h) =>
                first_outcome (findByHtmlContent (String c h)) order
            | _ => Null
            end
            (first_outcome (fun scope => querySelector scope selector) order))
  /\ (forall b : list node,
         In b (Tree.depth_first root) <->
         exists host, In host (Tree.composed root) /\ shadowRoot host = Some b).
Proof.
  intros Hfuel order. split; [|intros b; apply depth_first_hosts].
  rewrite raising_strategies by assumption.
  rewrite (boundaries_depth_first (fun scope => querySelector scope selector)).
  destruct htmlContent as [[|c h]|]; try reflexivity.
  now rewrite raising_locate_boundary_major_eq, boundaries_depth_first.
Qed.

End RaisingFacts.

(** ** An engine that never raises

    With such an engine the locator is the one of [Locator]. *)

Section Agreement.
Import Dom.
Variable querySelector : list node -> string -> option node.

Lemma or_else_of_option (a b : option node) :
  Raising.or_else (Raising.of_option a) (Raising.of_option b)
  = Raising.of_option (Locator.or_else a b).
Proof. now destruct a. Qed.

Lemma first_outcome_lift {A} (f : A -> option node) (g : A -> Raising.lookup)
      (l : list A) :
  (forall x, g x = Raising.of_option (f x)) ->
  Raising.first_outcome g l = Raising.of_option (Locator.first_hit f l).
Proof.
  intros H. induction l as [|x l IH];
    cbn [Raising.first_outcome Locator.first_hit]; [reflexivity|].
  now rewrite H, IH, or_else_of_option.
Qed.

Lemma lift_findByHtmlContent (htmlContent : string) (root : list node) :
  Raising.findByHtmlContent (Raising.lift querySelector) htmlContent root
  = Raising.of_option (Locator.findByHtmlContent querySelector htmlContent root).
Proof.
  unfold Raising.findByHtmlContent, Locator.findByHtmlContent.
  rewrite <- !or_else_of_option.
  repeat f_equal.
  - unfold Raising.by_id, Locator.by_id.
    now destruct (Js.attr_match "id" htmlContent).
  - unfold Raising.by_aria_label, Locator.by_aria_label.
    now destruct (Js.attr_match "aria-label" htmlContent).
  - unfold Raising.by_role_and_class, Locator.by_role_and_class.
    now destruct (Js.attr_match "role" htmlContent),
      (Js.attr_match "class" htmlContent).
  - unfold Raising.by_role, Locator.by_role.
    now destruct (Js.attr_match "role" htmlContent).
  - unfold Raising.by_class, Locator.by_class.
    destruct (Js.attr_match "class" htmlContent); [|reflexivity].
    now destruct (Nat.ltb 0 _).
  - unfold Raising.by_text, Locator.by_text.
    destruct (Js.capture ">" "<" htmlContent); [|reflexivity].
    now destruct (Nat.ltb 3 _).
Qed.

(** The locator of [Locator] is the locator with an engine that never
    raises. *)
Lemma lift_findElementInShadowDOM
      (fuel : nat) (selector : string) (htmlContent : option string) (root : node) :
  height root < fuel ->
  Raising.findElementInShadowDOM (Raising.lift querySelector) fuel selector
                                 htmlContent root
  = option_map Raising.of_option
      (Locator.findElementInShadowDOM querySelector fuel selector htmlContent root).
Proof.
  intros Hfuel. rewrite raising_strategies by assumption.
  assert (Hsel : Raising.first_outcome
                   (fun scope => Raising.lift querySelector scope selector)
                   (Locator.boundaries root)
                 = Raising.of_option
                     (Locator.first_hit (fun scope => querySelector scope selector)
                                        (Locator.boundaries root)))
    by now apply first_outcome_lift.
  rewrite Hsel.
  destruct htmlContent as [[|c h]|].
  - rewrite findElementInShadowDOM_by_selector by (try assumption; now right).
    reflexivity.
  - rewrite findElementInShadowDOM_by_content by assumption.
    rewrite raising_locate_boundary_major_eq, locate_boundary_major_eq.
    rewrite (first_outcome_lift (Locator.findByHtmlContent querySelector (String c h)))
      by (intros x; apply lift_findByHtmlContent).
    cbn [option_map]. now rewrite or_else_of_option.
  - rewrite findElementInShadowDOM_by_selector by (try assumption; now left).
    reflexivity.
Qed.

End Agreement.

(** C5 on the worked page, with the strict engine. *)
Lemma locator_searches_boundary_by_boundary_witness :
  Raising.findByHtmlContentInAllShadowRoots Ex2.strict_querySelector 5
    Ex.div_save_html Ex.page_body
  = Some (Raising.locate_boundary_major Ex2.strict_querySelector
            Ex.div_save_html Ex.page_body).
Proof.
  apply (locator_searches_boundary_by_boundary Ex2.strict_querySelector 5
           Ex.div_save_html Ex.page_body).
  vm_compute. lia.
Defined.

(** X2 on the worked page: markup whose id starts with a digit.  The
    first lookup raises, although the role of the markup is the one of
    the [span] and the selector names the [div]. *)
Lemma findElementInShadowDOM_strategies_witness :
  Raising.findElementInShadowDOM Ex2.strict_querySelector
    (S (Dom.height Ex.page_body)) "#save" (Some Ex2.digit_id_html) Ex.page_body
  = Some Raising.SyntaxError.
Proof.
  rewrite (proj1 (findElementInShadowDOM_strategies Ex2.strict_querySelector
                    (S (Dom.height Ex.page_body)) "#save" (Some Ex2.digit_id_html)
                    Ex.page_body (Nat.lt_succ_diag_r _))).
  vm_compute. reflexivity.
Defined.

(** The strict engine on the worked page: the markup of the [div]
    resolves to the [span]; without markup the selector finds the [div]
    in the shadow tree; a selector that cannot be read raises. *)
Lemma strict_engine_examples :
  Raising.findElementInShadowDOM Ex2.strict_querySelector 5 "#save"
    (Some Ex.div_save_html) Ex.page_body = Some (Raising.Hit Ex.span_button)
  /\ Raising.findElementInShadowDOM Ex2.strict_querySelector 5 "#save"
       None Ex.page_body = Some (Raising.Hit Ex.div_save)
  /\ Raising.findElementInShadowDOM Ex2.strict_querySelector 5 "div > p"
       None Ex.page_body = Some Raising.SyntaxError
  /\ Raising.findByHtmlContent Ex2.strict_querySelector Ex2.digit_id_html
       [Ex.span_button] = Raising.SyntaxError.
Proof. repeat split; vm_compute; reflexivity. Qed.

(** ** The differ with a locator that may raise *)

Section RaisingDifferFacts.
Import Differ RaisingDiffer.
Context {Element : Type}.




Section OneLocator.
Variable locate : option string -> string -> completion (option Element).






End OneLocator.



End RaisingDifferFacts.


(** On the worked page with the strict engine: the markup of the
    violation has an id that is no identifier, the locator raises, the
    call raises and the stored lists stay as the scan before left
    them. *)
Lemma logViolations_raises_example :
  let before := snd (RaisingDiffer.logViolations Ex2.strict_locator [Ex2.viol_save] true
                                                 Differ.differ_init) in
  map Differ.e_id (Differ.previousViolations before) = ["button-name"] /\
  RaisingDiffer.logViolations Ex2.strict_locator [Ex2.viol_save; Ex2.viol_digit]
                              false before
  = (RaisingDiffer.Raised, before).
Proof. split; vm_compute; reflexivity. Qed.
